(** * ExMail: the codec utilities, the Gmail API client and the notification
    poller, embedded from [api/utils.js], [api/gmail.js] and the background
    service worker. *)

From Stdlib Require Import NArith ZArith Ascii String Decimal Lia.
From stdpp Require Import base option list gmap.

Local Open Scope N_scope.

(** ** JavaScript strings

    A JavaScript string is a sequence of UTF-16 code units.  Code units are
    kept as [N]; [code_units] says that each one fits 16 bits. *)

Abbreviation jsstring := (list N).

Definition js (s : string) : jsstring :=
  N_of_ascii <$> list_ascii_of_string s.
Global Arguments js : simpl never.

Definition code_units (s : jsstring) : Prop := Forall (λ u, u < 65536) s.

(** Truthiness of a string value: the empty string is falsy. *)
Definition truthy (s : jsstring) : bool :=
  match s with [] => false | _ => true end.

(** [o || d] and the truthiness of a possibly [undefined] string. *)
Definition or_else (o : option jsstring) (d : jsstring) : jsstring :=
  match o with
  | Some s => if truthy s then s else d
  | None => d
  end.

Definition truthy_opt (o : option jsstring) : bool :=
  match o with Some s => truthy s | None => false end.

(** Interpolation of a possibly [undefined] string into a template literal. *)
Definition tpl (o : option jsstring) : jsstring :=
  match o with Some s => s | None => js "undefined" end.

(** [s.startsWith(p)] *)
Fixpoint startsWith (p s : jsstring) : bool :=
  match p, s with
  | [], _ => true
  | _ :: _, [] => false
  | a :: p', b :: s' => (a =? b) && startsWith p' s'
  end.

(** [s.replace(/c/g, rep)] for a pattern that is one literal character. *)
Definition replace_all (c : N) (rep : jsstring) (s : jsstring) : jsstring :=
  flat_map (λ u, if u =? c then rep else [u]) s.

(** [String.prototype.trim]: white space and line terminators. *)
Definition is_white_space (u : N) : bool :=
  (u =? 9) || (u =? 10) || (u =? 11) || (u =? 12) || (u =? 13) || (u =? 32)
  || (u =? 160) || (u =? 5760) || ((8192 <=? u) && (u <=? 8202))
  || (u =? 8232) || (u =? 8233) || (u =? 8239) || (u =? 8287)
  || (u =? 12288) || (u =? 65279).

Fixpoint trimStart (s : jsstring) : jsstring :=
  match s with
  | u :: r => if is_white_space u then trimStart r else s
  | [] => []
  end.

Definition trim (s : jsstring) : jsstring :=
  rev (trimStart (rev (trimStart s))).

(** [n.toString()] for a non-negative integer below 10^21: its decimal
    digits.  (From 10^21 on a number prints in exponent notation, which is
    not modelled.)  It is applied to the status of a response, which is a
    16-bit number, to a hue below 360, and to a result count, whose type
    [Whole] keeps it below the bound. *)
Fixpoint uint_digits (u : Decimal.uint) : jsstring :=
  match u with
  | Nil => []
  | D0 r => 48 :: uint_digits r
  | D1 r => 49 :: uint_digits r
  | D2 r => 50 :: uint_digits r
  | D3 r => 51 :: uint_digits r
  | D4 r => 52 :: uint_digits r
  | D5 r => 53 :: uint_digits r
  | D6 r => 54 :: uint_digits r
  | D7 r => 55 :: uint_digits r
  | D8 r => 56 :: uint_digits r
  | D9 r => 57 :: uint_digits r
  end.

Definition number_toString (n : N) : jsstring := uint_digits (N.to_uint n).

Record Whole := {
  whole_value : N;
  whole_small : Is_true (whole_value <? 10 ^ 21);
}.

(** [a.join(sep)] on an array of strings. *)
Fixpoint join (sep : jsstring) (l : list jsstring) : jsstring :=
  match l with
  | [] => []
  | [x] => x
  | x :: r => x ++ sep ++ join sep r
  end.

(** [toLowerCase] on the ASCII letters.  Its one call site applies it to a
    header name that has passed the allow-list test, and those are ASCII. *)
Definition lower_unit (u : N) : N :=
  if (65 <=? u) && (u <=? 90) then u + 32 else u.

Definition toLowerCase (s : jsstring) : jsstring := lower_unit <$> s.

(** ** Exceptions and results *)

Inductive Exn :=
| JsError (message : jsstring)      (* new Error(message) *)
| InvalidCharacterError             (* DOMException of btoa / atob *)
| SyntaxError                       (* JSON.parse *)
| TypeError                         (* a property read on null *)
| NetworkError.                     (* fetch() rejected *)

Inductive Result (A : Type) :=
| Ok (a : A)
| Throw (e : Exn).
Arguments Ok {A} a.
Arguments Throw {A} e.

Definition is_ok {A} (r : Result A) : bool :=
  match r with Ok _ => true | Throw _ => false end.

(** ** Platform codecs

    [TextEncoder], [TextDecoder], [btoa] and [atob] are platform functions;
    they are written out here after the WHATWG Encoding and HTML standards,
    since the codec utilities are compositions of them. *)

Definition is_high_surrogate (u : N) : bool := (55296 <=? u) && (u <=? 56319).
Definition is_low_surrogate (u : N) : bool := (56320 <=? u) && (u <=? 57343).

(** Conversion of a string to scalar values: a surrogate pair is one code
    point, an unpaired surrogate becomes U+FFFD. *)
Fixpoint to_scalars (s : jsstring) : list N :=
  match s with
  | [] => []
  | u :: r =>
      if is_high_surrogate u then
        match r with
        | v :: r' =>
            if is_low_surrogate v
            then (65536 + (u - 55296) * 1024 + (v - 56320)) :: to_scalars r'
            else 65533 :: to_scalars r
        | [] => [65533]
        end
      else if is_low_surrogate u then 65533 :: to_scalars r
      else u :: to_scalars r
  end.

(** The UTF-8 encoder, one scalar value at a time. *)
Definition utf8_trail (x : N) : N := N.lor 128 (N.land x 63).

Definition utf8_encode_scalar (c : N) : list N :=
  if c <=? 127 then [c]
  else if c <=? 2047 then
    [N.lor 192 (N.shiftr c 6); utf8_trail c]
  else if c <=? 65535 then
    [N.lor 224 (N.shiftr c 12); utf8_trail (N.shiftr c 6); utf8_trail c]
  else
    [N.lor 240 (N.shiftr c 18); utf8_trail (N.shiftr c 12);
     utf8_trail (N.shiftr c 6); utf8_trail c].

(** [new TextEncoder().encode(str)] *)
Definition TextEncoder_encode (s : jsstring) : list N :=
  flat_map utf8_encode_scalar (to_scalars s).

(** The UTF-8 decoder is a state machine over bytes: either between
    characters, or inside one with the code point so far, the number of
    continuation bytes still expected and the bounds for the next byte. *)
Inductive Utf8State :=
| Utf8Start
| Utf8Cont (code_point : N) (needed : nat) (lower upper : N).

(** A byte read between characters: the next state and what is emitted. *)
Definition utf8_lead (b : N) : Utf8State * list N :=
  if b <=? 127 then (Utf8Start, [b])
  else if (194 <=? b) && (b <=? 223) then
    (Utf8Cont (N.land b 31) 1 128 191, [])
  else if (224 <=? b) && (b <=? 239) then
    (Utf8Cont (N.land b 15) 2
       (if b =? 224 then 160 else 128) (if b =? 237 then 159 else 191), [])
  else if (240 <=? b) && (b <=? 244) then
    (Utf8Cont (N.land b 7) 3
       (if b =? 240 then 144 else 128) (if b =? 244 then 143 else 191), [])
  else (Utf8Start, [65533]).

Fixpoint utf8_decode_from (st : Utf8State) (bs : list N) : list N :=
  match bs with
  | [] =>
      match st with
      | Utf8Start => []
      | Utf8Cont _ _ _ _ => [65533]
      end
  | b :: r =>
      match st with
      | Utf8Start =>
          let '(st', out) := utf8_lead b in out ++ utf8_decode_from st' r
      | Utf8Cont c needed lower upper =>
          if (lower <=? b) && (b <=? upper) then
            let c' := N.lor (N.shiftl c 6) (N.land b 63) in
            match needed with
            | S (S n) => utf8_decode_from (Utf8Cont c' (S n) 128 191) r
            | _ => c' :: utf8_decode_from Utf8Start r
            end
          else
            (* the byte is put back and read again between characters *)
            let '(st', out) := utf8_lead b in
            65533 :: out ++ utf8_decode_from st' r
      end
  end.

(** A code point as UTF-16 code units. *)
Definition utf16_units (c : N) : jsstring :=
  if c <=? 65535 then [c]
  else [55296 + N.shiftr (c - 65536) 10; 56320 + N.land (c - 65536) 1023].

(** The decoder drops one leading byte order mark ([ignoreBOM] is false by
    default). *)
Definition strip_bom (cs : list N) : list N :=
  match cs with
  | c :: r => if c =? 65279 then r else cs
  | [] => []
  end.

(** [new TextDecoder().decode(bytes)]: never throws ([fatal] is false). *)
Definition TextDecoder_decode (bytes : list N) : jsstring :=
  flat_map utf16_units (strip_bom (utf8_decode_from Utf8Start bytes)).

(** Base64 alphabet of RFC 4648. *)
Definition b64_char (i : N) : N :=
  if i <? 26 then 65 + i
  else if i <? 52 then 97 + (i - 26)
  else if i <? 62 then 48 + (i - 52)
  else if i =? 62 then 43
  else 47.

Definition b64_value (c : N) : option N :=
  if (65 <=? c) && (c <=? 90) then Some (c - 65)
  else if (97 <=? c) && (c <=? 122) then Some (c - 97 + 26)
  else if (48 <=? c) && (c <=? 57) then Some (c - 48 + 52)
  else if c =? 43 then Some 62
  else if c =? 47 then Some 63
  else None.

Fixpoint b64_encode_bytes (bs : list N) : jsstring :=
  match bs with
  | [] => []
  | [a] =>
      [b64_char (N.shiftr a 2); b64_char (N.shiftl (N.land a 3) 4); 61; 61]
  | [a; b] =>
      [b64_char (N.shiftr a 2);
       b64_char (N.lor (N.shiftl (N.land a 3) 4) (N.shiftr b 4));
       b64_char (N.shiftl (N.land b 15) 2); 61]
  | a :: b :: c :: r =>
      b64_char (N.shiftr a 2)
      :: b64_char (N.lor (N.shiftl (N.land a 3) 4) (N.shiftr b 4))
      :: b64_char (N.lor (N.shiftl (N.land b 15) 2) (N.shiftr c 6))
      :: b64_char (N.land c 63)
      :: b64_encode_bytes r
  end.

(** [btoa(binary)]: throws when a character is above U+00FF. *)
Definition btoa (binary : jsstring) : Result jsstring :=
  if forallb (λ u, u <=? 255) binary then Ok (b64_encode_bytes binary)
  else Throw InvalidCharacterError.

(** [atob(data)], the forgiving-base64 decode of the HTML standard. *)
Definition is_ascii_whitespace (u : N) : bool :=
  (u =? 9) || (u =? 10) || (u =? 12) || (u =? 13) || (u =? 32).

(** Remove one or two trailing [=] when the length is a multiple of four. *)
Definition strip_padding (d : jsstring) : jsstring :=
  if (N.of_nat (length d) mod 4 =? 0) then
    match rev d with
    | 61 :: 61 :: r => rev r
    | 61 :: r => rev r
    | _ => d
    end
  else d.

Fixpoint b64_values (d : jsstring) : option (list N) :=
  match d with
  | [] => Some []
  | c :: r =>
      match b64_value c, b64_values r with
      | Some v, Some vs => Some (v :: vs)
      | _, _ => None
      end
  end.

(** Groups of four sextets give three bytes; two left over give one byte,
    three give two, the spare low bits being discarded. *)
Fixpoint b64_decode_values (vs : list N) : list N :=
  match vs with
  | s1 :: s2 :: s3 :: s4 :: r =>
      N.lor (N.shiftl s1 2) (N.shiftr s2 4)
      :: N.lor (N.shiftl (N.land s2 15) 4) (N.shiftr s3 2)
      :: N.lor (N.shiftl (N.land s3 3) 6) s4
      :: b64_decode_values r
  | [s1; s2; s3] =>
      [N.lor (N.shiftl s1 2) (N.shiftr s2 4);
       N.lor (N.shiftl (N.land s2 15) 4) (N.shiftr s3 2)]
  | [s1; s2] => [N.lor (N.shiftl s1 2) (N.shiftr s2 4)]
  | _ => []
  end.

Definition atob (data : jsstring) : Result jsstring :=
  let d := strip_padding (filter (λ u, is_ascii_whitespace u = false) data) in
  if N.of_nat (length d) mod 4 =? 1 then Throw InvalidCharacterError
  else
    match b64_values d with
    | Some vs => Ok (b64_decode_values vs)
    | None => Throw InvalidCharacterError
    end.

(** The error monad of synchronous code that may throw. *)
Global Instance Result_ret : MRet Result := λ A a, Ok a.
Global Instance Result_bind : MBind Result := λ A B f r,
  match r with
  | Ok a => f a
  | Throw e => Throw e
  end.

(** ** api/utils.js *)

(** [String.fromCharCode(n)] and a store into a [Uint8Array]. *)
Definition String_fromCharCode (n : N) : N := n mod 65536.
Definition Uint8_store (n : N) : N := n mod 256.

(** [s.replace(/=+$/, '')]: the trailing run of [=] is removed. *)
Fixpoint drop_leading (c : N) (s : jsstring) : jsstring :=
  match s with
  | u :: r => if u =? c then drop_leading c r else s
  | [] => []
  end.

Definition strip_trailing_eq (s : jsstring) : jsstring :=
  rev (drop_leading 61 (rev s)).

Definition base64Encode (str : jsstring) : Result jsstring :=
  let data := TextEncoder_encode str in
  let binary := String_fromCharCode <$> data in
  b ← btoa binary;
  mret (strip_trailing_eq (replace_all 47 [95] (replace_all 43 [45] b))).

(** [while (base64.length % 4) base64 += '='].  The loop runs at most three
    times, which is the fuel given to it by [base64Decode]. *)
Fixpoint pad_loop (fuel : nat) (base64 : jsstring) : jsstring :=
  match fuel with
  | O => base64
  | S fuel' =>
      if N.of_nat (length base64) mod 4 =? 0 then base64
      else pad_loop fuel' (base64 ++ [61])
  end.

Definition base64Decode (str : jsstring) : Result jsstring :=
  let base64 := replace_all 95 [47] (replace_all 45 [43] str) in
  let base64 := pad_loop 3 base64 in
  binary ← atob base64;
  let bytes := Uint8_store <$> binary in
  mret (TextDecoder_decode bytes).

Record MimeOptions := {
  mime_to : option jsstring;
  mime_subject : option jsstring;
  mime_body : option jsstring;
  mime_from : option jsstring;
  mime_inReplyTo : option jsstring;
  mime_references : option jsstring;
}.

(** The header lines and the message text of [createMimeMessage], before the
    transport encoding.  (The [boundary] the function computes from the
    clock and a random number is not used by it.) *)
Definition mime_headers (o : MimeOptions) : list jsstring :=
  let headers :=
    [js "To: " ++ tpl (mime_to o);
     js "Subject: " ++ tpl (mime_subject o);
     js "MIME-Version: 1.0";
     js "Content-Type: text/plain; charset=UTF-8"] in
  let headers :=
    if truthy_opt (mime_from o)
    then (js "From: " ++ tpl (mime_from o)) :: headers else headers in
  let headers :=
    if truthy_opt (mime_inReplyTo o)
    then headers ++ [js "In-Reply-To: " ++ tpl (mime_inReplyTo o)]
    else headers in
  if truthy_opt (mime_references o)
  then headers ++ [js "References: " ++ tpl (mime_references o)]
  else headers.

Definition mime_text (o : MimeOptions) : jsstring :=
  join [13; 10] (mime_headers o) ++ [13; 10; 13; 10] ++ tpl (mime_body o).

Definition createMimeMessage (o : MimeOptions) : Result jsstring :=
  base64Encode (mime_text o).

(** A header of a payload, and a MIME part.  A part is a tree: it may carry
    nested [parts]. *)
Record Header := { h_name : jsstring; h_value : jsstring }.

Record PartBody := { data : option jsstring }.

Local Unset Elimination Schemes.
Inductive Part := mkPart {
  mimeType : option jsstring;
  part_headers : option (list Header);
  part_body : option PartBody;
  parts : option (list Part);
}.
Local Set Elimination Schemes.

Definition headerNames : list jsstring :=
  [js "From"; js "To"; js "Subject"; js "Date"; js "Message-ID";
   js "References"; js "In-Reply-To"].

(** [headerNames.includes(name)] *)
Definition includes (l : list jsstring) (x : jsstring) : bool :=
  bool_decide (x ∈ l).

Definition parseEmailHeaders (payload : Part) : gmap jsstring jsstring :=
  match part_headers payload with
  | Some hs =>
      foldl (λ headers header,
               if includes headerNames (h_name header)
               then <[toLowerCase (h_name header) := h_value header]> headers
               else headers)
            ∅ hs
  | None => ∅
  end.

Record EmailBody := { html : jsstring; plain : jsstring }.

(** What [processPayload] does with the part itself, before its subparts. *)
Definition process_own (part : Part) (result : EmailBody) : Result EmailBody :=
  match part_body part with
  | Some {| data := Some d |} =>
      if truthy d then
        decoded ← base64Decode d;
        if bool_decide (mimeType part = Some (js "text/html"))
        then mret {| html := decoded; plain := plain result |}
        else if bool_decide (mimeType part = Some (js "text/plain"))
        then mret {| html := html result; plain := decoded |}
        else mret result
      else mret result
  | _ => mret result
  end.

Fixpoint processPayload (part : Part) (result : EmailBody) : Result EmailBody :=
  match process_own part result with
  | Throw e => Throw e
  | Ok result =>
      match parts part with
      | Some ps =>
          (fix each (ps : list Part) (result : EmailBody) : Result EmailBody :=
             match ps with
             | [] => Ok result
             | subpart :: ps' =>
                 match processPayload subpart result with
                 | Ok result' => each ps' result'
                 | Throw e => Throw e
                 end
             end) ps result
      | None => Ok result
      end
  end.

(** The conversion of plain text to HTML at the end of [extractEmailBody]. *)
Definition plain_to_html (p : jsstring) : jsstring :=
  replace_all 10 (js "<br>")
    (replace_all 62 (js "&gt;")
       (replace_all 60 (js "&lt;")
          (replace_all 38 (js "&amp;") p))).

Definition extractEmailBody (payload : Part) : Result EmailBody :=
  result ← processPayload payload {| html := []; plain := [] |};
  if negb (truthy (html result)) && truthy (plain result)
  then mret {| html := plain_to_html (plain result); plain := plain result |}
  else mret result.

(** ** The provider's HTTP interface

    A JSON object of the provider is kept as the record of the fields the
    client reads from it; a field the object lacks reads as [undefined],
    here [None].  [{}] is [empty_object]. *)

Record MessageRef := { ref_id : option jsstring }.

Record ErrorInfo := { error_message : option jsstring }.

Record ApiObject := {
  api_messages : option (list MessageRef);
  api_nextPageToken : option jsstring;
  api_resultSizeEstimate : option N;
  api_id : option jsstring;
  api_threadId : option jsstring;
  api_labelIds : option (list jsstring);
  api_snippet : option jsstring;
  api_internalDate : option jsstring;
  api_payload : option Part;
  api_emailAddress : option jsstring;
  api_error : option ErrorInfo;
}.

Definition empty_object : ApiObject :=
  {| api_messages := None; api_nextPageToken := None;
     api_resultSizeEstimate := None; api_id := None; api_threadId := None;
     api_labelIds := None; api_snippet := None; api_internalDate := None;
     api_payload := None; api_emailAddress := None; api_error := None |}.

Definition empty_part : Part :=
  {| mimeType := None; part_headers := None; part_body := None;
     parts := None |}.

(** A JSON value as the client meets it: [null], or an object.  A value
    that is neither (a number, a string, a boolean, an array) has none of
    the keys the client reads, and is kept as an object without them. *)
Inductive Json :=
| JNull
| JObject (o : ApiObject).

(** A property read [value.key]: on [null] it throws. *)
Definition as_object (j : Json) : Result ApiObject :=
  match j with
  | JObject o => Ok o
  | JNull => Throw TypeError
  end.

(** The body of a response: no text at all, text that is not JSON, the JSON
    value [null], or the JSON object it holds. *)
Inductive Body :=
| EmptyBody
| Unparsable
| JsonNull
| JsonBody (o : ApiObject).

Record Response := { status : N; body : Body }.

(** [response.ok] *)
Definition ok (r : Response) : bool := (200 <=? status r) && (status r <=? 299).

(** [await response.json().catch(() => ({}))] *)
Definition json_or_empty (r : Response) : Json :=
  match body r with
  | JsonBody o => JObject o
  | JsonNull => JNull
  | EmptyBody | Unparsable => JObject empty_object
  end.

(** The object handed to [JSON.stringify] for the body of a request. *)
Inductive RequestBody :=
| SendBody (raw : jsstring) (threadId : option jsstring)
| ModifyBody (addLabelIds removeLabelIds : list jsstring).

Record RequestOptions := {
  opt_method : option jsstring;
  opt_body : option RequestBody;
}.

Definition no_options : RequestOptions :=
  {| opt_method := None; opt_body := None |}.

Record Request := {
  req_url : jsstring;
  req_method : option jsstring;
  req_headers : list (jsstring * jsstring);
  req_body : option RequestBody;
}.

Inductive FetchOutcome :=
| FetchRejected
| FetchResponse (r : Response).

(** [URLSearchParams]: [set] and the form-urlencoded [toString]. *)
Fixpoint params_set (k v : jsstring) (ps : list (jsstring * jsstring))
  : list (jsstring * jsstring) :=
  match ps with
  | [] => [(k, v)]
  | (k', v') :: r =>
      if bool_decide (k' = k)
      then (k, v) :: filter (λ p, p.1 ≠ k) r
      else (k', v') :: params_set k v r
  end.

Definition hex_digit (n : N) : N := if n <? 10 then 48 + n else 55 + n.

Definition urlencode_byte (b : N) : jsstring :=
  if b =? 32 then [43]
  else if ((48 <=? b) && (b <=? 57)) || ((65 <=? b) && (b <=? 90))
          || ((97 <=? b) && (b <=? 122))
          || (b =? 42) || (b =? 45) || (b =? 46) || (b =? 95)
  then [b]
  else [37; hex_digit (b / 16); hex_digit (b mod 16)].

Definition urlencode (s : jsstring) : jsstring :=
  flat_map urlencode_byte (TextEncoder_encode s).

Definition params_toString (ps : list (jsstring * jsstring)) : jsstring :=
  join [38] ((λ p, urlencode p.1 ++ [61] ++ urlencode p.2) <$> ps).

(** ** The normalized message *)

Record Sender := { sender_name : jsstring; sender_email : jsstring }.

Record Message := {
  msg_id : option jsstring;
  msg_threadId : option jsstring;
  msg_labelIds : list jsstring;
  msg_snippet : option jsstring;
  msg_internalDate : option jsstring;
  msg_headers : gmap jsstring jsstring;
  msg_sender : Sender;
  isUnread : option bool;
  isStarred : option bool;
  isInbox : option bool;
  msg_body : option EmailBody;
}.

(** [parsed.body = b] *)
Definition set_body (b : EmailBody) (m : Message) : Message :=
  {| msg_id := msg_id m; msg_threadId := msg_threadId m;
     msg_labelIds := msg_labelIds m; msg_snippet := msg_snippet m;
     msg_internalDate := msg_internalDate m; msg_headers := msg_headers m;
     msg_sender := msg_sender m; isUnread := isUnread m;
     isStarred := isStarred m; isInbox := isInbox m; msg_body := Some b |}.

Record ListOptions := {
  filter_name : option jsstring;
  maxResults : option Whole;
  pageToken : option jsstring;
  q : option jsstring;
}.

Record ListResult := {
  messages : list Message;
  nextPageToken : option jsstring;
  resultSizeEstimate : option N;
}.

Record SendOptions := {
  send_to : option jsstring;
  send_subject : option jsstring;
  send_body : option jsstring;
  send_threadId : option jsstring;
  send_inReplyTo : option jsstring;
  send_references : option jsstring;
}.

(** ** The process state

    The API client's token, the poller's set of message ids, and the
    platform services the code talks to: the identity cache, the settings
    store, the HTTP requests issued so far and the notifications created so
    far.  The network and the identity service can fail, as the code
    provides for; the settings store and the notification service are local
    and are taken to answer. *)

Record Settings := {
  theme : option jsstring;
  refreshInterval : option N;
  notificationsEnabled : option bool;
}.

Record Notification := {
  notificationId : jsstring;
  notif_title : jsstring;
  notif_message : jsstring;
}.

Record World := {
  accessToken : option jsstring;
  lastKnownMessageIds : gset (option jsstring);
  identity_cache : option jsstring;
  storage : Settings;
  http_log : list Request;
  notifications : list Notification;
}.

Definition with_accessToken (t : option jsstring) (w : World) : World :=
  {| accessToken := t; lastKnownMessageIds := lastKnownMessageIds w;
     identity_cache := identity_cache w; storage := storage w;
     http_log := http_log w; notifications := notifications w |}.

Definition with_lastKnownMessageIds (s : gset (option jsstring)) (w : World)
  : World :=
  {| accessToken := accessToken w; lastKnownMessageIds := s;
     identity_cache := identity_cache w; storage := storage w;
     http_log := http_log w; notifications := notifications w |}.

Definition with_identity_cache (t : option jsstring) (w : World) : World :=
  {| accessToken := accessToken w;
     lastKnownMessageIds := lastKnownMessageIds w;
     identity_cache := t; storage := storage w;
     http_log := http_log w; notifications := notifications w |}.

Definition with_http_log (l : list Request) (w : World) : World :=
  {| accessToken := accessToken w;
     lastKnownMessageIds := lastKnownMessageIds w;
     identity_cache := identity_cache w; storage := storage w;
     http_log := l; notifications := notifications w |}.

Definition with_notifications (l : list Notification) (w : World) : World :=
  {| accessToken := accessToken w;
     lastKnownMessageIds := lastKnownMessageIds w;
     identity_cache := identity_cache w; storage := storage w;
     http_log := http_log w; notifications := l |}.

(** Asynchronous code: a computation on the process state that returns or
    throws.  A thrown exception keeps the state reached so far. *)
Definition M (A : Type) : Type := World → Result A * World.

Global Instance M_ret : MRet M := λ A a w, (Ok a, w).
Global Instance M_bind : MBind M := λ A B f m w,
  match m w with
  | (Ok a, w') => f a w'
  | (Throw e, w') => (Throw e, w')
  end.

Global Instance M_fmap : FMap M := λ A B f m w,
  match m w with
  | (Ok a, w') => (Ok (f a), w')
  | (Throw e, w') => (Throw e, w')
  end.

Definition throw {A} (e : Exn) : M A := λ w, (Throw e, w).
Definition gets {A} (f : World → A) : M A := λ w, (Ok (f w), w).
Definition modify (f : World → World) : M unit := λ w, (Ok tt, f w).
Definition lift {A} (r : Result A) : M A := λ w, (r, w).

(** [try { m } catch (e) { h(e) }] *)
Definition try_catch {A} (m : M A) (h : Exn → M A) : M A := λ w,
  match m w with
  | (Ok a, w') => (Ok a, w')
  | (Throw e, w') => h e w'
  end.

(** A started asynchronous call seen as a promise: the call runs and its
    outcome, fulfilled or rejected, is kept as a value. *)
Definition settle {A} (m : M A) : M (Result A) := λ w,
  let '(r, w') := m w in (Ok r, w').

(** [array.map(x => asyncCall(x))]: every call is started, in order,
    whatever the outcome of the ones before. *)
Fixpoint settle_all {A} (ms : list (M A)) : M (list (Result A)) :=
  match ms with
  | [] => mret []
  | m :: ms' =>
      r ← settle m;
      rs ← settle_all ms';
      mret (r :: rs)
  end.

Definition rejections {A} (rs : list (Result A)) : list Exn :=
  omap (λ r, match r with Throw e => Some e | Ok _ => None end) rs.

Definition fulfilled {A} (rs : list (Result A)) : list A :=
  omap (λ r, match r with Ok a => Some a | Throw _ => None end) rs.

(** [Promise.all]: fulfilled with all the values, in the order of the
    promises, when every promise is fulfilled; rejected otherwise, with the
    reason of the promise that was rejected first in time.  Which one that
    is depends on the network; [race] picks it among the rejections. *)
Definition Promise_all {A} (race : list Exn → nat) (rs : list (Result A))
  : Result (list A) :=
  match rejections rs with
  | [] => Ok (fulfilled rs)
  | e :: es => Throw (nth (race (e :: es)) (e :: es) e)
  end.

Section Client.

(** The remote provider answers a request given the requests issued before
    it; [race] settles [Promise.all]; [parseSender] is the parser of the
    [From] header of [api/utils.js], which no property below looks into. *)
Variable server : list Request → Request → FetchOutcome.
Variable race : list Exn → nat.
Variable parseSender : option jsstring → Sender.

(** ** api/gmail.js *)

Definition GMAIL_API_BASE : jsstring :=
  js "https://gmail.googleapis.com/gmail/v1/users/me".

Definition setAccessToken (token : option jsstring) : M unit :=
  modify (with_accessToken token).

(** The global [fetch]: the request is issued, then answered or rejected. *)
Definition fetch (req : Request) : M Response := λ w,
  let w' := with_http_log (http_log w ++ [req]) w in
  match server (http_log w) req with
  | FetchResponse r => (Ok r, w')
  | FetchRejected => (Throw NetworkError, w')
  end.

Definition AUTH_EXPIRED : Exn := JsError (js "AUTH_EXPIRED").

Definition api_error_message (error : ApiObject) (r : Response) : jsstring :=
  or_else (e ← api_error error; error_message e)
          (js "API Error: " ++ number_toString (status r)).

Definition request (endpoint : jsstring) (options : RequestOptions)
  : M Json :=
  token ← gets accessToken;
  if negb (truthy_opt token) then
    throw (JsError (js "No access token available. Please sign in."))
  else
    let url := GMAIL_API_BASE ++ endpoint in
    let headers :=
      [(js "Authorization", js "Bearer " ++ tpl token);
       (js "Content-Type", js "application/json")] in
    response ← fetch {| req_url := url; req_method := opt_method options;
                        req_headers := headers;
                        req_body := opt_body options |};
    if negb (ok response) then
      let error := json_or_empty response in
      if status response =? 401 then throw AUTH_EXPIRED
      else
        error ← lift (as_object error);
        throw (JsError (api_error_message error response))
    else
      match body response with
      | EmptyBody => mret (JObject empty_object)
      | Unparsable => throw SyntaxError
      | JsonNull => mret JNull
      | JsonBody o => mret (JObject o)
      end.

Definition getProfile : M Json := request (js "/profile") no_options.

(** [labelIds?.includes(label)] *)
Definition has_label (labelIds : option (list jsstring)) (label : jsstring)
  : option bool :=
  l ← labelIds; Some (includes l label).

Definition getMessage (id : option jsstring) (format : option jsstring)
  : M Message :=
  let format := default (js "full") format in
  let params := [(js "format", format)] in
  response ← request (js "/messages/" ++ tpl id ++ js "?"
                        ++ params_toString params) no_options;
  response ← lift (as_object response);
  let headers := parseEmailHeaders (default empty_part (api_payload response)) in
  let sender := parseSender (headers !! js "from") in
  let parsed :=
    {| msg_id := api_id response;
       msg_threadId := api_threadId response;
       msg_labelIds := default [] (api_labelIds response);
       msg_snippet := api_snippet response;
       msg_internalDate := api_internalDate response;
       msg_headers := headers;
       msg_sender := sender;
       isUnread := has_label (api_labelIds response) (js "UNREAD");
       isStarred := has_label (api_labelIds response) (js "STARRED");
       isInbox := has_label (api_labelIds response) (js "INBOX");
       msg_body := None |} in
  match api_payload response with
  | Some payload =>
      if bool_decide (format = js "full") then
        b ← lift (extractEmailBody payload);
        mret (set_body b parsed)
      else mret parsed
  | None => mret parsed
  end.

(** The query parameters of the list call. *)
Definition list_params (o : ListOptions) : list (jsstring * jsstring) :=
  let filter := default (js "inbox") (filter_name o) in
  let maxResults := default 20 (whole_value <$> maxResults o) in
  let params := params_set (js "maxResults") (number_toString maxResults) [] in
  let params :=
    if truthy_opt (pageToken o)
    then params_set (js "pageToken") (tpl (pageToken o)) params
    else params in
  let query := or_else (q o) [] in
  let '(params, query) :=
    if bool_decide (filter = js "inbox") then
      (params_set (js "labelIds") (js "INBOX") params, query)
    else if bool_decide (filter = js "unread") then
      (params_set (js "labelIds") (js "INBOX") params,
       js "is:unread " ++ query)
    else if bool_decide (filter = js "starred") then
      (params_set (js "labelIds") (js "STARRED") params, query)
    else if bool_decide (filter = js "sent") then
      (params_set (js "labelIds") (js "SENT") params, query)
    else (params_set (js "labelIds") (js "INBOX") params, query) in
  if truthy (trim query)
  then params_set (js "q") (trim query) params
  else params.

Definition listMessages (o : ListOptions) : M ListResult :=
  response ← request (js "/messages?" ++ params_toString (list_params o))
                     no_options;
  response ← lift (as_object response);
  let messages := default [] (api_messages response) in
  settled ← settle_all
    ((λ msg, getMessage (ref_id msg) (Some (js "metadata"))) <$> messages);
  detailedMessages ← lift (Promise_all race settled);
  mret {| messages := detailedMessages;
          nextPageToken := api_nextPageToken response;
          resultSizeEstimate := api_resultSizeEstimate response |}.

Definition sendMessage (o : SendOptions) : M Json :=
  raw ← lift (createMimeMessage
                {| mime_to := send_to o; mime_subject := send_subject o;
                   mime_body := send_body o; mime_from := None;
                   mime_inReplyTo := send_inReplyTo o;
                   mime_references := send_references o |});
  let payload :=
    SendBody raw (if truthy_opt (send_threadId o) then send_threadId o
                  else None) in
  request (js "/messages/send")
          {| opt_method := Some (js "POST"); opt_body := Some payload |}.

(** The options [replyToMessage] hands to [sendMessage]. *)
Definition reply_options (original : Message) (body : option jsstring)
  : SendOptions :=
  let h := msg_headers original in
  let subject :=
    if default false (startsWith (js "Re:") <$> h !! js "subject")
    then tpl (h !! js "subject")
    else js "Re: " ++ or_else (h !! js "subject") [] in
  let to := h !! js "from" in
  {| send_to := to;
     send_subject := Some subject;
     send_body := body;
     send_threadId := msg_threadId original;
     send_inReplyTo := h !! js "message-id";
     send_references :=
       if truthy_opt (h !! js "references")
       then Some (tpl (h !! js "references") ++ js " "
                    ++ tpl (h !! js "message-id"))
       else h !! js "message-id" |}.

Definition replyToMessage (messageId : option jsstring)
    (body : option jsstring) : M Json :=
  original ← getMessage messageId (Some (js "full"));
  sendMessage (reply_options original body).

Definition forwardMessage (messageId : option jsstring)
    (to : option jsstring) (additionalBody : option jsstring) : M Json :=
  let additionalBody := default [] additionalBody in
  original ← getMessage messageId (Some (js "full"));
  let h := msg_headers original in
  let subject :=
    if default false (startsWith (js "Fwd:") <$> h !! js "subject")
    then tpl (h !! js "subject")
    else js "Fwd: " ++ or_else (h !! js "subject") [] in
  let originalBody :=
    or_else (plain <$> msg_body original) (or_else (msg_snippet original) []) in
  let forwardedContent :=
    trim ([10] ++ additionalBody ++ [10; 10]
          ++ js "---------- Forwarded message ---------" ++ [10]
          ++ js "From: " ++ tpl (h !! js "from") ++ [10]
          ++ js "Date: " ++ tpl (h !! js "date") ++ [10]
          ++ js "Subject: " ++ tpl (h !! js "subject") ++ [10]
          ++ js "To: " ++ tpl (h !! js "to") ++ [10; 10]
          ++ originalBody ++ [10] ++ js "    ") in
  sendMessage {| send_to := to; send_subject := Some subject;
                 send_body := Some forwardedContent; send_threadId := None;
                 send_inReplyTo := None; send_references := None |}.

Definition trashMessage (id : option jsstring) : M Json :=
  request (js "/messages/" ++ tpl id ++ js "/trash")
          {| opt_method := Some (js "POST"); opt_body := None |}.

Definition deleteMessage (id : option jsstring) : M Json :=
  request (js "/messages/" ++ tpl id)
          {| opt_method := Some (js "DELETE"); opt_body := None |}.

Definition modifyLabels (id : option jsstring)
    (addLabelIds removeLabelIds : list jsstring) : M Json :=
  request (js "/messages/" ++ tpl id ++ js "/modify")
          {| opt_method := Some (js "POST");
             opt_body := Some (ModifyBody addLabelIds removeLabelIds) |}.

Definition markAsRead (id : option jsstring) : M Json :=
  modifyLabels id [] [js "UNREAD"].

Definition markAsUnread (id : option jsstring) : M Json :=
  modifyLabels id [js "UNREAD"] [].

Definition starMessage (id : option jsstring) : M Json :=
  modifyLabels id [js "STARRED"] [].

Definition unstarMessage (id : option jsstring) : M Json :=
  modifyLabels id [] [js "STARRED"].

Definition toggleStar (id : option jsstring) (isCurrentlyStarred : bool)
  : M Json :=
  if isCurrentlyStarred then unstarMessage id else starMessage id.

(** The methods of the client as one type, and a call of one of them; they
    serve to state what holds of every operation. *)
Inductive Operation :=
| OpRequest (endpoint : jsstring) (options : RequestOptions)
| OpGetProfile
| OpListMessages (o : ListOptions)
| OpGetMessage (id format : option jsstring)
| OpSendMessage (o : SendOptions)
| OpReplyToMessage (messageId body : option jsstring)
| OpForwardMessage (messageId to additionalBody : option jsstring)
| OpTrashMessage (id : option jsstring)
| OpDeleteMessage (id : option jsstring)
| OpModifyLabels (id : option jsstring) (addLabelIds removeLabelIds : list jsstring)
| OpMarkAsRead (id : option jsstring)
| OpMarkAsUnread (id : option jsstring)
| OpStarMessage (id : option jsstring)
| OpUnstarMessage (id : option jsstring)
| OpToggleStar (id : option jsstring) (isCurrentlyStarred : bool).

Inductive Reply :=
| ReplyObject (o : Json)
| ReplyMessage (m : Message)
| ReplyList (l : ListResult).

Definition perform (op : Operation) : M Reply :=
  match op with
  | OpRequest endpoint options => ReplyObject <$> request endpoint options
  | OpGetProfile => ReplyObject <$> getProfile
  | OpListMessages o => ReplyList <$> listMessages o
  | OpGetMessage id format => ReplyMessage <$> getMessage id format
  | OpSendMessage o => ReplyObject <$> sendMessage o
  | OpReplyToMessage messageId body =>
      ReplyObject <$> replyToMessage messageId body
  | OpForwardMessage messageId to additionalBody =>
      ReplyObject <$> forwardMessage messageId to additionalBody
  | OpTrashMessage id => ReplyObject <$> trashMessage id
  | OpDeleteMessage id => ReplyObject <$> deleteMessage id
  | OpModifyLabels id a r => ReplyObject <$> modifyLabels id a r
  | OpMarkAsRead id => ReplyObject <$> markAsRead id
  | OpMarkAsUnread id => ReplyObject <$> markAsUnread id
  | OpStarMessage id => ReplyObject <$> starMessage id
  | OpUnstarMessage id => ReplyObject <$> unstarMessage id
  | OpToggleStar id b => ReplyObject <$> toggleStar id b
  end.

(** ** The background service worker *)

Definition NOTIFICATION_ID_PREFIX : jsstring := js "exmail-new-".

(** [chrome.identity.getAuthToken({interactive: false}, callback)]: the
    callback receives the cached token; without one the token is
    [undefined] and [chrome.runtime.lastError] is set. *)
Definition getAuthToken_silent : M (option jsstring) := gets identity_cache.

Definition authenticateSilently : M (option jsstring) :=
  cached ← getAuthToken_silent;
  match cached with
  | None => mret None            (* lastError: rejected, caught and logged *)
  | Some token =>
      if truthy token then
        _ ← setAccessToken (Some token);
        mret (Some token)
      else mret None
  end.

Definition revoke_request (token : jsstring) : Request :=
  {| req_url := js "https://accounts.google.com/o/oauth2/revoke?token=" ++ token;
     req_method := None; req_headers := []; req_body := None |}.

(** [chrome.identity.removeCachedAuthToken({token}, callback)] *)
Definition removeCachedAuthToken (token : jsstring) : M unit :=
  modify (λ w, if bool_decide (identity_cache w = Some token)
               then with_identity_cache None w else w).

Definition signOut : M unit :=
  cached ← getAuthToken_silent;
  if truthy_opt cached then
    let token := tpl cached in
    _ ← try_catch (_ ← fetch (revoke_request token); mret tt)
                  (λ _, mret tt);
    _ ← removeCachedAuthToken token;
    _ ← setAccessToken None;
    modify (with_lastKnownMessageIds ∅)
  else
    setAccessToken None.

Definition notification_for (message : Message) : Notification :=
  {| notificationId := NOTIFICATION_ID_PREFIX ++ tpl (msg_id message);
     notif_title :=
       or_else (Some (sender_name (msg_sender message))) (js "New Email");
     notif_message :=
       or_else (msg_headers message !! js "subject")
         (or_else (msg_snippet message) (js "You have a new email")) |}.

(** [chrome.notifications.create(notificationId, options)] *)
Definition showNotification (message : Message) : M unit :=
  modify (λ w, with_notifications
                 (notifications w ++ [notification_for message]) w).

(** The [for (const message of messages)] loop of [checkForNewEmails]. *)
Fixpoint notify_new (messages : list Message) : M unit :=
  match messages with
  | [] => mret tt
  | message :: rest =>
      known ← gets lastKnownMessageIds;
      _ ← (if bool_decide (msg_id message ∈ known) then mret tt
           else showNotification message);
      notify_new rest
  end.

Definition unread_options : ListOptions :=
  {| filter_name := Some (js "unread");
     maxResults := Some {| whole_value := 10; whole_small := I |};
     pageToken := None; q := None |}.

Definition checkForNewEmails : M unit :=
  try_catch
    (token ← authenticateSilently;
     if negb (truthy_opt token) then mret tt
     else
       settings ← gets storage;
       if bool_decide (notificationsEnabled settings = Some false)
       then mret tt
       else
         r ← listMessages unread_options;
         let currentIds : gset (option jsstring) :=
           list_to_set (msg_id <$> messages r) in
         known ← gets lastKnownMessageIds;
         _ ← (if (0 <? size known)%nat then notify_new (messages r)
              else mret tt);
         modify (with_lastKnownMessageIds currentIds))
    (λ _, mret tt).

End Client.

(** ** Vocabulary of the properties *)

(** A string is well-formed UTF-16 when every code unit fits 16 bits and
    every surrogate is one half of a high-low pair. *)
Fixpoint well_formed (s : jsstring) : bool :=
  match s with
  | [] => true
  | u :: r =>
      if is_high_surrogate u then
        match r with
        | v :: r' => is_low_surrogate v && well_formed r'
        | [] => false
        end
      else if is_low_surrogate u then false
      else (u <? 65536) && well_formed r
  end.

(** A Unicode scalar value: a code point that is not a surrogate. *)
Definition is_scalar (c : N) : Prop :=
  c < 1114112 ∧ ¬ (55296 ≤ c ≤ 57343).

(** The sextets of a byte sequence, before they are written as characters
    and padded. *)
Fixpoint sextets (bs : list N) : list N :=
  match bs with
  | [] => []
  | [a] => [a / 4; a mod 4 * 16]
  | [a; b] => [a / 4; a mod 4 * 16 + b / 16; b mod 16 * 4]
  | a :: b :: c :: r =>
      a / 4 :: a mod 4 * 16 + b / 16 :: b mod 16 * 4 + c / 64 :: c mod 64
      :: sextets r
  end.

(** The parts of a payload in the order [processPayload] visits them:
    depth first, a part before its subparts. *)
Fixpoint walk (p : Part) : list Part :=
  p :: match p with
       | mkPart _ _ _ (Some ps) => flat_map walk ps
       | mkPart _ _ _ None => []
       end.

(** [process_own] over a sequence of parts, stopping at the first throw. *)
Fixpoint process_all (ps : list Part) (result : EmailBody) : Result EmailBody :=
  match ps with
  | [] => Ok result
  | p :: ps' => result' ← process_own p result; process_all ps' result'
  end.

(** The body data of a part that [processPayload] hands to the decoder. *)
Definition decoded_data (p : Part) : option jsstring :=
  match part_body p with
  | Some {| data := Some d |} => if truthy d then Some d else None
  | _ => None
  end.

(** The part carries data the decoder rejects. *)
Definition undecodable (p : Part) : bool :=
  match decoded_data p with
  | Some d => negb (is_ok (base64Decode d))
  | None => false
  end.

(** The part is one that assigns [result.html]. *)
Definition sets_html (p : Part) : bool :=
  match decoded_data p with
  | Some _ => bool_decide (mimeType p = Some (js "text/html"))
  | None => false
  end.

(** What the conversion to HTML writes for one character of plain text. *)
Definition escape_unit (u : N) : jsstring :=
  if u =? 38 then js "&amp;"
  else if u =? 60 then js "&lt;"
  else if u =? 62 then js "&gt;"
  else if u =? 10 then js "<br>"
  else [u].

(** The request that [request] hands to [fetch]. *)
Definition api_request (token : option jsstring) (endpoint : jsstring)
    (options : RequestOptions) : Request :=
  {| req_url := GMAIL_API_BASE ++ endpoint;
     req_method := opt_method options;
     req_headers := [(js "Authorization", js "Bearer " ++ tpl token);
                     (js "Content-Type", js "application/json")];
     req_body := opt_body options |}.

(** What [request] makes of the answer to its fetch. *)
Definition response_outcome (r : Response) : Result Json :=
  if negb (ok r) then
    if status r =? 401 then Throw AUTH_EXPIRED
    else
      match json_or_empty r with
      | JNull => Throw TypeError
      | JObject error => Throw (JsError (api_error_message error r))
      end
  else
    match body r with
    | EmptyBody => Ok (JObject empty_object)
    | Unparsable => Throw SyntaxError
    | JsonNull => Ok JNull
    | JsonBody o => Ok (JObject o)
    end.

Definition fetch_outcome (f : FetchOutcome) : Result Json :=
  match f with
  | FetchRejected => Throw NetworkError
  | FetchResponse r => response_outcome r
  end.

(** The message of the provider's error body, when the body is a JSON
    object that carries one and it is not the empty string. *)
Definition provider_message (r : Response) : option jsstring :=
  match body r with
  | JsonBody o =>
      e ← api_error o; m ← error_message e;
      if truthy m then Some m else None
  | _ => None
  end.

(** The policy for a response that is not 2xx, in the words of its
    description: the distinguished error for status 401, whatever the body;
    otherwise an error with the message of the provider's error body when
    there is one, else "API Error: <status>". *)
Definition policy_error (r : Response) : Exn :=
  if status r =? 401 then AUTH_EXPIRED
  else JsError match provider_message r with
               | Some message => message
               | None => js "API Error: " ++ number_toString (status r)
               end.

(** The failed responses the policy is stated for: not 2xx, with a status
    of 16 bits, as that of a response is, and with status 401 or a body
    other than the JSON value [null]. *)
Definition policy_covers (r : Response) : Prop :=
  ok r = false ∧ status r < 65536
  ∧ (status r = 401 ∨ body r ≠ JsonNull).

(** The answer of the provider to the [i]-th of the requests [reqs] that
    were issued after the requests [log]. *)
Definition answer_to (server : list Request → Request → FetchOutcome)
    (log reqs : list Request) (i : nat) : option FetchOutcome :=
  req ← reqs !! i; Some (server (log ++ take i reqs) req).

(** The error with which a detail fetch of [listMessages] fails on an
    answer, if it does. *)
Definition detail_error (f : FetchOutcome) : option Exn :=
  match fetch_outcome f with
  | Throw e => Some e
  | Ok JNull => Some TypeError
  | Ok (JObject _) => None
  end.

(** A computation that stops at the first request to which the provider
    answers with a failed response, and throws the error of the policy. *)
Definition stops_at_failure (server : list Request → Request → FetchOutcome)
    {A} (m : M A) : Prop :=
  ∀ w, ∃ reqs,
    http_log (m w).2 = http_log w ++ reqs
    ∧ ∀ i r, answer_to server (http_log w) reqs i = Some (FetchResponse r) →
             policy_covers r →
             (m w).1 = Throw (policy_error r) ∧ length reqs = S i.

(** The request [getMessage] issues for an id, with the client's token. *)
Definition detail_request (token : option jsstring) (format : jsstring)
    (id : option jsstring) : Request :=
  api_request token (js "/messages/" ++ tpl id ++ js "?format=" ++ format)
              no_options.

(** The outcomes of the detail fetches of [listMessages] for a list of ids,
    started from the state [w]: the fetch of the [i]-th id is issued when
    the [i] fetches before it have been. *)
Definition detail_outcomes (server : list Request → Request → FetchOutcome)
    (parseSender : option jsstring → Sender) (token : option jsstring)
    (w : World) (ids : list (option jsstring)) : list (Result Message) :=
  imap (λ i id,
          (getMessage server parseSender id (Some (js "metadata"))
             (with_http_log
                (http_log w
                   ++ (detail_request token (js "metadata") <$> take i ids))
                w)).1)
       ids.

(** Two states that differ at most in the log of HTTP requests; a
    computation that only issues HTTP requests. *)
Definition same_but_log (w w' : World) : Prop :=
  w' = with_http_log (http_log w') w.

Definition only_logs {A} (m : M A) : Prop := ∀ w, same_but_log w (m w).2.

(** The header names of the output mapping, and the headers that
    [parseEmailHeaders] stores under a key. *)
Definition allowed_keys : list jsstring :=
  [js "from"; js "to"; js "subject"; js "date"; js "message-id";
   js "references"; js "in-reply-to"].

Definition stored_under (key : jsstring) (header : Header) : Prop :=
  h_name header ∈ headerNames ∧ toLowerCase (h_name header) = key.

Global Instance stored_under_dec key header : Decision (stored_under key header).
Proof. unfold stored_under. apply _. Defined.

Definition parse_step (headers : gmap jsstring jsstring) (header : Header)
  : gmap jsstring jsstring :=
  if includes headerNames (h_name header)
  then <[toLowerCase (h_name header) := h_value header]> headers
  else headers.

(** A byte sequence, its base64 characters without the padding, and the
    padding that completes them. *)
Definition bytes (bs : list N) : Prop := Forall (λ b, b < 256) bs.

Definition b64_chars (bs : list N) : jsstring := b64_char <$> sextets bs.

Fixpoint b64_padding (bs : list N) : jsstring :=
  match bs with
  | [] => []
  | [_] => [61; 61]
  | [_; _] => [61]
  | _ :: _ :: _ :: r => b64_padding r
  end.

(** The two substitutions of [base64Encode] and of [base64Decode]. *)
Definition to_url (s : jsstring) : jsstring :=
  replace_all 47 [95] (replace_all 43 [45] s).

Definition from_url (s : jsstring) : jsstring :=
  replace_all 95 [47] (replace_all 45 [43] s).

(** The strings of a message to send are strings of code units. *)
Definition sendable (op : Operation) : Prop :=
  match op with
  | OpSendMessage o =>
      code_units (mime_text {| mime_to := send_to o;
                               mime_subject := send_subject o;
                               mime_body := send_body o; mime_from := None;
                               mime_inReplyTo := send_inReplyTo o;
                               mime_references := send_references o |})
  | _ => True
  end.

(** The value of the header that a message of the provider carries under
    exactly the name [name]; the last one when there are several. *)
Definition original_header (name : jsstring) (response : ApiObject)
  : option jsstring :=
  last (h_value
          <$> filter (λ h, h_name h = name)
                     (default [] (api_payload response ≫= part_headers))).

(** The reply, in the words of its description: the subject of the original
    with "Re: " before it unless it starts with "Re:"; the references of
    the original followed by its message id, or the message id alone when
    there are none; and the text of the message: the recipient, that
    subject, the two fixed lines, the message id as [In-Reply-To], those
    references, a blank line and the body. *)
Definition reply_subject (subject : option jsstring) : jsstring :=
  match subject with
  | Some s => if startsWith (js "Re:") s then s else js "Re: " ++ s
  | None => js "Re: "
  end.

Definition reply_references (references : option jsstring)
    (messageId : jsstring) : jsstring :=
  match references with
  | Some r => if truthy r then r ++ js " " ++ messageId else messageId
  | None => messageId
  end.

Definition reply_text (to : jsstring) (subject : option jsstring)
    (messageId : jsstring) (references : option jsstring) (body : jsstring)
  : jsstring :=
  js "To: " ++ to ++ [13; 10]
  ++ js "Subject: " ++ reply_subject subject ++ [13; 10]
  ++ js "MIME-Version: 1.0" ++ [13; 10]
  ++ js "Content-Type: text/plain; charset=UTF-8" ++ [13; 10]
  ++ js "In-Reply-To: " ++ messageId ++ [13; 10]
  ++ js "References: " ++ reply_references references messageId
  ++ [13; 10; 13; 10] ++ body.

(** The thread a reply joins: that of the original, when it has one. *)
Definition reply_thread (response : ApiObject) : option jsstring :=
  match api_threadId response with
  | Some t => if truthy t then Some t else None
  | None => None
  end.

(** The state in which the poller calls [listMessages]: the token of the
    identity cache has been handed to the client. *)
Definition polling_state (w : World) : World :=
  with_accessToken (identity_cache w) w.

(** The poll cycle returns before it has fetched, or its fetch throws. *)
Definition exits_early (server : list Request → Request → FetchOutcome)
    (race : list Exn → nat) (parseSender : option jsstring → Sender)
    (w : World) : bool :=
  negb (truthy_opt (identity_cache w))
  || bool_decide (notificationsEnabled (storage w) = Some false)
  || negb (is_ok (listMessages server race parseSender unread_options
                    (polling_state w)).1).

(** ** A provider and a process state for the examples

    The provider lists the messages [a], [b], [c] in the inbox and [a], [c]
    as unread, has the details of [a] and [c], fails on the details of [b],
    and accepts what is sent. *)
Definition example_message (id : jsstring) : ApiObject :=
  {| api_messages := None; api_nextPageToken := None;
     api_resultSizeEstimate := None;
     api_id := Some id; api_threadId := Some (js "thread-1");
     api_labelIds := Some [js "INBOX"; js "UNREAD"];
     api_snippet := Some (js "See you at noon");
     api_internalDate := Some (js "1700000000000");
     api_payload :=
       Some (mkPart (Some (js "text/plain"))
               (Some [ {| h_name := js "From"; h_value := js "jane@x.com" |};
                       {| h_name := js "Subject"; h_value := js "Lunch" |};
                       {| h_name := js "Message-ID"; h_value := js "<2@x.com>" |};
                       {| h_name := js "References"; h_value := js "<1@x.com>" |};
                       {| h_name := js "X-Mailer"; h_value := js "mutt" |} ])
               (Some {| data := Some (js "U2VlIHlvdSBhdCBub29u") |}) None);
     api_emailAddress := None; api_error := None |}.

Definition example_list (ids : list jsstring) : ApiObject :=
  {| api_messages := Some ((λ id, {| ref_id := Some id |}) <$> ids);
     api_nextPageToken := None; api_resultSizeEstimate := Some 3;
     api_id := None; api_threadId := None; api_labelIds := None;
     api_snippet := None; api_internalDate := None; api_payload := None;
     api_emailAddress := None; api_error := None |}.

Definition example_error (message : jsstring) : ApiObject :=
  {| api_messages := None; api_nextPageToken := None;
     api_resultSizeEstimate := None; api_id := None; api_threadId := None;
     api_labelIds := None; api_snippet := None; api_internalDate := None;
     api_payload := None; api_emailAddress := None;
     api_error := Some {| error_message := Some message |} |}.

Definition requested (req : Request) (path : string) : bool :=
  bool_decide (req_url req = GMAIL_API_BASE ++ js path).

Definition example_server (history : list Request) (req : Request)
  : FetchOutcome :=
  if requested req "/messages?maxResults=20&labelIds=INBOX" then
    FetchResponse {| status := 200;
                     body := JsonBody (example_list [js "a"; js "b"; js "c"]) |}
  else if requested req "/messages?maxResults=10&labelIds=INBOX&q=is%3Aunread" then
    FetchResponse {| status := 200;
                     body := JsonBody (example_list [js "a"; js "c"]) |}
  else if requested req "/messages/a?format=metadata"
          || requested req "/messages/a?format=full" then
    FetchResponse {| status := 200; body := JsonBody (example_message (js "a")) |}
  else if requested req "/messages/c?format=metadata" then
    FetchResponse {| status := 200; body := JsonBody (example_message (js "c")) |}
  else if requested req "/messages/b?format=metadata" then
    FetchResponse {| status := 500;
                     body := JsonBody (example_error (js "Backend Error")) |}
  else if requested req "/messages/send" then
    FetchResponse {| status := 200;
                     body := JsonBody (example_message (js "sent")) |}
  else FetchResponse {| status := 404; body := Unparsable |}.

(** A provider that answers every request with the same response. *)
Definition constant_server (r : Response) (history : list Request)
    (req : Request) : FetchOutcome := FetchResponse r.

Definition example_race (rejected : list Exn) : nat := 0%nat.

Definition example_parseSender (from : option jsstring) : Sender :=
  {| sender_name := or_else from (js "Unknown");
     sender_email := or_else from [] |}.

Definition example_world : World :=
  {| accessToken := Some (js "token-1");
     lastKnownMessageIds := ∅;
     identity_cache := Some (js "token-1");
     storage := {| theme := None; refreshInterval := None;
                   notificationsEnabled := None |};
     http_log := [];
     notifications := [] |}.

(** A state in which message [a] has been seen, and one in which the
    identity cache is empty while the client still holds a token. *)
Definition example_world_seen : World :=
  with_lastKnownMessageIds {[ Some (js "a") ]} example_world.

Definition example_world_uncached : World :=
  with_identity_cache None example_world_seen.

Definition default_options : ListOptions :=
  {| filter_name := None; maxResults := None; pageToken := None; q := None |}.

(** A message whose message id comes under the name [Message-Id], and a
    provider that returns it for the id [v] and accepts what is sent. *)
Definition example_variant : ApiObject :=
  {| api_messages := None; api_nextPageToken := None;
     api_resultSizeEstimate := None;
     api_id := Some (js "v"); api_threadId := Some (js "thread-1");
     api_labelIds := Some [js "INBOX"];
     api_snippet := Some (js "See you at noon");
     api_internalDate := Some (js "1700000000000");
     api_payload :=
       Some (mkPart (Some (js "text/plain"))
               (Some [ {| h_name := js "From"; h_value := js "jane@x.com" |};
                       {| h_name := js "Subject"; h_value := js "Lunch" |};
                       {| h_name := js "Message-Id"; h_value := js "<2@x.com>" |};
                       {| h_name := js "References"; h_value := js "<1@x.com>" |} ])
               (Some {| data := Some (js "U2VlIHlvdSBhdCBub29u") |}) None);
     api_emailAddress := None; api_error := None |}.

Definition variant_server (history : list Request) (req : Request)
  : FetchOutcome :=
  if requested req "/messages/v?format=full" then
    FetchResponse {| status := 200; body := JsonBody example_variant |}
  else
    FetchResponse {| status := 200; body := JsonBody (example_message (js "sent")) |}.

(** A provider that lists the messages [b] and [x], answers 500 to the
    detail request for [b] and 401 to the one for [x]; and one that answers
    as the example provider does, except that it answers 401 to a send. *)
Definition masking_server (history : list Request) (req : Request)
  : FetchOutcome :=
  if requested req "/messages?maxResults=20&labelIds=INBOX" then
    FetchResponse {| status := 200;
                     body := JsonBody (example_list [js "b"; js "x"]) |}
  else if requested req "/messages/b?format=metadata" then
    FetchResponse {| status := 500;
                     body := JsonBody (example_error (js "Backend Error")) |}
  else
    FetchResponse {| status := 401;
                     body := JsonBody (example_error (js "Invalid Credentials")) |}.

(** A provider whose list of unread messages changes from one request to
    the next: [a], then [c], then [a] and [c]. *)
Definition changing_server (history : list Request) (req : Request)
  : FetchOutcome :=
  let unread := "/messages?maxResults=10&labelIds=INBOX&q=is%3Aunread"%string in
  if requested req unread then
    FetchResponse
      {| status := 200;
         body := JsonBody
                   (example_list
                      match length (filter (λ h, requested h unread = true)
                                      history) with
                      | 0%nat => [js "a"]
                      | 1%nat => [js "c"]
                      | _ => [js "a"; js "c"]
                      end) |}
  else if requested req "/messages/a?format=metadata" then
    FetchResponse {| status := 200; body := JsonBody (example_message (js "a")) |}
  else
    FetchResponse {| status := 200; body := JsonBody (example_message (js "c")) |}.

Definition expiring_server (history : list Request) (req : Request)
  : FetchOutcome :=
  if requested req "/messages/send" then
    FetchResponse {| status := 401;
                     body := JsonBody (example_error (js "Invalid Credentials")) |}
  else example_server history req.

(** ** api/utils.js: display helpers *)

(** [truncateText(text, maxLength = 100)], for a [maxLength] that is a
    non-negative integer. *)
Definition truncateText (text : option jsstring) (maxLength : option N)
  : jsstring :=
  let maxLength := default 100 maxLength in
  match text with
  | None => []
  | Some text =>
      if negb (truthy text) then []
      else if N.of_nat (length text) <=? maxLength then text
      else trim (take (N.to_nat maxLength) text) ++ js "..."
  end.

(** [ToInt32]: the integer modulo 2^32, read as a signed 32-bit number. *)
Definition to_int32 (z : Z) : Z := ((z + 2 ^ 31) mod 2 ^ 32 - 2 ^ 31)%Z.

(** One round of the loop of [stringToColor]:
    [hash = str.charCodeAt(i) + ((hash << 5) - hash)].  The shift works on
    32-bit integers; the subtraction and the addition are those of numbers,
    which are exact on integers below 2^53 in absolute value. *)
Definition hash_step (hash : Z) (c : N) : Z :=
  (Z.of_N c + (to_int32 (Z.shiftl (to_int32 hash) 5) - hash))%Z.

Definition string_hash (str : jsstring) : Z := foldl hash_step 0%Z str.

Definition stringToColor (str : option jsstring) : jsstring :=
  if negb (truthy_opt str) then js "hsl(0, 0%, 50%)"
  else
    let hash := string_hash (default [] str) in
    let hue := Z.abs (Z.rem hash 360) in
    js "hsl(" ++ number_toString (Z.to_N hue) ++ js ", 65%, 55%)".

(** ** api/utils.js: parseSender

    The regular expression of [parseSender] reads: at the start, an
    optional group made of an optional double quote, any number of
    characters other than the double quote (the first capture), an optional
    double quote and one white-space character; then an optional [<], one
    or more characters other than [>] (the second capture), an optional
    [>], and the end of the input.  It is matched by backtracking, as the
    language defines it: a quantifier first takes as much as it can, and
    gives back one character at a time when what follows it fails.  A
    matcher takes the rest of the input and a continuation for what follows
    it in the expression. *)

Section Regex.

Context {R : Type}.

(** [c?] *)
Definition re_opt (c : N) (s : jsstring) (k : jsstring → option R)
  : option R :=
  match s with
  | d :: r =>
      if d =? c
      then match k r with Some x => Some x | None => k s end
      else k s
  | [] => k s
  end.

(** A starred character class in a capture: the continuation also
    receives the text matched. *)
Fixpoint re_star (cls : N → bool) (s : jsstring)
    (k : jsstring → jsstring → option R) : option R :=
  match s with
  | c :: r =>
      if cls c
      then match re_star cls r (λ m, k (c :: m)) with
           | Some x => Some x
           | None => k [] s
           end
      else k [] s
  | [] => k [] []
  end.

(** The same with one character at least. *)
Definition re_plus (cls : N → bool) (s : jsstring)
    (k : jsstring → jsstring → option R) : option R :=
  match s with
  | c :: r => if cls c then re_star cls r (λ m, k (c :: m)) else None
  | [] => None
  end.

End Regex.

Definition not_quote (c : N) : bool := negb (c =? 34).
Definition not_gt (c : N) : bool := negb (c =? 62).

(** The part after the optional group, with the first capture as it
    stands. *)
Definition sender_tail (name : option jsstring) (s : jsstring)
  : option (option jsstring * jsstring) :=
  re_opt 60 s (λ s,
    re_plus not_gt s (λ email s,
      re_opt 62 s (λ s,
        match s with [] => Some (name, email) | _ :: _ => None end))).

(** The whole expression: the optional group is tried first, and left out
    when the match fails with it.  The result is the pair of the groups
    [match[1]] and [match[2]]. *)
Definition sender_match (from : jsstring)
  : option (option jsstring * jsstring) :=
  match
    re_opt 34 from (λ s,
      re_star not_quote s (λ name s,
        re_opt 34 s (λ s,
          match s with
          | c :: r => if is_white_space c then sender_tail (Some name) r
                      else None
          | [] => None
          end)))
  with
  | Some groups => Some groups
  | None => sender_tail None from
  end.

(** [s.split('@')[0]] *)
Fixpoint before_at (s : jsstring) : jsstring :=
  match s with
  | c :: r => if c =? 64 then [] else c :: before_at r
  | [] => []
  end.

Definition parseSender (from : option jsstring) : Sender :=
  if negb (truthy_opt from)
  then {| sender_name := js "Unknown"; sender_email := [] |}
  else
    let from := default [] from in
    match sender_match from with
    | Some (name, email) =>
        {| sender_name := or_else name (before_at email);
           sender_email := email |}
    | None => {| sender_name := from; sender_email := from |}
    end.

(** ** The background service worker: start-up and the message bridge

    The state of the worker is the process state above together with the
    flag [isInitialized] and the refresh alarm, of which the period is
    kept. *)

Record Background := {
  world : World;
  isInitialized : bool;
  alarm : option N;
}.

Definition Worker (A : Type) : Type := Background → Result A * Background.

Global Instance Worker_ret : MRet Worker := λ A a b, (Ok a, b).
Global Instance Worker_bind : MBind Worker := λ A A' f m b,
  match m b with
  | (Ok a, b') => f a b'
  | (Throw e, b') => (Throw e, b')
  end.

Global Instance Worker_fmap : FMap Worker := λ A A' f m b,
  match m b with
  | (Ok a, b') => (Ok (f a), b')
  | (Throw e, b') => (Throw e, b')
  end.

(** A computation on the process state, run by the worker. *)
Definition in_world {A} (m : M A) : Worker A := λ b,
  let '(r, w) := m (world b) in
  (r, {| world := w; isInitialized := isInitialized b; alarm := alarm b |}).

Definition DEFAULT_REFRESH_INTERVAL : N := 5.

(** [try { m } catch (e) { h(e) }] in the worker. *)
Definition worker_try_catch {A} (m : Worker A) (h : Exn → Worker A)
  : Worker A := λ b,
  match m b with
  | (Ok a, b') => (Ok a, b')
  | (Throw e, b') => h e b'
  end.

(** What a call of the platform does: it answers, or it rejects with an
    error. *)
Inductive Answer :=
| Answers
| Rejects (message : jsstring).

Definition platform_call (a : Answer) : Worker unit := λ b,
  match a with
  | Answers => (Ok tt, b)
  | Rejects message => (Throw (JsError message), b)
  end.

Definition set_alarm (period : option N) : Worker unit := λ b,
  (Ok tt, {| world := world b; isInitialized := isInitialized b;
             alarm := period |}).

(** [chrome.alarms.clear] then [chrome.alarms.create] under the one alarm
    name, given what the two calls do. *)
Definition setupRefreshAlarm (clear create : Answer) (intervalMinutes : N)
  : Worker unit :=
  _ ← platform_call clear;
  _ ← set_alarm None;
  _ ← platform_call create;
  set_alarm (Some intervalMinutes).

(** [n || d] on numbers: zero is falsy. *)
Definition number_or (n : option N) (d : N) : N :=
  match n with
  | Some n => if n =? 0 then d else n
  | None => d
  end.

Definition set_isInitialized (v : bool) : Worker unit := λ b,
  (Ok tt, {| world := world b; isInitialized := v; alarm := alarm b |}).

(** The platform at start-up: what the read of the settings store and the
    two alarm calls do.  Start-up provides for their failure with its
    [catch]. *)
Record Startup := {
  storage_get : Answer;
  alarms_clear : Answer;
  alarms_create : Answer;
}.

Definition initialize (platform : Startup) : Worker unit := λ b,
  if isInitialized b then (Ok tt, b)
  else
    worker_try_catch
      (_ ← platform_call (storage_get platform);
       settings ← in_world (gets storage);
       let refreshInterval :=
         number_or (refreshInterval settings) DEFAULT_REFRESH_INTERVAL in
       _ ← setupRefreshAlarm (alarms_clear platform) (alarms_create platform)
             refreshInterval;
       _ ← in_world authenticateSilently;
       set_isInitialized true)
      (λ _, mret tt) b.

(** The [data] of a request of the popup: an object, of which the handler
    reads these keys. *)
Record BridgeData := {
  d_id : option jsstring;
  d_format : option jsstring;
  d_messageId : option jsstring;
  d_to : option jsstring;
  d_subject : option jsstring;
  d_body : option jsstring;
  d_threadId : option jsstring;
  d_inReplyTo : option jsstring;
  d_references : option jsstring;
  d_isStarred : option bool;
  d_filter : option jsstring;
  d_maxResults : option Whole;
  d_pageToken : option jsstring;
  d_q : option jsstring;
  d_theme : option jsstring;
  d_refreshInterval : option N;
  d_notificationsEnabled : option bool;
}.

Record BridgeRequest := {
  br_action : option jsstring;
  br_data : BridgeData;
}.

Inductive BridgeResponse :=
| RSuccess
| RSuccessProfile (profile : Json)
| RAuthenticated (profile : Json)
| RNotAuthenticated
| RObject (o : Json)
| RMessage (m : Message)
| RList (l : ListResult)
| RSettings (s : Settings)
| RError (e : Exn).

(** [chrome.storage.local.set(data)]: the keys given replace the stored
    ones, the others stay. *)
Definition storage_set (data : BridgeData) (s : Settings) : Settings :=
  {| theme := if d_theme data is Some t then Some t else theme s;
     refreshInterval :=
       if d_refreshInterval data is Some n then Some n
       else refreshInterval s;
     notificationsEnabled :=
       if d_notificationsEnabled data is Some e then Some e
       else notificationsEnabled s |}.

Definition with_storage (s : Settings) (w : World) : World :=
  {| accessToken := accessToken w;
     lastKnownMessageIds := lastKnownMessageIds w;
     identity_cache := identity_cache w; storage := s;
     http_log := http_log w; notifications := notifications w |}.

(** The outcome of [chrome.identity.getAuthToken({interactive: true})]: an
    error, or a token, which may be missing. *)
Inductive AuthOutcome :=
| AuthFailed (message : jsstring)
| AuthGranted (token : option jsstring).

Definition is_action (action : option jsstring) (name : string) : bool :=
  bool_decide (action = Some (js name)).

Section Bridge.

Variable server : list Request → Request → FetchOutcome.
Variable race : list Exn → nat.
(** What the user and the identity service make of an interactive
    request. *)
Variable consent : AuthOutcome.

(** A granted token is kept by the identity service, which hands it out to
    later silent requests. *)
Definition authenticateInteractive : M (option jsstring) :=
  match consent with
  | AuthFailed message => throw (JsError message)
  | AuthGranted token =>
      if truthy_opt token then
        _ ← modify (with_identity_cache token);
        _ ← setAccessToken token;
        mret token
      else throw (JsError (js "Failed to get auth token"))
  end.

Definition handleMessage (request : BridgeRequest) : Worker BridgeResponse :=
  let action := br_action request in
  let data := br_data request in
  if is_action action "authenticate" then
    _ ← in_world authenticateInteractive;
    profile ← in_world (getProfile server);
    mret (RSuccessProfile profile)
  else if is_action action "signOut" then
    _ ← in_world (signOut server);
    mret RSuccess
  else if is_action action "checkAuth" then
    authToken ← in_world authenticateSilently;
    if truthy_opt authToken then
      profile ← in_world (getProfile server);
      mret (RAuthenticated profile)
    else mret RNotAuthenticated
  else if is_action action "getProfile" then
    RObject <$> in_world (getProfile server)
  else if is_action action "listMessages" then
    RList <$> in_world
      (listMessages server race parseSender
         {| filter_name := d_filter data; maxResults := d_maxResults data;
            pageToken := d_pageToken data; q := d_q data |})
  else if is_action action "getMessage" then
    RMessage <$> in_world
      (getMessage server parseSender (d_id data) (d_format data))
  else if is_action action "sendMessage" then
    RObject <$> in_world
      (sendMessage server
         {| send_to := d_to data; send_subject := d_subject data;
            send_body := d_body data; send_threadId := d_threadId data;
            send_inReplyTo := d_inReplyTo data;
            send_references := d_references data |})
  else if is_action action "replyToMessage" then
    RObject <$> in_world
      (replyToMessage server parseSender (d_messageId data) (d_body data))
  else if is_action action "forwardMessage" then
    RObject <$> in_world
      (forwardMessage server parseSender (d_messageId data) (d_to data)
         (d_body data))
  else if is_action action "trashMessage" then
    RObject <$> in_world (trashMessage server (d_id data))
  else if is_action action "deleteMessage" then
    RObject <$> in_world (deleteMessage server (d_id data))
  else if is_action action "toggleStar" then
    RObject <$> in_world
      (toggleStar server (d_id data) (default false (d_isStarred data)))
  else if is_action action "markAsRead" then
    RObject <$> in_world (markAsRead server (d_id data))
  else if is_action action "markAsUnread" then
    RObject <$> in_world (markAsUnread server (d_id data))
  else if is_action action "getSettings" then
    RSettings <$> in_world (gets storage)
  else if is_action action "saveSettings" then
    _ ← in_world (modify (λ w, with_storage (storage_set data (storage w)) w));
    _ ← (if negb (default 0 (d_refreshInterval data) =? 0)
         then setupRefreshAlarm Answers Answers
                (default 0 (d_refreshInterval data))
         else mret tt);
    mret RSuccess
  else if is_action action "refreshEmails" then
    _ ← in_world (checkForNewEmails server race parseSender);
    mret RSuccess
  else
    in_world (throw (JsError (js "Unknown action: " ++ tpl action))).

(** The listener: the handler's result is sent back, and an exception is
    sent back as an error. *)
Definition respond (request : BridgeRequest) (b : Background)
  : BridgeResponse * Background :=
  match handleMessage request b with
  | (Ok response, b') => (response, b')
  | (Throw e, b') => (RError e, b')
  end.

End Bridge.

(** ** Vocabulary of the further properties *)

(** The characters of the URL-safe base64 alphabet. *)
Definition url_safe (c : N) : bool :=
  ((65 <=? c) && (c <=? 90)) || ((97 <=? c) && (c <=? 122))
  || ((48 <=? c) && (c <=? 57)) || (c =? 45) || (c =? 95).

(** A message text cut at its first blank line ([CR LF CR LF]): what comes
    before it and what comes after. *)
Fixpoint split_blank_line (s : jsstring) : option (jsstring * jsstring) :=
  if startsWith [13; 10; 13; 10] s then Some ([], drop 4 s)
  else
    match s with
    | c :: r => (λ p, (c :: p.1, p.2)) <$> split_blank_line r
    | [] => None
    end.

(** The string has no carriage return. *)
Definition no_CR (s : jsstring) : Prop := Forall (λ c, c ≠ 13) s.

(** A header line: not empty, not starting with [CR], without [CR]. *)
Definition header_line (l : jsstring) : Prop := l ≠ [] ∧ no_CR l.

(** The decoded text of a part, and the parts that assign [result.plain]. *)
Definition decoded_text (p : Part) : jsstring :=
  match decoded_data p with
  | Some d => match base64Decode d with Ok s => s | Throw _ => [] end
  | None => []
  end.

Definition sets_plain (p : Part) : bool :=
  match decoded_data p with
  | Some _ => bool_decide (mimeType p = Some (js "text/plain"))
  | None => false
  end.

(** The text of the last part of a list that satisfies a test, [''] when
    there is none. *)
Definition last_text (test : Part → bool) (ps : list Part) : jsstring :=
  default [] (last (decoded_text <$> filter (λ p, test p = true) ps)).

(** The [parsed] object of [getMessage], before the body is attached. *)
Definition parse_message (parseSender : option jsstring → Sender)
    (response : ApiObject) : Message :=
  let headers := parseEmailHeaders (default empty_part (api_payload response)) in
  {| msg_id := api_id response;
     msg_threadId := api_threadId response;
     msg_labelIds := default [] (api_labelIds response);
     msg_snippet := api_snippet response;
     msg_internalDate := api_internalDate response;
     msg_headers := headers;
     msg_sender := parseSender (headers !! js "from");
     isUnread := has_label (api_labelIds response) (js "UNREAD");
     isStarred := has_label (api_labelIds response) (js "STARRED");
     isInbox := has_label (api_labelIds response) (js "INBOX");
     msg_body := None |}.

(** The endpoint of [getMessage] for an id and a format. *)
Definition message_endpoint (id : option jsstring) (format : jsstring)
  : jsstring :=
  js "/messages/" ++ tpl id ++ js "?" ++ params_toString [(js "format", format)].

Definition NO_TOKEN : Exn :=
  JsError (js "No access token available. Please sign in.").

(** A request to the API carrying the bearer token. *)
Definition authorized (token : option jsstring) (r : Request) : Prop :=
  startsWith GMAIL_API_BASE (req_url r) = true
  ∧ req_headers r = [(js "Authorization", js "Bearer " ++ tpl token);
                     (js "Content-Type", js "application/json")].

(** A computation whose only effect on the state is to issue authorized
    requests: it appends them to the log and leaves the rest as it was. *)
Definition issues_requests {A} (m : M A) : Prop :=
  ∀ w, ∃ reqs, (m w).2 = with_http_log (http_log w ++ reqs) w
               ∧ Forall (authorized (accessToken w)) reqs.



(** [s.trimEnd()], the second half of [trim]. *)
Definition trimEnd (s : jsstring) : jsstring := rev (trimStart (rev s)).

(** A string that neither starts nor ends with white space. *)
Definition trimmed (s : jsstring) : Prop :=
  (∀ c, head s = Some c → is_white_space c = false)
  ∧ (∀ c, last s = Some c → is_white_space c = false).

(** The characters of an address given without display name. *)
Definition address_unit (c : N) : Prop :=
  c ≠ 34 ∧ c ≠ 60 ∧ c ≠ 62 ∧ is_white_space c = false.

Global Instance address_unit_dec c : Decision (address_unit c).
Proof. unfold address_unit. apply _. Defined.

(** The actions that only call the API client. *)
Definition api_actions : list jsstring :=
  [js "getProfile"; js "listMessages"; js "getMessage"; js "sendMessage";
   js "replyToMessage"; js "forwardMessage"; js "trashMessage";
   js "deleteMessage"; js "toggleStar"; js "markAsRead"; js "markAsUnread"].


(** A computation of the worker that leaves the alarm and the flag as they
    were. *)
Definition keeps_alarm {A} (m : Worker A) : Prop :=
  ∀ b, alarm (m b).2 = alarm b ∧ isInitialized (m b).2 = isInitialized b.

(** ** Further examples *)

(** A message to send. *)
Definition example_mime (subject : jsstring) : MimeOptions :=
  {| mime_to := Some (js "bob@x.com"); mime_subject := Some subject;
     mime_body := Some (js "Hello"); mime_from := Some (js "me@x.com");
     mime_inReplyTo := None; mime_references := None |}.

(** A message with nested parts: an alternative of a plain and an HTML
    part, followed by a second plain part. *)
Definition example_multipart : Part :=
  let part mime text :=
    mkPart (Some mime) None (Some {| data := Some text |}) None in
  mkPart (Some (js "multipart/mixed")) None None
    (Some [ mkPart (Some (js "multipart/alternative")) None None
              (Some [part (js "text/plain") (js "b25l");
                     part (js "text/html") (js "PGI-MTwvYj4")]);
            part (js "text/plain") (js "dHdv") ]).

(** A message of which the body data is not base64, and a provider that
    answers every request with it; a provider that answers every request
    with an empty object. *)
Definition example_malformed_payload : Part :=
  mkPart (Some (js "text/plain")) None (Some {| data := Some (js "!!") |}) None.

Definition example_malformed : ApiObject :=
  {| api_messages := None; api_nextPageToken := None;
     api_resultSizeEstimate := None;
     api_id := Some (js "x"); api_threadId := None; api_labelIds := None;
     api_snippet := None; api_internalDate := None;
     api_payload := Some example_malformed_payload;
     api_emailAddress := None; api_error := None |}.

Definition malformed_server : list Request → Request → FetchOutcome :=
  constant_server {| status := 200; body := JsonBody example_malformed |}.

Definition empty_server : list Request → Request → FetchOutcome :=
  constant_server {| status := 200; body := JsonBody empty_object |}.

(** A request with no data, and a worker that has not started. *)
Definition example_data : BridgeData :=
  {| d_id := None; d_format := None; d_messageId := None; d_to := None;
     d_subject := None; d_body := None; d_threadId := None;
     d_inReplyTo := None; d_references := None; d_isStarred := None;
     d_filter := None; d_maxResults := None; d_pageToken := None;
     d_q := None; d_theme := None; d_refreshInterval := None;
     d_notificationsEnabled := None |}.

Definition example_background : Background :=
  {| world := example_world_seen; isInitialized := false; alarm := None |}.

Definition example_consent : AuthOutcome := AuthGranted (Some (js "token-2")).

(** A platform of which every call answers at start-up. *)
Definition example_startup : Startup :=
  {| storage_get := Answers; alarms_clear := Answers;
     alarms_create := Answers |}.

(** * Proofs *)

(** ** Arithmetic of the bit operations *)

Ltac nlia := zify; Z.to_euclidean_division_equations; lia.

Lemma lor_shifted a b k : b < 2 ^ k → N.lor (a * 2 ^ k) b = a * 2 ^ k + b.
Proof.
  intros Hb. symmetry. rewrite N.add_nocarry_lxor; [apply N.lxor_lor|];
  apply N.bits_inj_0; intros n; rewrite N.land_spec;
  destruct (N.lt_ge_cases n k) as [Hn|Hn].
  1,3: rewrite N.mul_pow2_bits_low by assumption; reflexivity.
  all: destruct (N.eq_dec b 0) as [->|Hz];
    [rewrite N.bits_0; apply andb_false_r|];
    rewrite (N.bits_above_log2 b n); [apply andb_false_r|];
    apply N.log2_lt_pow2; [lia|]; eapply N.lt_le_trans; [eassumption|];
    apply N.pow_le_mono_r; lia.
Qed.

Lemma lor_disjoint k hi lo :
  hi mod 2 ^ k = 0 → lo < 2 ^ k → N.lor hi lo = hi + lo.
Proof.
  intros Hhi Hlo.
  assert (hi = hi / 2 ^ k * 2 ^ k) as ->.
  { pose proof (N.div_mod hi (2 ^ k)) as H.
    rewrite Hhi, N.add_0_r, N.mul_comm in H. apply H. apply N.pow_nonzero. lia. }
  by apply lor_shifted.
Qed.

Lemma land_low k x m : m = N.ones k → N.land x m = x mod 2 ^ k.
Proof. intros ->. apply N.land_ones. Qed.

(** Rewrites shifts and masks by constants to divisions, products and
    remainders. *)
Ltac to_arith :=
  repeat first
    [ rewrite N.shiftr_div_pow2
    | rewrite N.shiftl_mul_pow2
    | rewrite (land_low 2 _ 3) by reflexivity
    | rewrite (land_low 3 _ 7) by reflexivity
    | rewrite (land_low 4 _ 15) by reflexivity
    | rewrite (land_low 5 _ 31) by reflexivity
    | rewrite (land_low 6 _ 63) by reflexivity
    | rewrite (land_low 10 _ 1023) by reflexivity ].

Ltac to_pow :=
  change (2 ^ 2) with 4 in *; change (2 ^ 4) with 16 in *;
  change (2 ^ 6) with 64 in *; change (2 ^ 10) with 1024 in *;
  change (2 ^ 12) with 4096 in *; change (2 ^ 18) with 262144 in *;
  change (2 ^ 3) with 8 in *; change (2 ^ 5) with 32 in *.

(** Settles the comparisons of a goal one at a time, each by arithmetic. *)
Ltac settle_tests :=
  repeat match goal with
  | |- context [?a <=? ?b] =>
      first [ replace (a <=? b) with true by (symmetry; apply N.leb_le; nlia)
            | replace (a <=? b) with false by (symmetry; apply N.leb_gt; nlia) ]
  | |- context [?a <? ?b] =>
      first [ replace (a <? b) with true by (symmetry; apply N.ltb_lt; nlia)
            | replace (a <? b) with false by (symmetry; apply N.ltb_ge; nlia) ]
  | |- context [?a =? ?b] =>
      first [ replace (a =? b) with true by (symmetry; apply N.eqb_eq; nlia)
            | replace (a =? b) with false by (symmetry; apply N.eqb_neq; nlia) ]
  end; cbn [andb orb negb].

Lemma b64_value_char i : i < 64 → b64_value (b64_char i) = Some i.
Proof.
  intros Hi. unfold b64_char.
  destruct (N.ltb_spec i 26); [|destruct (N.ltb_spec i 52);
    [|destruct (N.ltb_spec i 62); [|destruct (N.eqb_spec i 62)]]];
  unfold b64_value; settle_tests; f_equal; nlia.
Qed.

Lemma b64_char_plain i :
  i < 64 → is_ascii_whitespace (b64_char i) = false ∧ b64_char i ≠ 61
           ∧ b64_char i ≠ 45 ∧ b64_char i ≠ 95.
Proof.
  intros Hi. unfold b64_char, is_ascii_whitespace.
  destruct (N.ltb_spec i 26); [|destruct (N.ltb_spec i 52);
    [|destruct (N.ltb_spec i 62); [|destruct (N.eqb_spec i 62)]]];
  settle_tests; repeat split; try reflexivity; nlia.
Qed.

(** ** Base64 *)

Lemma list_ind3 {A} (P : list A → Prop) :
  P [] → (∀ a, P [a]) → (∀ a b, P [a; b]) →
  (∀ a b c r, P r → P (a :: b :: c :: r)) → ∀ l, P l.
Proof.
  intros H0 H1 H2 H3.
  fix IH 1. intros [|a [|b [|c r]]]; [done..|]. apply H3, IH.
Qed.

Lemma bytes_cons3 a b c r :
  bytes (a :: b :: c :: r) ↔ a < 256 ∧ b < 256 ∧ c < 256 ∧ bytes r.
Proof. unfold bytes. rewrite !Forall_cons. tauto. Qed.

Lemma b64_encode_sextets bs :
  bytes bs → b64_encode_bytes bs = (b64_char <$> sextets bs) ++ b64_padding bs.
Proof.
  induction bs as [|a|a b|a b c r IH] using list_ind3; intros Hb.
  - done.
  - apply Forall_cons in Hb as [Ha _]. cbn. to_arith.
    by rewrite ?lor_shifted by nlia.
  - apply Forall_cons in Hb as [Ha Hb]. apply Forall_cons in Hb as [Hb _].
    cbn. to_arith. rewrite ?lor_shifted by nlia. by to_pow.
  - apply bytes_cons3 in Hb as (Ha & Hb & Hc & Hr).
    cbn [b64_encode_bytes sextets fmap list_fmap app b64_padding].
    rewrite IH by done. to_arith. rewrite ?lor_shifted by nlia. by to_pow.
Qed.

Lemma sextets_bound bs : bytes bs → Forall (λ v, v < 64) (sextets bs).
Proof.
  induction bs as [|a|a b|a b c r IH] using list_ind3; intros Hb; cbn.
  - constructor.
  - apply Forall_cons in Hb as [Ha _]. repeat constructor; nlia.
  - apply Forall_cons in Hb as [Ha Hb]. apply Forall_cons in Hb as [Hb _].
    repeat constructor; nlia.
  - apply bytes_cons3 in Hb as (Ha & Hb & Hc & Hr).
    repeat (constructor; [nlia|]). by apply IH.
Qed.

Lemma b64_decode_sextets bs : bytes bs → b64_decode_values (sextets bs) = bs.
Proof.
  induction bs as [|a|a b|a b c r IH] using list_ind3; intros Hb.
  - done.
  - apply Forall_cons in Hb as [Ha _]. cbn. to_arith.
    rewrite ?lor_shifted by nlia. to_pow. f_equal. nlia.
  - apply Forall_cons in Hb as [Ha Hb]. apply Forall_cons in Hb as [Hb _].
    cbn. to_arith. rewrite ?lor_shifted by nlia. to_pow.
    f_equal; [|f_equal]; nlia.
  - apply bytes_cons3 in Hb as (Ha & Hb & Hc & Hr).
    cbn [sextets b64_decode_values]. rewrite IH by done. to_arith.
    rewrite ?lor_shifted by nlia. to_pow.
    f_equal; [|f_equal; [|f_equal]]; nlia.
Qed.

Lemma b64_values_chars vs :
  Forall (λ v, v < 64) vs → b64_values (b64_char <$> vs) = Some vs.
Proof.
  induction 1 as [|v vs Hv _ IH]; [done|].
  cbn. by rewrite b64_value_char, IH.
Qed.

Lemma length_plus4 n : N.of_nat (S (S (S (S n)))) mod 4 = N.of_nat n mod 4.
Proof. nlia. Qed.

Lemma b64_chars_plain bs :
  bytes bs →
  Forall (λ c, is_ascii_whitespace c = false ∧ c ≠ 61 ∧ c ≠ 45 ∧ c ≠ 95)
         (b64_chars bs).
Proof.
  intros Hb. apply Forall_fmap. eapply Forall_impl; [by apply sextets_bound|].
  intros v Hv. by apply b64_char_plain.
Qed.

Lemma b64_padding_cases bs :
  b64_padding bs = [] ∨ b64_padding bs = [61] ∨ b64_padding bs = [61; 61].
Proof. induction bs using list_ind3; cbn; auto. Qed.

(** Lengths: the characters never leave one over a multiple of four, and
    the padding completes them to a multiple of four. *)
Lemma b64_lengths bs :
  N.of_nat (length (b64_chars bs)) mod 4 ≠ 1
  ∧ N.of_nat (length (b64_chars bs ++ b64_padding bs)) mod 4 = 0.
Proof.
  unfold b64_chars.
  induction bs as [|a|a b|a b c r IH] using list_ind3; cbn; try done.
  by rewrite !length_plus4.
Qed.

Lemma filter_all {A} (P : A → Prop) `{∀ x, Decision (P x)} (l : list A) :
  Forall P l → filter P l = l.
Proof.
  induction 1 as [|x l Hx _ IH]; [done|].
  by rewrite filter_cons_True, IH.
Qed.

Lemma strip_padding_encoded cs pad :
  Forall (λ c, c ≠ 61) cs →
  pad = [] ∨ pad = [61] ∨ pad = [61; 61] →
  N.of_nat (length (cs ++ pad)) mod 4 = 0 →
  strip_padding (cs ++ pad) = cs.
Proof.
  intros Hcs Hpad Hlen. unfold strip_padding. rewrite Hlen. cbn.
  assert (∀ r, rev cs = 61 :: r → False) as Hhead.
  { intros r Hr. assert (In 61 (rev cs)) as Hin by (rewrite Hr; by left).
    apply in_rev, list_elem_of_In in Hin.
    by apply (proj1 (Forall_forall _ _) Hcs) in Hin. }
  destruct Hpad as [->|[->| ->]]; rewrite rev_app_distr; cbn.
  - rewrite app_nil_r.
    destruct (rev cs) as [|x [|y r]] eqn:E; try done.
    + destruct x as [|p]; [done|].
      repeat (destruct p as [p|p|]; try done). by destruct (Hhead []).
    + destruct (N.eq_dec x 61) as [->|Hx]; [by destruct (Hhead (y :: r))|].
      destruct x as [|p]; [done|].
      repeat (destruct p as [p|p|]; try done).
  - destruct (rev cs) as [|x r] eqn:E.
    + by rewrite <- (rev_involutive cs), E.
    + destruct (N.eq_dec x 61) as [->|Hx]; [by destruct (Hhead r)|].
      rewrite <- (rev_involutive cs), E.
      destruct x as [|p]; [done|].
      repeat (destruct p as [p|p|]; try done).
  - by rewrite rev_involutive.
Qed.

Lemma atob_btoa_bytes bs : bytes bs → atob (b64_encode_bytes bs) = Ok bs.
Proof.
  intros Hb. rewrite b64_encode_sextets by done. fold (b64_chars bs).
  pose proof (b64_chars_plain bs Hb) as Hplain.
  pose proof (b64_lengths bs) as [Hlen1 Hlen0].
  unfold atob. rewrite filter_all.
  2:{ apply Forall_app. split.
      - eapply Forall_impl; [exact Hplain|]. by intros c (? & ? & ? & ?).
      - destruct (b64_padding_cases bs) as [->|[->| ->]]; repeat constructor. }
  rewrite strip_padding_encoded; [|eapply Forall_impl; [exact Hplain|];
    by intros c (? & ? & ? & ?)|apply b64_padding_cases|done].
  destruct (N.eqb_spec (N.of_nat (length (b64_chars bs)) mod 4) 1); [done|].
  unfold b64_chars. rewrite b64_values_chars by by apply sextets_bound.
  by rewrite b64_decode_sextets.
Qed.

(** ** UTF-8 *)

Lemma utf8_trail_arith x : utf8_trail x = 128 + x mod 64.
Proof.
  unfold utf8_trail. to_arith. apply (lor_disjoint 7); [done|].
  to_pow. nlia.
Qed.

Lemma utf8_encode_scalar_arith c :
  is_scalar c →
  utf8_encode_scalar c =
    if c <=? 127 then [c]
    else if c <=? 2047 then [192 + c / 64; 128 + c mod 64]
    else if c <=? 65535 then
      [224 + c / 4096; 128 + c / 64 mod 64; 128 + c mod 64]
    else [240 + c / 262144; 128 + c / 4096 mod 64; 128 + c / 64 mod 64;
          128 + c mod 64].
Proof.
  intros [Hc _]. unfold utf8_encode_scalar.
  rewrite !utf8_trail_arith. to_arith. to_pow.
  destruct (N.leb_spec c 127); [done|].
  destruct (N.leb_spec c 2047).
  { rewrite (lor_disjoint 6 192) by (try done; nlia). done. }
  destruct (N.leb_spec c 65535).
  { rewrite (lor_disjoint 5 224) by (try done; nlia). done. }
  rewrite (lor_disjoint 4 240) by (try done; nlia). done.
Qed.

Lemma utf8_bytes_scalar c : is_scalar c → bytes (utf8_encode_scalar c).
Proof.
  intros Hc. rewrite utf8_encode_scalar_arith by done. destruct Hc as [Hc _].
  repeat case_match; repeat constructor; 
    repeat match goal with H : (_ <=? _) = _ |- _ =>
      first [apply N.leb_le in H | apply N.leb_gt in H] end; nlia.
Qed.

Lemma cont_arith c b : b < 64 → N.lor (N.shiftl c 6) (N.land (128 + b) 63) = c * 64 + b.
Proof.
  intros Hb. to_arith. rewrite lor_shifted by nlia. to_pow. nlia.
Qed.

Lemma utf8_decode_scalar c rest :
  is_scalar c →
  utf8_decode_from Utf8Start (utf8_encode_scalar c ++ rest) =
  c :: utf8_decode_from Utf8Start rest.
Proof.
  intros Hs. rewrite utf8_encode_scalar_arith by done.
  destruct Hs as [Hc Hsur].
  destruct (N.leb_spec c 127).
  { cbn. unfold utf8_lead. settle_tests. done. }
  destruct (N.leb_spec c 2047).
  { cbn [app utf8_decode_from]. unfold utf8_lead. settle_tests. 
    cbn [app utf8_decode_from]. settle_tests.
    rewrite cont_arith by nlia. to_arith. to_pow. f_equal. nlia. }
  destruct (N.leb_spec c 65535).
  { cbn [app utf8_decode_from]. unfold utf8_lead. settle_tests.
    cbn [app utf8_decode_from].
    destruct (N.eqb_spec (224 + c / 4096) 224);
    destruct (N.eqb_spec (224 + c / 4096) 237); settle_tests;
    rewrite !cont_arith by nlia; to_arith; to_pow; f_equal; nlia. }
  cbn [app utf8_decode_from]. unfold utf8_lead. settle_tests.
  cbn [app utf8_decode_from].
  destruct (N.eqb_spec (240 + c / 262144) 240);
  destruct (N.eqb_spec (240 + c / 262144) 244); settle_tests;
  rewrite !cont_arith by nlia; to_arith; to_pow; f_equal; nlia.
Qed.

Lemma utf8_decode_encode cs :
  Forall is_scalar cs →
  utf8_decode_from Utf8Start (flat_map utf8_encode_scalar cs) = cs.
Proof.
  induction 1 as [|c cs Hc _ IH]; [done|].
  cbn [flat_map]. by rewrite utf8_decode_scalar, IH.
Qed.

Lemma utf8_bytes cs :
  Forall is_scalar cs → bytes (flat_map utf8_encode_scalar cs).
Proof.
  induction 1 as [|c cs Hc _ IH]; [constructor|].
  cbn [flat_map]. apply Forall_app. split; [by apply utf8_bytes_scalar|done].
Qed.

(** ** UTF-16 *)

Lemma surrogate_tests u :
  (is_high_surrogate u = true ↔ 55296 ≤ u ≤ 56319)
  ∧ (is_low_surrogate u = true ↔ 56320 ≤ u ≤ 57343).
Proof.
  unfold is_high_surrogate, is_low_surrogate.
  rewrite !andb_true_iff, !N.leb_le. tauto.
Qed.

(** Induction that follows [to_scalars]: one code unit or a pair at a time. *)
Lemma list_ind12 {A} (P : list A → Prop) :
  P [] → (∀ a, P [a]) → (∀ a b r, P (b :: r) → P r → P (a :: b :: r)) →
  ∀ l, P l.
Proof.
  intros H0 H1 H2. 
  assert (∀ l, P l ∧ ∀ a, P (a :: l)) as H; [|intros l; apply H].
  induction l as [|b r [IH1 IH2]]; [by split|].
  split; [apply IH2|]. intros a. apply H2; [apply IH2|apply IH1].
Qed.

Lemma high_surrogate_range u :
  is_high_surrogate u = true → 55296 ≤ u ≤ 56319.
Proof. apply surrogate_tests. Qed.

Lemma low_surrogate_range u :
  is_low_surrogate u = true → 56320 ≤ u ≤ 57343.
Proof. apply surrogate_tests. Qed.

Lemma not_surrogate u :
  is_high_surrogate u = false → is_low_surrogate u = false →
  ¬ (55296 ≤ u ≤ 57343).
Proof.
  intros Hh Hl [? ?]. destruct (N.le_gt_cases u 56319).
  - assert (is_high_surrogate u = true) by (apply surrogate_tests; lia).
    congruence.
  - assert (is_low_surrogate u = true) by (apply surrogate_tests; lia).
    congruence.
Qed.

Lemma to_scalars_well_formed s :
  well_formed s = true →
  Forall is_scalar (to_scalars s) ∧ flat_map utf16_units (to_scalars s) = s.
Proof.
  induction s as [|u|u v r IHv IHr] using list_ind12; intros Hwf.
  - by split; [constructor|].
  - cbn in *. destruct (is_high_surrogate u) eqn:Hh; [done|].
    destruct (is_low_surrogate u) eqn:Hl; [done|].
    rewrite andb_true_r in Hwf. apply N.ltb_lt in Hwf.
    split; [|cbn; unfold utf16_units; by settle_tests].
    repeat constructor; [nlia|]. by apply not_surrogate.
  - cbn [well_formed to_scalars] in *.
    destruct (is_high_surrogate u) eqn:Hh.
    + apply andb_true_iff in Hwf as [Hlow Hwf]. rewrite Hlow.
      apply high_surrogate_range in Hh. apply low_surrogate_range in Hlow.
      destruct (IHr Hwf) as [IH1 IH2]. split.
      * constructor; [|done]. split; nlia.
      * cbn [flat_map]. rewrite IH2. unfold utf16_units. settle_tests.
        to_arith. to_pow. cbn [app]. f_equal; [|f_equal]; nlia.
    + destruct (is_low_surrogate u) eqn:Hl; [done|].
      apply andb_true_iff in Hwf as [Hlt Hwf]. apply N.ltb_lt in Hlt.
      destruct (IHv Hwf) as [IH1 IH2]. split.
      * constructor; [|done]. split; [nlia|]. by apply not_surrogate.
      * cbn [flat_map]. rewrite IH2. unfold utf16_units. by settle_tests.
Qed.

Lemma to_scalars_head s :
  head s ≠ Some 65279 → strip_bom (to_scalars s) = to_scalars s.
Proof.
  destruct s as [|u r]; [done|]. cbn [head]. intros Hu.
  assert (u ≠ 65279) as Hne by congruence.
  cbn [to_scalars].
  destruct (is_high_surrogate u) eqn:Hh.
  - apply high_surrogate_range in Hh. destruct r as [|v r']; [done|].
    destruct (is_low_surrogate v) eqn:Hl; [|done].
    unfold strip_bom. by settle_tests.
  - destruct (is_low_surrogate u); [done|].
    unfold strip_bom. by settle_tests.
Qed.

Lemma TextDecoder_TextEncoder s :
  well_formed s = true → head s ≠ Some 65279 →
  bytes (TextEncoder_encode s)
  ∧ TextDecoder_decode (TextEncoder_encode s) = s.
Proof.
  intros Hwf Hbom. destruct (to_scalars_well_formed s Hwf) as [Hsc Hunits].
  unfold TextDecoder_decode, TextEncoder_encode. split.
  - by apply utf8_bytes.
  - by rewrite utf8_decode_encode, to_scalars_head.
Qed.

Lemma to_scalars_scalar s : code_units s → Forall is_scalar (to_scalars s).
Proof.
  assert (is_scalar 65533) as Hrep by (split; [lia|intros [? ?]; lia]).
  induction s as [|u|u v r IHv IHr] using list_ind12; intros Hs.
  - constructor.
  - apply Forall_cons in Hs as [Hu _]. cbn.
    destruct (is_high_surrogate u) eqn:Hh; [by constructor|].
    destruct (is_low_surrogate u) eqn:Hl; [by constructor|].
    constructor; [|done]. split; [nlia|by apply not_surrogate].
  - apply Forall_cons in Hs as [Hu Hs]. specialize (IHv Hs).
    apply Forall_cons in Hs as [Hv Hs]. specialize (IHr Hs).
    cbn [to_scalars] in *.
    destruct (is_high_surrogate u) eqn:Hh.
    + destruct (is_low_surrogate v) eqn:Hl; [|by constructor].
      apply high_surrogate_range in Hh. apply low_surrogate_range in Hl.
      constructor; [|done]. split; nlia.
    + destruct (is_low_surrogate u) eqn:Hl; [by constructor|].
      constructor; [|done]. split; [nlia|by apply not_surrogate].
Qed.

(** ** The base64url transport encoding *)

Lemma replace_all_app c rep s t :
  replace_all c rep (s ++ t) = replace_all c rep s ++ replace_all c rep t.
Proof. apply flat_map_app. Qed.

Lemma replace_all_map c d s :
  replace_all c [d] s = (λ u, if u =? c then d else u) <$> s.
Proof.
  induction s as [|u s IH]; [done|]. cbn. rewrite <- IH.
  by destruct (u =? c).
Qed.

Lemma replace_all_absent c rep s :
  Forall (λ u, u ≠ c) s → replace_all c rep s = s.
Proof.
  induction 1 as [|u s Hu _ IH]; [done|]. cbn.
  apply N.eqb_neq in Hu. rewrite Hu. cbn. f_equal. apply IH.
Qed.

Lemma from_to_url s :
  Forall (λ c, c ≠ 45 ∧ c ≠ 95) s → from_url (to_url s) = s.
Proof.
  unfold from_url, to_url. rewrite !replace_all_map, <- !list_fmap_compose.
  induction 1 as [|c s [H1 H2] _ IH]; [done|]. cbn. f_equal; [|done].
  destruct (N.eqb_spec c 43) as [->|?]; [done|].
  destruct (N.eqb_spec c 47) as [->|?]; [done|].
  by settle_tests.
Qed.

Lemma to_url_no_eq s : Forall (λ c, c ≠ 61) s → Forall (λ c, c ≠ 61) (to_url s).
Proof.
  unfold to_url. rewrite !replace_all_map, <- !list_fmap_compose.
  intros H. apply Forall_fmap. eapply Forall_impl; [exact H|].
  intros c Hc. cbn.
  destruct (N.eqb_spec c 43) as [->|?]; [done|].
  by destruct (N.eqb_spec c 47) as [->|?].
Qed.

Lemma drop_leading_head c s :
  (∀ r, s ≠ c :: r) → drop_leading c s = s.
Proof.
  destruct s as [|u r]; [done|]. intros H. cbn.
  destruct (N.eqb_spec u c) as [->|?]; [by destruct (H r)|done].
Qed.

Lemma strip_trailing_eq_padded cs pad :
  Forall (λ c, c ≠ 61) cs → Forall (λ c, c = 61) pad →
  strip_trailing_eq (cs ++ pad) = cs.
Proof.
  intros Hcs Hpad. unfold strip_trailing_eq. rewrite rev_app_distr.
  assert (drop_leading 61 (rev pad ++ rev cs) = drop_leading 61 (rev cs)) as ->.
  { assert (Forall (λ c, c = 61) (rev pad)) as Hrev.
    { apply Forall_forall. intros x Hx. apply list_elem_of_In, in_rev in Hx.
      apply list_elem_of_In in Hx. by apply (proj1 (Forall_forall _ _) Hpad). }
    induction Hrev as [|x l -> _ IH]; [done|]. cbn. exact IH. }
  rewrite drop_leading_head; [apply rev_involutive|].
  intros r Hr. assert (In 61 (rev cs)) as Hin by (rewrite Hr; by left).
  apply in_rev, list_elem_of_In in Hin.
  by apply (proj1 (Forall_forall _ _) Hcs) in Hin.
Qed.

Lemma b64_chars_padding bs :
  (N.of_nat (length (b64_chars bs)) mod 4 = 0 ∧ b64_padding bs = [])
  ∨ (N.of_nat (length (b64_chars bs)) mod 4 = 2 ∧ b64_padding bs = [61; 61])
  ∨ (N.of_nat (length (b64_chars bs)) mod 4 = 3 ∧ b64_padding bs = [61]).
Proof.
  unfold b64_chars.
  induction bs as [|a|a b|a b c r IH] using list_ind3; cbn; auto.
  by rewrite length_plus4.
Qed.

Lemma pad_loop_length (l : jsstring) :
  (N.of_nat (length l) mod 4 = 0 → pad_loop 3 l = l)
  ∧ (N.of_nat (length l) mod 4 = 2 → pad_loop 3 l = l ++ [61; 61])
  ∧ (N.of_nat (length l) mod 4 = 3 → pad_loop 3 l = l ++ [61]).
Proof.
  repeat split; intros Hl; cbn [pad_loop]; rewrite ?length_app; cbn [length];
    rewrite Hl; cbn [N.eqb Pos.eqb]; try done.
  - replace (N.of_nat (length l + 1) mod 4) with 3 by nlia. cbn [N.eqb Pos.eqb].
    replace (N.of_nat (length l + 1 + 1) mod 4) with 0 by nlia.
    cbn [N.eqb]. by rewrite <- !app_assoc.
  - by replace (N.of_nat (length l + 1) mod 4) with 0 by nlia.
Qed.

(** Three iterations are enough for the padding loop, whatever the length. *)
Lemma pad_loop_terminates (l : jsstring) :
  N.of_nat (length (pad_loop 3 l)) mod 4 = 0.
Proof.
  cbn [pad_loop].
  repeat (match goal with
          | |- context [if ?b then _ else _] => destruct b eqn:?
          end; try (by apply N.eqb_eq)).
  repeat match goal with
         | H : (_ =? _) = false |- _ => apply N.eqb_neq in H
         end.
  rewrite !length_app in *. cbn [length] in *. nlia.
Qed.

Lemma pad_loop_encoded bs :
  pad_loop 3 (b64_chars bs) = b64_chars bs ++ b64_padding bs.
Proof.
  destruct (pad_loop_length (b64_chars bs)) as (H0 & H2 & H3).
  destruct (b64_chars_padding bs) as [[Hl ->]|[[Hl ->]|[Hl ->]]]; auto.
  by rewrite app_nil_r; auto.
Qed.

Lemma base64Encode_bytes s :
  bytes (TextEncoder_encode s) →
  base64Encode s = Ok (to_url (b64_chars (TextEncoder_encode s))).
Proof.
  intros Hb. unfold base64Encode.
  assert (String_fromCharCode <$> TextEncoder_encode s = TextEncoder_encode s)
    as ->.
  { induction Hb as [|b l Hlt _ IH]; [done|]. cbn. f_equal; [|done].
    unfold String_fromCharCode. nlia. }
  unfold btoa.
  assert (forallb (λ u, u <=? 255) (TextEncoder_encode s) = true) as ->.
  { apply forallb_forall. intros x Hx. apply N.leb_le.
    apply list_elem_of_In in Hx.
    apply (proj1 (Forall_forall _ _) Hb) in Hx. lia. }
  cbn. f_equal. rewrite b64_encode_sextets by done.
  fold (b64_chars (TextEncoder_encode s)).
  rewrite !replace_all_app.
  assert (Forall (λ c, c = 61) (b64_padding (TextEncoder_encode s))) as Hpad.
  { destruct (b64_chars_padding (TextEncoder_encode s))
      as [[_ ->]|[[_ ->]|[_ ->]]]; by repeat constructor. }
  rewrite (replace_all_absent 43 _ (b64_padding _)),
          (replace_all_absent 47 _ (b64_padding _)).
  2,3: eapply Forall_impl; [exact Hpad|]; by intros c ->.
  apply strip_trailing_eq_padded; [|done].
  apply to_url_no_eq. eapply Forall_impl; [by apply b64_chars_plain|].
  by intros c (? & ? & ? & ?).
Qed.

Lemma base64Decode_encoded bs :
  bytes bs → base64Decode (to_url (b64_chars bs)) = Ok (TextDecoder_decode bs).
Proof.
  intros Hb. unfold base64Decode.
  fold (from_url (to_url (b64_chars bs))). rewrite from_to_url.
  2:{ eapply Forall_impl; [by apply b64_chars_plain|].
      by intros c (? & ? & ? & ?). }
  rewrite pad_loop_encoded. unfold b64_chars.
  rewrite <- b64_encode_sextets, atob_btoa_bytes by done. cbn.
  do 2 f_equal. induction Hb as [|b l Hlt _ IH]; [done|]. cbn.
  f_equal; [|done]. unfold Uint8_store. nlia.
Qed.

Lemma base64_decode_encode s :
  well_formed s = true → head s ≠ Some 65279 →
  ∃ e, base64Encode s = Ok e ∧ base64Decode e = Ok s.
Proof.
  intros Hwf Hbom.
  destruct (TextDecoder_TextEncoder s Hwf Hbom) as [Hb Hdec].
  eexists. split; [by apply base64Encode_bytes|].
  by rewrite base64Decode_encoded, Hdec.
Qed.

(** C6, as amended.  For every string that is well-formed UTF-16 and does
    not begin with U+FEFF, the empty string and strings beyond ASCII
    included, [base64Encode] returns an encoding and [base64Decode] of that
    encoding returns the string. *)
Theorem base64_roundtrip s :
  well_formed s = true → head s ≠ Some 65279 →
  ∃ e, base64Encode s = Ok e ∧ base64Decode e = Ok s.
Proof. apply base64_decode_encode. Qed.

(** The string "é€😀" (the last character a surrogate pair) goes round. *)
Lemma base64_roundtrip_witness :
  well_formed [233; 8364; 55357; 56832] = true
  ∧ head [233; 8364; 55357; 56832] ≠ Some 65279
  ∧ ∃ e, base64Encode [233; 8364; 55357; 56832] = Ok e
         ∧ base64Decode e = Ok [233; 8364; 55357; 56832].
Proof.
  split; [reflexivity|]. split; [discriminate|].
  apply (base64_roundtrip [233; 8364; 55357; 56832]);
    [reflexivity|discriminate].
Defined.

(** The empty string goes round as well. *)
Example base64_roundtrip_empty :
  base64Encode [] = Ok [] ∧ base64Decode [] = Ok [].
Proof. by vm_compute. Qed.

(** C6 as stated fails: a leading U+FEFF is dropped by the decoder, and an
    unpaired surrogate comes back as U+FFFD. *)
Lemma base64_roundtrip_counterexample :
  (e ← base64Encode [65279; 104; 105]; base64Decode e) = Ok [104; 105]
  ∧ (e ← base64Encode [65279; 104; 105]; base64Decode e)
    ≠ Ok [65279; 104; 105]
  ∧ (e ← base64Encode [55357; 104]; base64Decode e) = Ok [65533; 104]
  ∧ (e ← base64Encode [55357; 104]; base64Decode e) ≠ Ok [55357; 104].
Proof. by vm_compute. Qed.

(** ** Body extraction *)

Lemma Part_ind (P : Part → Prop) :
  (∀ mt hs b, P (mkPart mt hs b None)) →
  (∀ mt hs b ps, Forall P ps → P (mkPart mt hs b (Some ps))) →
  ∀ p, P p.
Proof.
  intros Hleaf Hnode. fix IH 1. intros [mt hs b [ps|]]; [|apply Hleaf].
  apply Hnode. induction ps as [|q ps IHps]; constructor; [apply IH|apply IHps].
Qed.

Lemma process_all_app l1 l2 r :
  process_all (l1 ++ l2) r = (r' ← process_all l1 r; process_all l2 r').
Proof.
  revert r. induction l1 as [|p l1 IH]; intros r; [done|].
  cbn. destruct (process_own p r); [apply IH|done].
Qed.

Lemma processPayload_walk p r : processPayload p r = process_all (walk p) r.
Proof.
  revert r. induction p as [mt hs b|mt hs b ps IH] using Part_ind; intros r.
  - cbn. by destruct (process_own _ r).
  - cbn. destruct (process_own _ r) as [r'|e]; [|done]. cbn.
    revert r'. induction IH as [|q ps Hq _ IHps]; intros r'; [done|].
    cbn [flat_map]. rewrite process_all_app, <- Hq.
    destruct (processPayload q r'); [apply IHps|done].
Qed.

Lemma process_own_cases p r :
  match decoded_data p with
  | None => process_own p r = Ok r
  | Some d =>
      match base64Decode d with
      | Throw e => e = InvalidCharacterError ∧ process_own p r = Throw e
      | Ok decoded =>
          process_own p r =
          Ok (if bool_decide (mimeType p = Some (js "text/html"))
              then {| html := decoded; plain := plain r |}
              else if bool_decide (mimeType p = Some (js "text/plain"))
              then {| html := html r; plain := decoded |}
              else r)
      end
  end.
Proof.
  unfold decoded_data, process_own.
  destruct (part_body p) as [[[d|]]|]; try done.
  destruct (truthy d); [|done].
  destruct (base64Decode d) as [decoded|e] eqn:E.
  - cbn. by repeat case_bool_decide.
  - split; [|done]. unfold base64Decode in E.
    destruct (atob _) as [|e'] eqn:Ea; [done|]. cbn in E.
    injection E as <-. unfold atob in Ea. repeat case_match; by simplify_eq.
Qed.

Lemma process_all_outcome l r :
  match process_all l r with
  | Ok _ => existsb undecodable l = false
  | Throw e => e = InvalidCharacterError ∧ existsb undecodable l = true
  end.
Proof.
  revert r. induction l as [|p l IH]; intros r; [done|].
  cbn [process_all existsb]. pose proof (process_own_cases p r) as Hp.
  unfold undecodable. destruct (decoded_data p) as [d|].
  - destruct (base64Decode d) as [decoded|e].
    + rewrite Hp. cbn. apply IH.
    + destruct Hp as [-> ->]. by cbn.
  - rewrite Hp. cbn. apply IH.
Qed.

Lemma process_all_html l r :
  Forall (λ q, sets_html q = false) l →
  ∀ r', process_all l r = Ok r' → html r' = html r.
Proof.
  intros Hl. revert r. induction Hl as [|p l Hp _ IH]; intros r r' Hr.
  - by injection Hr as <-.
  - cbn [process_all] in Hr. pose proof (process_own_cases p r) as Hown.
    unfold sets_html in Hp. destruct (decoded_data p) as [d|].
    + destruct (base64Decode d) as [decoded|e].
      * rewrite Hown, Hp in Hr. apply IH in Hr. rewrite Hr.
        by destruct (bool_decide (mimeType p = Some (js "text/plain"))).
      * destruct Hown as [_ Hown]. by rewrite Hown in Hr.
    + rewrite Hown in Hr. by apply IH in Hr.
Qed.

Lemma plain_to_html_escape p : plain_to_html p = flat_map escape_unit p.
Proof.
  unfold plain_to_html. induction p as [|u p IH]; [done|].
  change (u :: p) with ([u] ++ p). rewrite !replace_all_app, flat_map_app, IH.
  f_equal. unfold escape_unit. cbn.
  destruct (N.eqb_spec u 38) as [->|?]; [done|].
  destruct (N.eqb_spec u 60) as [->|?]; [done|].
  destruct (N.eqb_spec u 62) as [->|?]; [done|].
  cbn. settle_tests. cbn. settle_tests. cbn.
  by destruct (N.eqb_spec u 10) as [->|?].
Qed.

(** C3, as amended.  [extractEmailBody] returns exactly when no visited part
    carries body data that the base64 decoder rejects; when one does, the
    decoder's exception is propagated to the caller. *)
Theorem extractEmailBody_outcome payload :
  match extractEmailBody payload with
  | Ok _ => existsb undecodable (walk payload) = false
  | Throw e =>
      e = InvalidCharacterError ∧ existsb undecodable (walk payload) = true
  end.
Proof.
  unfold extractEmailBody. rewrite processPayload_walk.
  pose proof (process_all_outcome (walk payload) {| html := []; plain := [] |})
    as H.
  destruct (process_all _ _) as [r|e]; [|done]. cbn.
  by destruct (negb (truthy (html r)) && truthy (plain r)).
Qed.

(** C3 as stated fails: a payload whose second part has malformed data
    makes [extractEmailBody] throw, though the first part decodes. *)
Lemma extractEmailBody_malformed_counterexample :
  let good := mkPart (Some (js "text/plain")) None
                     (Some {| data := Some (js "aGVsbG8") |}) None in
  let bad := mkPart (Some (js "text/html")) None
                    (Some {| data := Some (js "a") |}) None in
  let payload := mkPart (Some (js "multipart/alternative")) None None
                        (Some [good; bad]) in
  base64Decode (js "a") = Throw InvalidCharacterError
  ∧ extractEmailBody good = Ok {| html := js "hello"; plain := js "hello" |}
  ∧ extractEmailBody payload = Throw InvalidCharacterError.
Proof. by vm_compute. Qed.

(** C8.  When no [text/html] part assigned [html] and the extracted plain
    text is not empty, [html] is the plain text with [&], [<], [>] and the
    newline replaced, in that order, by [&amp;], [&lt;], [&gt;] and [<br>];
    this is the plain text with each character escaped on its own, so that
    every [<] and [>] of the result belongs to an inserted [<br>] and every
    [&] starts an entity. *)
Theorem extractEmailBody_synthesized_html payload result :
  extractEmailBody payload = Ok result →
  Forall (λ part, sets_html part = false) (walk payload) →
  plain result ≠ [] →
  html result = plain_to_html (plain result)
  ∧ html result = flat_map escape_unit (plain result).
Proof.
  unfold extractEmailBody. rewrite processPayload_walk. intros Hr Hwalk Hplain.
  destruct (process_all _ _) as [r|e] eqn:E; [|done].
  apply process_all_html in E; [|done]. cbn in E, Hr.
  rewrite <- plain_to_html_escape.
  destruct r as [h p]. cbn in *. subst h. cbn in Hr.
  destruct p as [|u p]; cbn in Hr; injection Hr as <-; [done|].
  by cbn.
Qed.

Lemma extractEmailBody_synthesized_html_witness :
  let payload := mkPart (Some (js "text/plain")) None
                        (Some {| data := Some (js "YSA8IGI") |}) None in
  let result := {| html := js "a &lt; b"; plain := js "a < b" |} in
  extractEmailBody payload = Ok result
  ∧ Forall (λ part, sets_html part = false) (walk payload)
  ∧ plain result ≠ []
  ∧ html result = plain_to_html (plain result)
  ∧ html result = flat_map escape_unit (plain result).
Proof.
  intros payload result.
  assert (extractEmailBody payload = Ok result) as H1 by (by vm_compute).
  assert (Forall (λ part, sets_html part = false) (walk payload)) as H2
    by (by repeat constructor).
  assert (plain result ≠ []) as H3 by discriminate.
  split; [exact H1|]. split; [exact H2|]. split; [exact H3|].
  exact (extractEmailBody_synthesized_html payload result H1 H2 H3).
Defined.

(** ** Header parsing *)

Lemma parse_step_lookup headers header key :
  parse_step headers header !! key =
    if decide (stored_under key header) then Some (h_value header)
    else headers !! key.
Proof.
  unfold parse_step, includes, stored_under.
  case_bool_decide as Hin.
  - destruct (decide (toLowerCase (h_name header) = key)) as [<-|Hne].
    + rewrite lookup_insert_eq. by rewrite decide_True.
    + rewrite lookup_insert_ne by done. rewrite decide_False; [done|tauto].
  - rewrite decide_False; [done|tauto].
Qed.

Lemma foldl_parse_lookup hs key :
  foldl parse_step ∅ hs !! key = last (h_value <$> filter (stored_under key) hs).
Proof.
  induction hs as [|header hs IH] using rev_ind; [done|].
  rewrite foldl_app. cbn [foldl]. rewrite parse_step_lookup, filter_app, fmap_app.
  destruct (decide (stored_under key header)) as [Hs|Hs].
  - rewrite filter_cons_True by done. cbn. by rewrite last_snoc.
  - rewrite filter_cons_False by done. cbn. by rewrite app_nil_r.
Qed.

Lemma allowed_key_of_name name :
  name ∈ headerNames → toLowerCase name ∈ allowed_keys.
Proof.
  unfold headerNames. rewrite !elem_of_cons, elem_of_nil.
  intros [->|[->|[->|[->|[->|[->|[->|[]]]]]]]];
    by apply (bool_decide_unpack _); vm_compute.
Qed.

Lemma foldl_parse_dom hs :
  dom (foldl parse_step ∅ hs) ⊆ list_to_set allowed_keys.
Proof.
  induction hs as [|header hs IH] using rev_ind; [set_solver|].
  rewrite foldl_app. cbn [foldl]. unfold parse_step at 1, includes.
  case_bool_decide as Hin; [|done].
  rewrite dom_insert. apply allowed_key_of_name in Hin.
  apply union_subseteq. split; [|done].
  apply singleton_subseteq_l. by apply elem_of_list_to_set.
Qed.

(** C4, as amended.  A header is stored when its name is, letter for letter,
    one of From, To, Subject, Date, Message-ID, References, In-Reply-To; a
    header whose name differs from these in case is skipped.  The key is
    the lower-cased name, the value is kept as it is, the last header stored
    under a key wins, and no other key appears in the mapping. *)
Theorem parseEmailHeaders_allow_list payload :
  (∀ key, parseEmailHeaders payload !! key =
          last (h_value <$> filter (stored_under key)
                                   (default [] (part_headers payload))))
  ∧ dom (parseEmailHeaders payload) ⊆ list_to_set allowed_keys
  ∧ Forall (λ key, toLowerCase key = key) allowed_keys.
Proof.
  unfold parseEmailHeaders. split; [|split].
  - intros key. destruct (part_headers payload) as [hs|]; [|done].
    apply foldl_parse_lookup.
  - destruct (part_headers payload) as [hs|]; [|set_solver].
    apply foldl_parse_dom.
  - by repeat constructor.
Qed.

(** C4 as stated fails: names that match the allow-list only up to case are
    not extracted. *)
Lemma parseEmailHeaders_case_counterexample :
  let payload :=
    mkPart None (Some [ {| h_name := js "from"; h_value := js "a@x.com" |};
                        {| h_name := js "Message-Id"; h_value := js "<1@x>" |};
                        {| h_name := js "Subject"; h_value := js "Hi" |} ])
           None None in
  toLowerCase (js "from") ∈ allowed_keys
  ∧ toLowerCase (js "Message-Id") ∈ allowed_keys
  ∧ parseEmailHeaders payload !! js "from" = None
  ∧ parseEmailHeaders payload !! js "message-id" = None
  ∧ parseEmailHeaders payload !! js "subject" = Some (js "Hi").
Proof.
  cbn zeta. split; [|split]; [by apply (bool_decide_unpack _); vm_compute..|].
  by vm_compute.
Qed.

(** ** The API client *)

Lemma header_names_lower a b :
  a ∈ headerNames → b ∈ headerNames → toLowerCase a = toLowerCase b → a = b.
Proof.
  intros Ha Hb.
  assert (Forall (λ a, Forall (λ b, toLowerCase a = toLowerCase b → a = b)
                         headerNames) headerNames) as H
    by (apply (bool_decide_unpack _); by vm_compute).
  rewrite Forall_forall in H. specialize (H a Ha). rewrite Forall_forall in H.
  by apply H.
Qed.

Lemma parsed_header name response :
  name ∈ headerNames →
  parseEmailHeaders (default empty_part (api_payload response))
    !! toLowerCase name
  = original_header name response.
Proof.
  intros Hname. unfold original_header, parseEmailHeaders.
  destruct (api_payload response) as [payload|]; [|done]. cbn.
  destruct (part_headers payload) as [hs|]; [|done].
  fold parse_step. change (foldl _ ∅ hs) with (foldl parse_step ∅ hs).
  rewrite foldl_parse_lookup. do 2 f_equal. apply list_filter_iff.
  intros h. unfold stored_under. split.
  - intros [Hin Hlow]. by apply header_names_lower.
  - by intros ->.
Qed.

Lemma extractEmailBody_decodable payload :
  existsb undecodable (walk payload) = false →
  ∃ b, extractEmailBody payload = Ok b.
Proof.
  intros Hgood. unfold extractEmailBody. rewrite processPayload_walk.
  pose proof (process_all_outcome (walk payload) {| html := []; plain := [] |})
    as H.
  destruct (process_all _ _) as [r|e]; [|destruct H; congruence].
  cbn. destruct (_ && _); by eexists.
Qed.

Lemma reply_subject_code subject :
  (if default false (startsWith (js "Re:") <$> subject)
   then tpl subject else js "Re: " ++ or_else subject [])
  = reply_subject subject.
Proof.
  destruct subject as [s|]; cbn; [|done].
  destruct (startsWith _ s); [done|]. by destruct s.
Qed.

Lemma reply_references_code references mid :
  (if truthy_opt references
   then Some (tpl references ++ js " " ++ tpl (Some mid))
   else Some mid)
  = Some (reply_references references mid).
Proof. destruct references as [r|]; cbn; [|done]. by destruct (truthy r). Qed.

Lemma reply_references_truthy references mid :
  truthy mid = true → truthy (reply_references references mid) = true.
Proof.
  intros Hmid. unfold reply_references. destruct references as [[|c r]|];
    by cbn.
Qed.

Lemma reply_mime to subject mid references body :
  truthy mid = true → truthy references = true →
  mime_text {| mime_to := Some to; mime_subject := Some subject;
               mime_body := Some body; mime_from := None;
               mime_inReplyTo := Some mid;
               mime_references := Some references |}
  = js "To: " ++ to ++ [13; 10]
    ++ js "Subject: " ++ subject ++ [13; 10]
    ++ js "MIME-Version: 1.0" ++ [13; 10]
    ++ js "Content-Type: text/plain; charset=UTF-8" ++ [13; 10]
    ++ js "In-Reply-To: " ++ mid ++ [13; 10]
    ++ js "References: " ++ references
    ++ [13; 10; 13; 10] ++ body.
Proof.
  intros Hmid Hrefs. unfold mime_text, mime_headers.
  cbn [mime_to mime_subject mime_body mime_from mime_inReplyTo
       mime_references truthy_opt tpl].
  rewrite Hmid, Hrefs. cbn [app join].
  repeat first [rewrite <- app_assoc | progress cbn [app]]. done.
Qed.

Lemma same_but_log_refl w : same_but_log w w.
Proof. by destruct w. Qed.

Lemma same_but_log_trans w1 w2 w3 :
  same_but_log w1 w2 → same_but_log w2 w3 → same_but_log w1 w3.
Proof.
  unfold same_but_log. intros H12 H23. rewrite H23 at 1. rewrite H12 at 1.
  by destruct w1.
Qed.

Lemma only_logs_ret {A} (a : A) : only_logs (mret a).
Proof. intros w. apply same_but_log_refl. Qed.

Lemma only_logs_throw {A} e : only_logs (@throw A e).
Proof. intros w. apply same_but_log_refl. Qed.

Lemma only_logs_lift {A} (r : Result A) : only_logs (lift r).
Proof. intros w. apply same_but_log_refl. Qed.

Lemma only_logs_gets {A} (f : World → A) : only_logs (gets f).
Proof. intros w. apply same_but_log_refl. Qed.

Lemma only_logs_bind {A B} (m : M A) (f : A → M B) :
  only_logs m → (∀ a, only_logs (f a)) → only_logs (m ≫= f).
Proof.
  intros Hm Hf w. unfold mbind, M_bind. specialize (Hm w).
  destruct (m w) as [[a|e] w1]; [|done].
  eapply same_but_log_trans; [exact Hm|apply Hf].
Qed.

Lemma only_logs_settle {A} (m : M A) : only_logs m → only_logs (settle m).
Proof. intros Hm w. unfold settle. specialize (Hm w). by destruct (m w). Qed.

Lemma only_logs_settle_all {A} (ms : list (M A)) :
  Forall only_logs ms → only_logs (settle_all ms).
Proof.
  induction 1 as [|m ms Hm _ IH]; [apply only_logs_ret|].
  cbn. apply only_logs_bind; [by apply only_logs_settle|]. intros r.
  apply only_logs_bind; [done|]. intros rs. apply only_logs_ret.
Qed.

Create HintDb only_logs.
#[export] Hint Resolve only_logs_ret only_logs_throw only_logs_lift
  only_logs_gets only_logs_settle : only_logs.

Ltac only_logs :=
  repeat first
    [ progress auto with only_logs
    | apply only_logs_bind; [|intros ?]
    | match goal with
      | |- only_logs (if ?b then _ else _) => destruct b
      | |- only_logs (match ?x with _ => _ end) => destruct x
      end ].

Section ClientProofs.

Variable server : list Request → Request → FetchOutcome.
Variable race : list Exn → nat.
Variable parseSender : option jsstring → Sender.

Lemma only_logs_fetch req : only_logs (fetch server req).
Proof.
  intros w. unfold fetch. destruct (server _ _); by destruct w.
Qed.

Lemma only_logs_request endpoint options : only_logs (request server endpoint options).
Proof.
  unfold request. pose proof only_logs_fetch. only_logs.
Qed.

Lemma only_logs_getMessage id format : only_logs (getMessage server parseSender id format).
Proof.
  unfold getMessage. pose proof only_logs_request. only_logs.
Qed.

Lemma only_logs_listMessages o : only_logs (listMessages server race parseSender o).
Proof.
  unfold listMessages. pose proof only_logs_request. only_logs.
  apply only_logs_settle_all, Forall_fmap, Forall_forall. intros msg _.
  apply only_logs_getMessage.
Qed.

Lemma request_run endpoint options w :
  request server endpoint options w =
    if truthy_opt (accessToken w) then
      let req := api_request (accessToken w) endpoint options in
      (fetch_outcome (server (http_log w) req),
       with_http_log (http_log w ++ [req]) w)
    else
      (Throw (JsError (js "No access token available. Please sign in.")), w).
Proof.
  unfold request, mbind, M_bind, gets, fetch. cbn.
  destruct (truthy_opt (accessToken w)); [|done]. cbn.
  fold (api_request (accessToken w) endpoint options).
  destruct (server _ _) as [|r]; [done|]. cbn. unfold response_outcome.
  destruct (ok r); cbn; [by destruct (body r)|].
  destruct (status r =? 401); [done|].
  unfold json_or_empty. by destruct (body r).
Qed.

Lemma base64Encode_total s : code_units s → ∃ e, base64Encode s = Ok e.
Proof.
  intros Hs. eexists. apply base64Encode_bytes.
  by apply utf8_bytes, to_scalars_scalar.
Qed.

(** *** The fan-out of [listMessages] *)




Lemma format_query :
  params_toString [(js "format", js "metadata")] = js "format=metadata"
  ∧ params_toString [(js "format", js "full")] = js "format=full".
Proof. by vm_compute. Qed.

Lemma getMessage_log id format w :
  format = js "metadata" ∨ format = js "full" →
  truthy_opt (accessToken w) = true →
  (getMessage server parseSender id (Some format) w).2 =
  with_http_log (http_log w ++ [detail_request (accessToken w) format id]) w.
Proof.
  intros Hf Htok. unfold getMessage. cbv zeta. cbn [from_option Datatypes.id].
  unfold mbind at 1, M_bind at 1. rewrite request_run, Htok.
  assert (params_toString [(js "format", format)] = js "format=" ++ format)
    as -> by (destruct Hf as [-> | ->]; apply format_query).
  change (api_request (accessToken w)
            (js "/messages/" ++ tpl id ++ js "?" ++ js "format=" ++ format)
            no_options)
    with (detail_request (accessToken w) format id).
  cbv zeta. destruct (fetch_outcome _) as [[|o]|e]; [done| |done].
  unfold mbind, M_bind, lift. cbn [as_object].
  destruct (api_payload o) as [payload|]; [|done].
  case_bool_decide; [|done].
  by destruct (extractEmailBody payload).
Qed.

Lemma getMessage_run id format w :
  getMessage server parseSender id format w =
  let f := default (js "full") format in
  match request server (message_endpoint id f) no_options w with
  | (Throw e, w1) => (Throw e, w1)
  | (Ok JNull, w1) => (Throw TypeError, w1)
  | (Ok (JObject response), w1) =>
      (match api_payload response with
       | Some payload =>
           if bool_decide (f = js "full")
           then b ← extractEmailBody payload;
                Ok (set_body b (parse_message parseSender response))
           else Ok (parse_message parseSender response)
       | None => Ok (parse_message parseSender response)
       end, w1)
  end.
Proof.
  unfold getMessage, message_endpoint. cbv zeta.
  unfold mbind at 1, M_bind at 1.
  destruct (request _ _ _ w) as [[[|response]|e] w1]; [done| |done].
  unfold mbind at 1, M_bind at 1, lift at 1. cbn [as_object].
  fold (parse_message parseSender response).
  destruct (api_payload response) as [payload|]; [|done].
  case_bool_decide; [|done]. unfold mbind, M_bind, lift.
  by destruct (extractEmailBody payload).
Qed.

Lemma list_request_ok endpoint w response w1 :
  request server endpoint no_options w = (Ok response, w1) →
  truthy_opt (accessToken w) = true
  ∧ w1 = with_http_log (http_log w ++ [api_request (accessToken w) endpoint no_options]) w.
Proof.
  rewrite request_run. destruct (truthy_opt (accessToken w)); [|done].
  cbv zeta. by intros [= _ <-].
Qed.

Lemma settle_all_details ids w :
  truthy_opt (accessToken w) = true →
  settle_all ((λ id, getMessage server parseSender id (Some (js "metadata")))
                <$> ids) w =
  (Ok (detail_outcomes server parseSender (accessToken w) w ids),
   with_http_log
     (http_log w ++ (detail_request (accessToken w) (js "metadata") <$> ids)) w).
Proof.
  intros Htok. unfold detail_outcomes. revert w Htok.
  induction ids as [|id ids IH]; intros w Htok.
  - cbn. rewrite app_nil_r. by destruct w.
  - cbn [fmap list_fmap settle_all]. unfold mbind at 1, M_bind at 1.
    unfold settle at 1.
    pose proof (getMessage_log id (js "metadata") w (or_introl eq_refl) Htok)
      as Hlog.
    destruct (getMessage _ _ id _ w) as [r w'] eqn:E. cbn [snd] in Hlog.
    subst w'. unfold mbind at 1, M_bind at 1. rewrite IH by done.
    cbn [accessToken with_http_log http_log imap take fmap list_fmap].
    unfold mret, M_ret. rewrite app_nil_r.
    assert (with_http_log (http_log w) w = w) as -> by by destruct w.
    rewrite E. cbn [fst]. f_equal.
    + do 2 f_equal. apply imap_ext. intros i id' _. cbn.
      by rewrite <- app_assoc.
    + by rewrite <- app_assoc.
Qed.

Lemma createMimeMessage_total o :
  code_units (mime_text o) → ∃ raw, createMimeMessage o = Ok raw.
Proof. apply base64Encode_total. Qed.

Lemma mime_text_head o : mime_from o = None → head (mime_text o) = Some 84.
Proof.
  intros Hfrom. unfold mime_text, mime_headers. rewrite Hfrom. cbn [truthy_opt].
  by destruct (truthy_opt (mime_inReplyTo o)),
              (truthy_opt (mime_references o)).
Qed.

Lemma response_outcome_policy r :
  policy_covers r → response_outcome r = Throw (policy_error r).
Proof.
  intros (Hok & _ & Hbody). unfold response_outcome, policy_error.
  rewrite Hok.
  cbn [negb]. destruct (N.eqb_spec (status r) 401) as [Hs|Hs]; [done|].
  destruct Hbody as [?|Hnull]; [done|].
  unfold json_or_empty, api_error_message, provider_message.
  destruct (body r) as [| | |o]; try done.
  destruct (api_error o) as [[[m|]]|]; try done. cbn. by destruct (truthy m).
Qed.

Lemma stops_pure {A} (m : M A) :
  (∀ w, (m w).2 = w) → stops_at_failure server m.
Proof.
  intros H w. exists []. rewrite H, app_nil_r. split; [done|].
  intros i r Ha. unfold answer_to in Ha. by rewrite lookup_nil in Ha.
Qed.

Lemma stops_request endpoint options :
  stops_at_failure server (request server endpoint options).
Proof.
  intros w. rewrite request_run. destruct (truthy_opt (accessToken w)).
  - eexists [_]. cbn. split; [done|]. intros [|i] r Ha Hc; [|done].
    unfold answer_to in Ha. cbn in Ha. rewrite app_nil_r in Ha.
    injection Ha as Ha. rewrite Ha. cbn.
    by rewrite response_outcome_policy.
  - exists []. cbn. rewrite app_nil_r. split; [done|].
    intros i r Ha. unfold answer_to in Ha. by rewrite lookup_nil in Ha.
Qed.

Lemma stops_bind {A B} (m : M A) (f : A → M B) :
  stops_at_failure server m → (∀ a, stops_at_failure server (f a)) →
  stops_at_failure server (m ≫= f).
Proof.
  intros Hm Hf w. destruct (Hm w) as (r1 & Hlog1 & H1). unfold mbind, M_bind.
  destruct (m w) as [[a|e] w1] eqn:E; cbn [fst snd] in *.
  - destruct (Hf a w1) as (r2 & Hlog2 & H2). exists (r1 ++ r2). split.
    + rewrite Hlog2, Hlog1. symmetry. apply app_assoc.
    + intros i r Ha Hc. unfold answer_to in Ha.
      destruct (decide (i < length r1)%nat) as [Hi|Hi].
      * rewrite lookup_app_l, take_app_le in Ha by lia.
        by destruct (H1 i r Ha Hc) as [? _].
      * rewrite lookup_app_r, take_app_ge in Ha by lia.
        rewrite (assoc_L (++)), <- Hlog1 in Ha.
        destruct (H2 (i - length r1)%nat r Ha Hc) as [-> Hlen].
        split; [done|]. rewrite length_app. lia.
  - exists r1. split; [exact Hlog1|]. intros i r Ha Hc.
    destruct (H1 i r Ha Hc) as [[= ->] ?]. by split.
Qed.

Lemma stops_fmap {A B} (g : A → B) (m : M A) :
  stops_at_failure server m → stops_at_failure server (g <$> m).
Proof.
  intros Hm w. destruct (Hm w) as (r1 & Hlog1 & H1). exists r1.
  unfold fmap, M_fmap. destruct (m w) as [[a|e] w1]; cbn [fst snd] in *;
    (split; [done|]); intros i r Ha Hc; destruct (H1 i r Ha Hc) as [He ?];
    [done|]. injection He as ->. by split.
Qed.

Lemma stops_getMessage id format :
  stops_at_failure server (getMessage server parseSender id format).
Proof.
  unfold getMessage. cbv zeta. apply stops_bind; [apply stops_request|].
  intros response. apply stops_bind; [by apply stops_pure|].
  clear response. intros response.
  destruct (api_payload response) as [payload|]; [|by apply stops_pure].
  case_bool_decide; [|by apply stops_pure].
  apply stops_bind; by (intros; apply stops_pure).
Qed.

Lemma stops_sendMessage o : stops_at_failure server (sendMessage server o).
Proof.
  unfold sendMessage. apply stops_bind; [by apply stops_pure|].
  intros raw. apply stops_request.
Qed.

Lemma stops_perform op :
  (∀ o, op ≠ OpListMessages o) →
  stops_at_failure server (perform server race parseSender op).
Proof.
  intros Hop. destruct op; cbn [perform]; apply stops_fmap;
    try apply stops_request.
  - by destruct (Hop o).
  - apply stops_getMessage.
  - apply stops_sendMessage.
  - apply stops_bind; [apply stops_getMessage|]. intros original.
    apply stops_sendMessage.
  - apply stops_bind; [apply stops_getMessage|]. intros original.
    apply stops_sendMessage.
  - destruct isCurrentlyStarred; apply stops_request.
Qed.

Lemma detail_endpoint id :
  api_request = api_request →
  message_endpoint id (js "metadata")
  = js "/messages/" ++ tpl id ++ js "?format=" ++ js "metadata".
Proof.
  intros _. unfold message_endpoint.
  by rewrite (proj1 format_query).
Qed.

Lemma detail_outcome id w e :
  truthy_opt (accessToken w) = true →
  (getMessage server parseSender id (Some (js "metadata")) w).1 = Throw e
  ↔ detail_error (server (http_log w)
                    (detail_request (accessToken w) (js "metadata") id))
    = Some e.
Proof.
  intros Htok. rewrite getMessage_run. cbn [default from_option Datatypes.id].
  cbv zeta. rewrite request_run, Htok. cbv zeta.
  rewrite detail_endpoint by done.
  change (api_request (accessToken w)
            (js "/messages/" ++ tpl id ++ js "?format=" ++ js "metadata")
            no_options)
    with (detail_request (accessToken w) (js "metadata") id).
  unfold detail_error.
  destruct (fetch_outcome _) as [[|o]|e']; cbn.
  - split; by intros [= ->].
  - destruct (api_payload o); [rewrite bool_decide_false by done|]; by split.
  - split; by intros [= ->].
Qed.

Lemma Promise_all_throw {A} (rs : list (Result A)) e :
  Promise_all race rs = Throw e → Throw e ∈ rs.
Proof.
  unfold Promise_all. destruct (rejections rs) as [|e0 es] eqn:E; [done|].
  intros [= <-].
  assert (nth (race (e0 :: es)) (e0 :: es) e0 ∈ rejections rs) as Hin.
  { rewrite E. destruct (decide (race (e0 :: es) < length (e0 :: es))%nat).
    - by apply nth_elem_of.
    - rewrite nth_overflow by lia. by left. }
  unfold rejections in Hin. apply list_elem_of_omap in Hin.
  destruct Hin as ([a|e'] & Hin & Hr); [done|]. by injection Hr as <-.
Qed.

Lemma Promise_all_rejected {A} (rs : list (Result A)) e :
  Throw e ∈ rs → ∃ e', Promise_all race rs = Throw e'.
Proof.
  intros Hin. unfold Promise_all.
  assert (e ∈ rejections rs) as He.
  { unfold rejections. apply list_elem_of_omap. by exists (Throw e). }
  destruct (rejections rs); [by apply elem_of_nil in He|by eexists].
Qed.

Lemma listMessages_run o w :
  listMessages server race parseSender o w =
  match request server (js "/messages?" ++ params_toString (list_params o))
          no_options w with
  | (Throw e, w1) => (Throw e, w1)
  | (Ok JNull, w1) => (Throw TypeError, w1)
  | (Ok (JObject response), w1) =>
      let ids := ref_id <$> default [] (api_messages response) in
      (match Promise_all race
               (detail_outcomes server parseSender (accessToken w) w1 ids) with
       | Ok ms => Ok {| messages := ms;
                        nextPageToken := api_nextPageToken response;
                        resultSizeEstimate := api_resultSizeEstimate response |}
       | Throw e => Throw e
       end,
       with_http_log
         (http_log w1
            ++ (detail_request (accessToken w) (js "metadata") <$> ids)) w1)
  end.
Proof.
  unfold listMessages, mbind at 1, M_bind at 1.
  destruct (request _ _ _ w) as [[[|response]|e] w1] eqn:Hreq; [done| |done].
  unfold mbind at 1, M_bind at 1, lift at 1. cbn [as_object]. cbv zeta.
  destruct (list_request_ok _ _ _ _ Hreq) as [Htok Hw1].
  assert (accessToken w1 = accessToken w) as Htok1 by by subst w1.
  unfold mbind at 1, M_bind at 1.
  rewrite (list_fmap_compose ref_id
             (λ id, getMessage server parseSender id (Some (js "metadata")))).
  rewrite settle_all_details by by rewrite Htok1.
  rewrite Htok1. unfold mbind, M_bind, lift, mret, M_ret.
  by destruct (Promise_all _ _).
Qed.

(** C2, as amended.  Every request that an operation issues follows the
    policy for failed responses: status 401 gives the auth-expired
    condition whatever the body; any other status that is not 2xx gives an
    error with the message of the provider's error body when it has one
    that is not empty, and with "API Error: " and the status otherwise.
    When the provider answers one of the requests with a response that is
    not 2xx and that has status 401 or a body other than the JSON value
    [null], an operation other than [listMessages] throws the error of the
    policy for that response and issues no further request; so does
    [listMessages] when the request is its list request.  When it is one of
    its detail requests, [listMessages] throws the error of one of its
    failed detail requests, of which the error of the policy for this
    response is one. *)
Theorem failed_response_policy op w reqs i r :
  http_log (perform server race parseSender op w).2 = http_log w ++ reqs →
  answer_to server (http_log w) reqs i = Some (FetchResponse r) →
  policy_covers r →
  let result := (perform server race parseSender op w).1 in
  match op, i with
  | OpListMessages _, S _ =>
      detail_error (FetchResponse r) = Some (policy_error r)
      ∧ ∃ e k f, result = Throw e
                 ∧ answer_to server (http_log w) reqs (S k) = Some f
                 ∧ detail_error f = Some e
  | _, _ => result = Throw (policy_error r) ∧ length reqs = S i
  end.
Proof.
  intros Hlog Ha Hc result.
  assert (∀ m : M Reply,
            stops_at_failure server m →
            http_log (m w).2 = http_log w ++ reqs →
            (m w).1 = Throw (policy_error r) ∧ length reqs = S i) as Hstops.
  { intros m Hm Hlogm. destruct (Hm w) as (reqs' & Hlog' & H').
    rewrite Hlogm in Hlog'. apply app_inv_head in Hlog' as <-.
    by apply H'. }
  destruct op as [| |o| | | | | | | | | | | |];
    try (apply Hstops; [by apply stops_perform|exact Hlog]).
  subst result. cbn [perform] in *. unfold fmap, M_fmap in *.
  rewrite listMessages_run in *.
  set (endpoint := js "/messages?" ++ params_toString (list_params o)) in *.
  pose proof (stops_request endpoint no_options w) as (r1 & Hlog1 & H1).
  pose proof (request_run endpoint no_options w) as Hrun.
  assert (length r1 ≤ 1)%nat as Hlen1.
  { rewrite Hrun in Hlog1. destruct (truthy_opt (accessToken w)).
    - apply app_inv_head in Hlog1 as <-. done.
    - cbn in Hlog1. rewrite <- (app_nil_r (http_log w)) in Hlog1 at 1.
      apply app_inv_head in Hlog1 as <-. cbn. lia. }
  destruct (request server endpoint no_options w) as [[[|response]|e] w1]
    eqn:Hreq; cbn [fst snd] in *.
  - (* the list response is null *)
    rewrite Hlog1 in Hlog. apply app_inv_head in Hlog as <-.
    by destruct (H1 i r Ha Hc) as [? _].
  - (* the list request succeeds *)
    cbv zeta in *.
    destruct (list_request_ok _ _ _ _ Hreq) as [Htok Hw1].
    set (ids := ref_id <$> default [] (api_messages response)) in *.
    set (outcomes := detail_outcomes server parseSender (accessToken w) w1 ids)
      in *.
    set (details := detail_request (accessToken w) (js "metadata") <$> ids)
      in *.
    assert (reqs = r1 ++ details) as Hreqs.
    { apply (app_inv_head (http_log w)).
      rewrite <- Hlog, (assoc_L (++)), <- Hlog1.
      by destruct (Promise_all race outcomes). }
    assert (r1 = [api_request (accessToken w) endpoint no_options]) as Hr1.
    { apply (app_inv_head (http_log w)). rewrite <- Hlog1. by subst w1. }
    assert (∀ k f, answer_to server (http_log w) reqs (S k) = Some f →
                   ∃ id, ids !! k = Some id
                         ∧ ∀ e, outcomes !! k = Some (Throw e)
                                ↔ detail_error f = Some e) as Hdetail.
    { intros k f Hf. unfold answer_to in Hf. rewrite Hreqs, Hr1 in Hf.
      cbn [app take] in Hf.
      change ((api_request (accessToken w) endpoint no_options :: details)
                !! S k) with (details !! k) in Hf.
      unfold details in Hf. rewrite list_lookup_fmap in Hf.
      destruct (ids !! k) as [id|] eqn:Hid; [|done]. cbn in Hf.
      injection Hf as <-. exists id. split; [done|]. intros e'.
      unfold outcomes, detail_outcomes. rewrite list_lookup_imap, Hid.
      cbn [fmap option_fmap option_map].
      set (wk := with_http_log
                   (http_log w1
                      ++ (detail_request (accessToken w) (js "metadata")
                            <$> take k ids)) w1).
      pose proof (detail_outcome id wk e') as Hout.
      assert (accessToken wk = accessToken w) as Hwk by by subst wk w1.
      assert (http_log wk
              = http_log w
                  ++ api_request (accessToken w) endpoint no_options
                  :: take k (detail_request (accessToken w) (js "metadata")
                               <$> ids)) as Hlk.
      { subst wk. cbn [http_log with_http_log].
        by rewrite Hlog1, Hr1, <- app_assoc, fmap_take. }
      rewrite Hwk, Hlk in Hout. rewrite <- Hout by done.
      split; [by intros [= ?]|by intros ->]. }
    destruct i as [|j].
    { unfold answer_to in Ha. rewrite Hreqs, Hr1 in Ha. cbn in Ha.
      rewrite app_nil_r in Ha. injection Ha as Ha.
      rewrite Htok in Hrun. cbv zeta in Hrun. rewrite Ha in Hrun. cbn in Hrun.
      by rewrite response_outcome_policy in Hrun. }
    assert (detail_error (FetchResponse r) = Some (policy_error r)) as Hr.
    { unfold detail_error. cbn. by rewrite response_outcome_policy. }
    split; [exact Hr|].
    destruct (Hdetail j _ Ha) as (id & Hid & Hj).
    apply Hj in Hr. apply list_elem_of_lookup_2 in Hr.
    destruct (Promise_all_rejected outcomes _ Hr) as (e' & He').
    rewrite He'. cbn [fst].
    apply Promise_all_throw, list_elem_of_lookup_1 in He' as (k & Hk).
    assert (is_Some (reqs !! S k)) as (req & Hreq').
    { apply lookup_lt_is_Some. apply lookup_lt_Some in Hk.
      rewrite Hreqs, Hr1. cbn. unfold details. rewrite length_fmap.
      unfold outcomes, detail_outcomes in Hk. rewrite length_imap in Hk. lia. }
    exists e', k, (server (http_log w ++ take (S k) reqs) req).
    split; [done|].
    assert (answer_to server (http_log w) reqs (S k)
            = Some (server (http_log w ++ take (S k) reqs) req)) as Hk'.
    { unfold answer_to. by rewrite Hreq'. }
    split; [exact Hk'|]. destruct (Hdetail k _ Hk') as (id' & _ & Hiff).
    by apply Hiff.
  - (* the list request fails *)
    rewrite Hlog1 in Hlog. apply app_inv_head in Hlog as <-.
    destruct (H1 i r Ha Hc) as [[= ->] Hl]. destruct i; [done|lia].
Qed.


(** C7, as amended.  For an original that the provider returns with its
    sender under the name [From] and a non-empty message id under the name
    [Message-ID], [replyToMessage] fetches the original in full format and
    then posts one message to the send endpoint.  The message is addressed
    to the [From] header of the original; its subject is that of the
    original, with "Re: " before it unless it starts with "Re:"; its
    [In-Reply-To] is the message id of the original; its [References] are
    those of the original followed by that message id, or the message id
    alone when the original has none; and the post names the thread of the
    original. *)
Theorem replyToMessage_sends messageId body w response w1 from mid :
  request server (message_endpoint messageId (js "full")) no_options w
    = (Ok (JObject response), w1) →
  (∀ payload, api_payload response = Some payload →
              existsb undecodable (walk payload) = false) →
  original_header (js "From") response = Some from →
  original_header (js "Message-ID") response = Some mid →
  truthy mid = true →
  let text :=
    reply_text from (original_header (js "Subject") response) mid
      (original_header (js "References") response) body in
  code_units text →
  ∃ raw result w2,
    base64Encode text = Ok raw
    ∧ (well_formed text = true → base64Decode raw = Ok text)
    ∧ replyToMessage server parseSender messageId (Some body) w = (result, w2)
    ∧ http_log w2 =
      http_log w
        ++ [detail_request (accessToken w) (js "full") messageId;
            api_request (accessToken w) (js "/messages/send")
              {| opt_method := Some (js "POST");
                 opt_body := Some (SendBody raw (reply_thread response)) |}].
Proof.
  intros Hreq Hdec Hfrom Hmid Htr text Hunits.
  destruct (base64Encode_total text Hunits) as [raw Hraw].
  destruct (list_request_ok _ _ _ _ Hreq) as [Htok Hw1].
  pose proof (getMessage_log messageId (js "full") w
                (or_intror eq_refl) Htok) as Hlog.
  assert (∃ original,
            getMessage server parseSender messageId (Some (js "full")) w
            = (Ok original, w1)
            ∧ msg_headers original
              = parseEmailHeaders (default empty_part (api_payload response))
            ∧ msg_threadId original = api_threadId response)
    as (original & Hget & Hheaders & Hthread).
  { rewrite getMessage_run. cbn [default from_option Datatypes.id]. cbv zeta.
    rewrite Hreq. destruct (api_payload response) as [payload|] eqn:Hp.
    - rewrite bool_decide_true by done.
      destruct (extractEmailBody_decodable payload (Hdec payload eq_refl))
        as [b ->]. cbn. eexists. split; [done|]. cbn. by rewrite Hp.
    - eexists. split; [done|]. cbn. by rewrite Hp. }
  rewrite Hget in Hlog. cbn [snd] in Hlog.
  assert (mime_text
            {| mime_to := send_to (reply_options original (Some body));
               mime_subject := send_subject (reply_options original (Some body));
               mime_body := send_body (reply_options original (Some body));
               mime_from := None;
               mime_inReplyTo :=
                 send_inReplyTo (reply_options original (Some body));
               mime_references :=
                 send_references (reply_options original (Some body)) |}
          = text) as Htext.
  { unfold reply_options. cbv zeta. rewrite Hheaders.
    change (js "from") with (toLowerCase (js "From")).
    change (js "subject") with (toLowerCase (js "Subject")).
    change (js "message-id") with (toLowerCase (js "Message-ID")).
    change (js "references") with (toLowerCase (js "References")).
    rewrite !parsed_header
      by (apply (bool_decide_unpack _); by vm_compute).
    rewrite Hfrom, Hmid. cbn [send_to send_subject send_body send_inReplyTo
      send_references].
    rewrite (reply_subject_code (original_header (js "Subject") response)).
    rewrite (reply_references_code
               (original_header (js "References") response) mid).
    subst text. apply reply_mime; [done|].
    by apply reply_references_truthy. }
  exists raw.
  destruct (replyToMessage server parseSender messageId (Some body) w)
    as [result w2] eqn:E.
  exists result, w2. split; [done|]. split.
  { intros Hwf. destruct (base64_decode_encode text Hwf) as (e & He & Hd).
    - by subst text.
    - rewrite Hraw in He. by injection He as <-. }
  split; [done|].
  unfold replyToMessage, mbind at 1, M_bind at 1 in E. rewrite Hget in E.
  unfold sendMessage, mbind at 1, M_bind at 1, lift at 1 in E.
  unfold createMimeMessage in E. rewrite Htext, Hraw in E.
  rewrite request_run in E. subst w1.
  cbn [accessToken with_http_log http_log] in E. rewrite Htok in E.
  cbv zeta in E. injection E as _ <-. cbn [http_log with_http_log].
  rewrite <- app_assoc. do 4 f_equal.
  unfold reply_options. cbn [send_threadId]. rewrite Hthread.
  unfold reply_thread. by destruct (api_threadId response) as [[|]|].
Qed.

End ClientProofs.

Lemma failed_response_policy_witness :
  let r := {| status := 401;
              body := JsonBody (example_error (js "Invalid Credentials")) |} in
  let op := OpReplyToMessage (Some (js "a")) (Some (js "Thanks")) in
  let run := perform expiring_server example_race example_parseSender op
               example_world in
  answer_to expiring_server (http_log example_world) (http_log run.2) 1%nat
    = Some (FetchResponse r)
  ∧ policy_covers r
  ∧ run.1 = Throw AUTH_EXPIRED
  ∧ length (http_log run.2) = 2%nat.
Proof.
  intros r op run.
  assert (answer_to expiring_server (http_log example_world) (http_log run.2) 1%nat
          = Some (FetchResponse r)) as Ha by by vm_compute.
  assert (policy_covers r) as Hc
    by (split; [reflexivity|split; [reflexivity|left; reflexivity]]).
  split; [exact Ha|]. split; [exact Hc|].
  exact (failed_response_policy expiring_server example_race
           example_parseSender op example_world (http_log run.2) 1%nat r
           eq_refl Ha Hc).
Defined.

(** C2, as stated, fails for [listMessages].  The provider answers 500 to
    the detail request for [b] and 401 to the one for [x]; the rejection of
    the first arrives first, and the call throws the error of the 500, not
    the auth-expired condition. *)
Lemma failed_response_masked_counterexample :
  let r := {| status := 401;
              body := JsonBody (example_error (js "Invalid Credentials")) |} in
  let run := perform masking_server example_race example_parseSender
               (OpListMessages default_options) example_world in
  answer_to masking_server (http_log example_world) (http_log run.2) 2%nat
    = Some (FetchResponse r)
  ∧ status r = 401
  ∧ run.1 = Throw (JsError (js "Backend Error"))
  ∧ run.1 ≠ Throw AUTH_EXPIRED.
Proof. by vm_compute. Qed.

(** The cases on examples: 401 with a body that carries a message and with
    the body [null], 500 with a message, 503 without a body, and 500 with
    the body [null], where reading the message of the error fails. *)
Example failed_response_examples :
  let answer status body :=
    (perform (constant_server {| status := status; body := body |})
       example_race example_parseSender (OpTrashMessage (Some (js "a")))
       example_world).1 in
  answer 401 (JsonBody (example_error (js "Invalid Credentials")))
    = Throw (JsError (js "AUTH_EXPIRED"))
  ∧ answer 401 JsonNull = Throw (JsError (js "AUTH_EXPIRED"))
  ∧ answer 500 (JsonBody (example_error (js "Backend Error")))
    = Throw (JsError (js "Backend Error"))
  ∧ answer 503 EmptyBody = Throw (JsError (js "API Error: 503"))
  ∧ answer 500 JsonNull = Throw TypeError.
Proof. by vm_compute. Qed.


(** On the example the provider lists [a], [b], [c] and fails on [b]: three
    detail requests are issued after the list request and the call throws;
    when it lists [a] and [c] both are returned, in that order. *)
Example listMessages_examples :
  let failed := listMessages example_server example_race example_parseSender
                  default_options example_world in
  let fetched := listMessages example_server example_race example_parseSender
                   unread_options example_world in
  failed.1 = Throw (JsError (js "Backend Error"))
  ∧ req_url <$> http_log failed.2
    = (λ p, GMAIL_API_BASE ++ js p)
        <$> ["/messages?maxResults=20&labelIds=INBOX";
             "/messages/a?format=metadata"; "/messages/b?format=metadata";
             "/messages/c?format=metadata"]%string
  ∧ (match fetched.1 with
     | Ok l => msg_id <$> messages l
     | Throw _ => []
     end) = [Some (js "a"); Some (js "c")].
Proof. by vm_compute. Qed.

Lemma replyToMessage_sends_witness :
  ∃ response w1,
    request example_server (message_endpoint (Some (js "a")) (js "full"))
      no_options example_world = (Ok (JObject response), w1)
    ∧ original_header (js "From") response = Some (js "jane@x.com")
    ∧ original_header (js "Message-ID") response = Some (js "<2@x.com>")
    ∧ let text :=
        reply_text (js "jane@x.com") (original_header (js "Subject") response)
          (js "<2@x.com>") (original_header (js "References") response)
          (js "Thanks") in
      code_units text
      ∧ ∃ raw result w2,
          base64Encode text = Ok raw
          ∧ (well_formed text = true → base64Decode raw = Ok text)
          ∧ replyToMessage example_server example_parseSender (Some (js "a"))
              (Some (js "Thanks")) example_world = (result, w2)
          ∧ http_log w2 =
            http_log example_world
              ++ [detail_request (accessToken example_world) (js "full")
                    (Some (js "a"));
                  api_request (accessToken example_world) (js "/messages/send")
                    {| opt_method := Some (js "POST");
                       opt_body :=
                         Some (SendBody raw (reply_thread response)) |}].
Proof.
  destruct (request example_server
              (message_endpoint (Some (js "a")) (js "full")) no_options
              example_world) as [[[|response]|e] w1] eqn:E;
    [by vm_compute in E| |by vm_compute in E].
  assert (response = example_message (js "a")) as Hresp
    by (vm_compute in E; by injection E as <- <-).
  assert (original_header (js "From") response = Some (js "jane@x.com"))
    as Hfrom by (rewrite Hresp; by vm_compute).
  assert (original_header (js "Message-ID") response = Some (js "<2@x.com>"))
    as Hmid by (rewrite Hresp; by vm_compute).
  assert (code_units
            (reply_text (js "jane@x.com")
               (original_header (js "Subject") response) (js "<2@x.com>")
               (original_header (js "References") response) (js "Thanks")))
    as Hunits.
  { rewrite Hresp. apply (bool_decide_unpack _). by vm_compute. }
  assert (∀ payload, api_payload response = Some payload →
                     existsb undecodable (walk payload) = false) as Hdec.
  { rewrite Hresp. intros payload [= <-]. by vm_compute. }
  exists response, w1. split; [reflexivity|]. split; [exact Hfrom|].
  split; [exact Hmid|]. intros text. split; [exact Hunits|].
  exact (replyToMessage_sends example_server example_parseSender
           (Some (js "a")) (js "Thanks") example_world response w1
           (js "jane@x.com") (js "<2@x.com>") E Hdec Hfrom Hmid eq_refl Hunits).
Defined.

(** C7, as stated, fails for an original whose message id comes under the
    name [Message-Id]: the header is not among those that are kept, the
    reply carries no [In-Reply-To], and its [References] end with the text
    [undefined]. *)
Lemma replyToMessage_variant_counterexample :
  match
    last (http_log (replyToMessage variant_server example_parseSender
                      (Some (js "v")) (Some (js "Thanks")) example_world).2)
  with
  | Some {| req_body := Some (SendBody raw thread) |} =>
      base64Decode raw
      = Ok (js "To: jane@x.com" ++ [13; 10]
            ++ js "Subject: Re: Lunch" ++ [13; 10]
            ++ js "MIME-Version: 1.0" ++ [13; 10]
            ++ js "Content-Type: text/plain; charset=UTF-8" ++ [13; 10]
            ++ js "References: <1@x.com> undefined" ++ [13; 10; 13; 10]
            ++ js "Thanks")
      ∧ base64Decode raw
        ≠ Ok (reply_text (js "jane@x.com") (Some (js "Lunch")) (js "<2@x.com>")
                (Some (js "<1@x.com>")) (js "Thanks"))
  | _ => False
  end.
Proof. by vm_compute. Qed.

(** The reply to the example message, as text and as posted. *)
Example replyToMessage_example :
  reply_text (js "jane@x.com") (Some (js "Lunch")) (js "<2@x.com>")
    (Some (js "<1@x.com>")) (js "Thanks")
  = js "To: jane@x.com" ++ [13; 10]
    ++ js "Subject: Re: Lunch" ++ [13; 10]
    ++ js "MIME-Version: 1.0" ++ [13; 10]
    ++ js "Content-Type: text/plain; charset=UTF-8" ++ [13; 10]
    ++ js "In-Reply-To: <2@x.com>" ++ [13; 10]
    ++ js "References: <1@x.com> <2@x.com>" ++ [13; 10; 13; 10]
    ++ js "Thanks"
  ∧ match
      last (http_log (replyToMessage example_server example_parseSender
                        (Some (js "a")) (Some (js "Thanks")) example_world).2)
    with
    | Some {| req_body := Some (SendBody raw (Some thread)) |} =>
        thread = js "thread-1"
        ∧ base64Decode raw
          = Ok (reply_text (js "jane@x.com") (Some (js "Lunch")) (js "<2@x.com>")
                  (Some (js "<1@x.com>")) (js "Thanks"))
    | _ => False
    end.
Proof. by vm_compute. Qed.

(** ** The notification poller *)

Section PollerProofs.

Variable server : list Request → Request → FetchOutcome.
Variable race : list Exn → nat.
Variable parseSender : option jsstring → Sender.

Lemma authenticateSilently_run w :
  authenticateSilently w =
    if truthy_opt (identity_cache w)
    then (Ok (identity_cache w), with_accessToken (identity_cache w) w)
    else (Ok None, w).
Proof.
  unfold authenticateSilently, getAuthToken_silent, mbind, M_bind, gets.
  destruct (identity_cache w) as [token|]; [|done]. cbn.
  by destruct (truthy token).
Qed.

Lemma notify_new_run ms w :
  notify_new ms w =
    (Ok tt,
     with_notifications
       (notifications w
          ++ (notification_for
                <$> filter (λ m, msg_id m ∉ lastKnownMessageIds w) ms)) w).
Proof.
  revert w. induction ms as [|m ms IH]; intros w.
  - cbn. rewrite app_nil_r. by destruct w.
  - cbn [notify_new]. unfold mbind at 1, M_bind at 1, gets at 1.
    unfold mbind at 1, M_bind at 1.
    case_bool_decide as Hin.
    + unfold mret at 1, M_ret at 1. rewrite IH.
      by rewrite filter_cons_False by (by intros ?).
    + unfold showNotification, modify. rewrite IH.
      rewrite filter_cons_True by done. cbn. by rewrite <- app_assoc.
Qed.

Lemma listMessages_frame o w :
  let w' := (listMessages server race parseSender o w).2 in
  accessToken w' = accessToken w
  ∧ lastKnownMessageIds w' = lastKnownMessageIds w
  ∧ identity_cache w' = identity_cache w
  ∧ storage w' = storage w
  ∧ notifications w' = notifications w.
Proof.
  intros w'. pose proof (only_logs_listMessages server race parseSender o w)
    as H. fold w' in H. unfold same_but_log in H. by rewrite H.
Qed.

Lemma checkForNewEmails_early w :
  exits_early server race parseSender w = true →
  ∃ w', checkForNewEmails server race parseSender w = (Ok tt, w')
        ∧ lastKnownMessageIds w' = lastKnownMessageIds w
        ∧ notifications w' = notifications w.
Proof.
  unfold exits_early, checkForNewEmails, try_catch.
  unfold mbind at 1, M_bind at 1. rewrite authenticateSilently_run.
  destruct (truthy_opt (identity_cache w)) eqn:Hc; cbn [negb orb].
  2:{ intros _. by eexists. }
  rewrite Hc. cbn [negb]. unfold mbind at 1, M_bind at 1, gets at 1.
  cbn [storage with_accessToken].
  destruct (bool_decide (notificationsEnabled (storage w) = Some false));
    cbn [orb].
  { intros _. by eexists. }
  fold (polling_state w). unfold mbind at 1, M_bind at 1.
  pose proof (listMessages_frame unread_options (polling_state w))
    as (_ & Hk & _ & _ & Hn). cbv zeta in Hk, Hn.
  destruct (listMessages _ _ _ _ _) as [[r|e] w1]; cbn [fst is_ok negb];
    [done|]. intros _. by eexists.
Qed.

Lemma checkForNewEmails_fetched w r w1 :
  truthy_opt (identity_cache w) = true →
  notificationsEnabled (storage w) ≠ Some false →
  listMessages server race parseSender unread_options (polling_state w)
    = (Ok r, w1) →
  ∃ w', checkForNewEmails server race parseSender w = (Ok tt, w')
    ∧ lastKnownMessageIds w' = list_to_set (msg_id <$> messages r)
    ∧ notifications w' =
        notifications w
          ++ (if decide (lastKnownMessageIds w = ∅) then []
              else notification_for
                     <$> filter (λ m, msg_id m ∉ lastKnownMessageIds w)
                                (messages r)).
Proof.
  intros Hc Hs Hlist. unfold checkForNewEmails, try_catch.
  unfold mbind at 1, M_bind at 1. rewrite authenticateSilently_run, Hc.
  rewrite Hc. cbn [negb]. unfold mbind at 1, M_bind at 1, gets at 1.
  cbn [storage with_accessToken].
  rewrite bool_decide_eq_false_2 by done.
  fold (polling_state w). unfold mbind at 1, M_bind at 1. rewrite Hlist.
  pose proof (listMessages_frame unread_options (polling_state w))
    as (_ & Hk & _ & _ & Hn). rewrite Hlist in Hk, Hn. cbn in Hk, Hn.
  unfold mbind at 1, M_bind at 1, gets at 1. rewrite Hk.
  unfold mbind at 1, M_bind at 1.
  destruct (decide (lastKnownMessageIds w = ∅)) as [He|Hne].
  - rewrite He, size_empty. cbn. eexists. split; [done|].
    cbn. by rewrite app_nil_r.
  - assert ((0 <? size (lastKnownMessageIds w))%nat = true) as ->.
    { apply Nat.ltb_lt.
      assert (size (lastKnownMessageIds w) ≠ 0%nat); [|lia].
      apply size_non_empty_iff. by intros ?%leibniz_equiv. }
    rewrite notify_new_run. unfold modify. eexists. split; [done|].
    cbn. by rewrite Hk, Hn.
Qed.

Lemma signOut_uncached w :
  truthy_opt (identity_cache w) = false →
  signOut server w = (Ok tt, with_accessToken None w).
Proof.
  intros Hc. unfold signOut, getAuthToken_silent, mbind at 1, M_bind at 1, gets.
  by rewrite Hc.
Qed.

Lemma signOut_cached w :
  truthy_opt (identity_cache w) = true →
  ∃ w', signOut server w = (Ok tt, w')
        ∧ accessToken w' = None ∧ lastKnownMessageIds w' = ∅.
Proof.
  intros Hc. unfold signOut, getAuthToken_silent, mbind at 1, M_bind at 1, gets.
  rewrite Hc. unfold mbind, M_bind, try_catch, fetch, modify, mret, M_ret,
    removeCachedAuthToken, setAccessToken, modify.
  destruct (server _ _); by eexists.
Qed.

(** C5.  A poll cycle that obtains a token, finds notifications not
    disabled and fetches the unread messages replaces the last-seen set with
    the ids fetched.  When the set was empty it raises no notification;
    otherwise it raises one notification for each fetched message whose id
    was not in the set, in the order fetched, and the notification's id is
    the fixed prefix followed by the message id. *)
Theorem checkForNewEmails_notifies w r w1 :
  truthy_opt (identity_cache w) = true →
  notificationsEnabled (storage w) ≠ Some false →
  listMessages server race parseSender unread_options (polling_state w)
    = (Ok r, w1) →
  ∃ w', checkForNewEmails server race parseSender w = (Ok tt, w')
    ∧ lastKnownMessageIds w' = list_to_set (msg_id <$> messages r)
    ∧ notifications w' =
        notifications w
          ++ (if decide (lastKnownMessageIds w = ∅) then []
              else notification_for
                     <$> filter (λ m, msg_id m ∉ lastKnownMessageIds w)
                                (messages r))
    ∧ ∀ m, notificationId (notification_for m)
           = js "exmail-new-" ++ tpl (msg_id m).
Proof.
  intros Hc Hs Hlist.
  destruct (checkForNewEmails_fetched w r w1 Hc Hs Hlist) as (w' & ? & ? & ?).
  by exists w'.
Qed.

(** C10.  A poll cycle that exits early, because no token is obtained
    silently, or notifications are disabled, or the fetch of the unread
    messages throws, returns normally and leaves the last-seen set (and the
    notifications) as they were; so a cycle that changes the set is one
    whose fetch succeeded. *)
Theorem checkForNewEmails_early_exit w :
  (exits_early server race parseSender w = true →
   ∃ w', checkForNewEmails server race parseSender w = (Ok tt, w')
         ∧ lastKnownMessageIds w' = lastKnownMessageIds w
         ∧ notifications w' = notifications w)
  ∧ (lastKnownMessageIds (checkForNewEmails server race parseSender w).2
       ≠ lastKnownMessageIds w →
     truthy_opt (identity_cache w) = true
     ∧ notificationsEnabled (storage w) ≠ Some false
     ∧ is_ok (listMessages server race parseSender unread_options
                (polling_state w)).1 = true).
Proof.
  split; [apply checkForNewEmails_early|]. intros Hchanged.
  destruct (exits_early server race parseSender w) eqn:He.
  - destruct (checkForNewEmails_early w He) as (w' & Hrun & Hk & _).
    rewrite Hrun in Hchanged. by destruct Hchanged.
  - unfold exits_early in He. apply orb_false_iff in He as [He Hl].
    apply orb_false_iff in He as [Hc Hs]. apply negb_false_iff in Hc, Hl.
    by apply bool_decide_eq_false in Hs.
Qed.

End PollerProofs.

Lemma checkForNewEmails_notifies_witness :
  ∃ r w1,
    truthy_opt (identity_cache example_world_seen) = true
    ∧ notificationsEnabled (storage example_world_seen) ≠ Some false
    ∧ listMessages example_server example_race example_parseSender
        unread_options (polling_state example_world_seen) = (Ok r, w1)
    ∧ ∃ w', checkForNewEmails example_server example_race example_parseSender
              example_world_seen = (Ok tt, w')
      ∧ lastKnownMessageIds w' = list_to_set (msg_id <$> messages r)
      ∧ notifications w' =
          notifications example_world_seen
            ++ (if decide (lastKnownMessageIds example_world_seen = ∅) then []
                else notification_for
                       <$> filter (λ m, msg_id m
                                        ∉ lastKnownMessageIds example_world_seen)
                                  (messages r))
      ∧ ∀ m, notificationId (notification_for m)
             = js "exmail-new-" ++ tpl (msg_id m).
Proof.
  destruct (listMessages example_server example_race example_parseSender
              unread_options (polling_state example_world_seen))
    as [[r|e] w1] eqn:E; [|by vm_compute in E].
  exists r, w1. split; [reflexivity|]. split; [discriminate|].
  split; [reflexivity|].
  exact (checkForNewEmails_notifies example_server example_race
           example_parseSender example_world_seen r w1
           eq_refl ltac:(discriminate) E).
Defined.

(** On the example: message [a] was seen, the provider lists [a] and [c] as
    unread, and one notification is raised, for [c]. *)
Example checkForNewEmails_example :
  notificationId
    <$> notifications (checkForNewEmails example_server example_race
                         example_parseSender example_world_seen).2
  = [js "exmail-new-c"]
  ∧ notifications (checkForNewEmails example_server example_race
                     example_parseSender example_world).2 = [].
Proof. by vm_compute. Qed.

Lemma checkForNewEmails_early_exit_witness :
  exits_early example_server example_race example_parseSender
    example_world_uncached = true
  ∧ ∃ w', checkForNewEmails example_server example_race example_parseSender
            example_world_uncached = (Ok tt, w')
          ∧ lastKnownMessageIds w' = lastKnownMessageIds example_world_uncached
          ∧ notifications w' = notifications example_world_uncached.
Proof.
  split; [reflexivity|].
  apply (checkForNewEmails_early_exit example_server example_race
           example_parseSender example_world_uncached).
  reflexivity.
Defined.

(** C9 fails on this input: with no cached credential, [signOut] clears the
    client's token and leaves the last-seen ids in place; with a cached
    credential it clears both. *)
Theorem signOut_leaves_ids server :
  signOut server example_world_uncached
    = (Ok tt, with_accessToken None example_world_uncached)
  ∧ accessToken (signOut server example_world_uncached).2 = None
  ∧ lastKnownMessageIds (signOut server example_world_uncached).2
    = {[ Some (js "a") ]}
  ∧ lastKnownMessageIds (signOut server example_world_uncached).2 ≠ ∅
  ∧ lastKnownMessageIds (signOut server example_world_seen).2 = ∅.
Proof.
  rewrite signOut_uncached by reflexivity.
  destruct (signOut_cached server example_world_seen eq_refl)
    as (w' & -> & _ & Hcleared).
  split; [done|]. split; [done|]. split; [done|]. split; [|done].
  cbn. apply non_empty_singleton_L.
Qed.

(** * Further properties *)

(** ** The MIME message *)

Lemma b64_char_url_safe i :
  i < 64 →
  url_safe (if (if b64_char i =? 43 then 45 else b64_char i) =? 47 then 95
            else if b64_char i =? 43 then 45 else b64_char i) = true.
Proof.
  intros Hi. unfold b64_char, url_safe.
  destruct (N.ltb_spec i 26); [|destruct (N.ltb_spec i 52);
    [|destruct (N.ltb_spec i 62); [|destruct (N.eqb_spec i 62)]]];
  settle_tests; reflexivity.
Qed.

Lemma to_url_safe vs :
  Forall (λ v, v < 64) vs → Forall (λ c, url_safe c = true) (to_url (b64_char <$> vs)).
Proof.
  intros Hvs. unfold to_url. rewrite !replace_all_map, <- !list_fmap_compose.
  apply Forall_fmap. eapply Forall_impl; [exact Hvs|]. intros v Hv. cbn.
  by apply b64_char_url_safe.
Qed.

(** X1.  The transport encoding of a string of code units is made of
    letters, digits, [-] and [_] only: it has no [+], no [/] and no
    padding. *)
Theorem base64Encode_url_safe s :
  code_units s →
  ∃ e, base64Encode s = Ok e ∧ Forall (λ c, url_safe c = true) e.
Proof.
  intros Hs.
  assert (bytes (TextEncoder_encode s)) as Hb
    by by apply utf8_bytes, to_scalars_scalar.
  eexists. split; [by apply base64Encode_bytes|].
  by apply to_url_safe, sextets_bound.
Qed.

Lemma mime_text_head_letter o :
  head (mime_text o) = Some 70 ∨ head (mime_text o) = Some 84.
Proof.
  unfold mime_text, mime_headers.
  destruct (truthy_opt (mime_from o)), (truthy_opt (mime_inReplyTo o)),
    (truthy_opt (mime_references o)); auto.
Qed.

(** X2.  The raw message that [createMimeMessage] returns decodes back,
    with [base64Decode], to the message text, when that text is well-formed
    UTF-16. *)
Theorem createMimeMessage_decodes o :
  well_formed (mime_text o) = true →
  ∃ raw, createMimeMessage o = Ok raw ∧ base64Decode raw = Ok (mime_text o).
Proof.
  intros Hwf. apply base64_decode_encode; [done|].
  destruct (mime_text_head_letter o) as [-> | ->]; discriminate.
Qed.

Lemma split_blank_line_here body :
  split_blank_line ([13; 10; 13; 10] ++ body) = Some ([], body).
Proof. by destruct body. Qed.

Lemma split_blank_line_skip c t :
  c ≠ 13 →
  split_blank_line (c :: t) = (λ p, (c :: p.1, p.2)) <$> split_blank_line t.
Proof.
  intros Hc. cbn [split_blank_line startsWith].
  apply N.eqb_neq in Hc. rewrite N.eqb_sym in Hc. by rewrite Hc.
Qed.

Lemma split_blank_line_line l t :
  no_CR l →
  split_blank_line (l ++ t) = (λ p, (l ++ p.1, p.2)) <$> split_blank_line t.
Proof.
  induction 1 as [|c l Hc _ IH]; cbn [app].
  - by destruct (split_blank_line t) as [[? ?]|].
  - rewrite split_blank_line_skip, IH by done.
    by destruct (split_blank_line t) as [[? ?]|].
Qed.

(** A line break that is followed by a character other than [CR]. *)
Lemma split_blank_line_break c t :
  c ≠ 13 →
  split_blank_line (13 :: 10 :: c :: t) =
  (λ p, (13 :: 10 :: p.1, p.2)) <$> split_blank_line (c :: t).
Proof.
  intros Hc.
  assert (startsWith [13; 10; 13; 10] (13 :: 10 :: c :: t) = false) as H1.
  { cbn [startsWith]. apply N.eqb_neq in Hc. rewrite N.eqb_sym in Hc.
    rewrite Hc. by rewrite andb_false_r. }
  assert (split_blank_line (13 :: 10 :: c :: t) =
          (λ p, (13 :: p.1, p.2)) <$> split_blank_line (10 :: c :: t)) as ->.
  { change (split_blank_line (13 :: 10 :: c :: t)) with
      (if startsWith [13; 10; 13; 10] (13 :: 10 :: c :: t)
       then Some ([], drop 4 (13 :: 10 :: c :: t))
       else (λ p, (13 :: p.1, p.2)) <$> split_blank_line (10 :: c :: t)).
    by rewrite H1. }
  rewrite (split_blank_line_skip 10) by done.
  by destruct (split_blank_line (c :: t)) as [[? ?]|].
Qed.

Lemma split_blank_line_lines lines body :
  lines ≠ [] → Forall header_line lines →
  split_blank_line (join [13; 10] lines ++ [13; 10; 13; 10] ++ body)
  = Some (join [13; 10] lines, body).
Proof.
  intros Hne Hlines. induction Hlines as [|l lines [Hl Hcr] Hrest IH]; [done|].
  destruct lines as [|l' lines'].
  - cbn [join]. rewrite split_blank_line_line, split_blank_line_here by done.
    cbn. by rewrite app_nil_r.
  - change (join [13; 10] (l :: l' :: lines'))
      with (l ++ [13; 10] ++ join [13; 10] (l' :: lines')).
    rewrite <- !app_assoc. rewrite split_blank_line_line by done.
    apply Forall_cons in Hrest as [[Hl' Hcr'] _].
    destruct l' as [|c l'']; [done|].
    apply Forall_cons in Hcr' as Hc. destruct Hc as [Hc _].
    assert (∃ t, join [13; 10] ((c :: l'') :: lines') = c :: t) as [t Ht].
    { destruct lines'; cbn; eauto. }
    specialize (IH ltac:(done)). rewrite Ht in IH |- *.
    cbn [app]. cbn [app] in IH. rewrite split_blank_line_break by done.
    rewrite IH. by cbn.
Qed.

Lemma header_line_field (name : string) value :
  js name ≠ [] → no_CR (js name) → no_CR value → header_line (js name ++ value).
Proof.
  intros Hne Hn Hv. split; [|by apply Forall_app].
  destruct (js name); [done|discriminate].
Qed.

Ltac literal_no_CR := by apply (bool_decide_unpack _); vm_compute.

Lemma mime_headers_lines o :
  no_CR (tpl (mime_to o)) → no_CR (tpl (mime_subject o)) →
  no_CR (tpl (mime_from o)) → no_CR (tpl (mime_inReplyTo o)) →
  no_CR (tpl (mime_references o)) →
  mime_headers o ≠ [] ∧ Forall header_line (mime_headers o).
Proof.
  intros Hto Hsubject Hfrom Hirt Hrefs. unfold mime_headers.
  assert (header_line (js "To: " ++ tpl (mime_to o))) as H1
    by (apply header_line_field; [done|unfold no_CR; literal_no_CR|done]).
  assert (header_line (js "Subject: " ++ tpl (mime_subject o))) as H2
    by (apply header_line_field; [done|unfold no_CR; literal_no_CR|done]).
  assert (header_line (js "MIME-Version: 1.0")) as H3
    by (split; [done|unfold no_CR; literal_no_CR]).
  assert (header_line (js "Content-Type: text/plain; charset=UTF-8")) as H4
    by (split; [done|unfold no_CR; literal_no_CR]).
  assert (header_line (js "From: " ++ tpl (mime_from o))) as H5
    by (apply header_line_field; [done|unfold no_CR; literal_no_CR|done]).
  assert (header_line (js "In-Reply-To: " ++ tpl (mime_inReplyTo o))) as H6
    by (apply header_line_field; [done|unfold no_CR; literal_no_CR|done]).
  assert (header_line (js "References: " ++ tpl (mime_references o))) as H7
    by (apply header_line_field; [done|unfold no_CR; literal_no_CR|done]).
  destruct (truthy_opt (mime_from o)), (truthy_opt (mime_inReplyTo o)),
    (truthy_opt (mime_references o)); cbn [app];
    (split; [done|repeat (constructor; [assumption|]); constructor]).
Qed.

(** X3.  When no header field holds a carriage return, the first blank line
    of the message text is the one [createMimeMessage] puts between the
    headers and the body. *)
Theorem mime_text_blank_line o :
  no_CR (tpl (mime_to o)) → no_CR (tpl (mime_subject o)) →
  no_CR (tpl (mime_from o)) → no_CR (tpl (mime_inReplyTo o)) →
  no_CR (tpl (mime_references o)) →
  split_blank_line (mime_text o)
  = Some (join [13; 10] (mime_headers o), tpl (mime_body o)).
Proof.
  intros Hto Hsubject Hfrom Hirt Hrefs.
  destruct (mime_headers_lines o Hto Hsubject Hfrom Hirt Hrefs) as [Hne Hl].
  unfold mime_text. by apply split_blank_line_lines.
Qed.

Example mime_text_example :
  mime_text (example_mime (js "Hi"))
  = js "From: me@x.com" ++ [13; 10] ++ js "To: bob@x.com" ++ [13; 10]
    ++ js "Subject: Hi" ++ [13; 10] ++ js "MIME-Version: 1.0" ++ [13; 10]
    ++ js "Content-Type: text/plain; charset=UTF-8" ++ [13; 10; 13; 10]
    ++ js "Hello"
  ∧ (snd <$> split_blank_line
               (mime_text (example_mime (js "Hi" ++ [13; 10; 13; 10] ++ js "x"))))
    ≠ Some (js "Hello").
Proof. by vm_compute. Qed.

Lemma base64Encode_url_safe_witness :
  code_units (js "a?>")
  ∧ ∃ e, base64Encode (js "a?>") = Ok e ∧ Forall (λ c, url_safe c = true) e.
Proof.
  assert (code_units (js "a?>")) as H
    by (apply (bool_decide_unpack _); by vm_compute).
  split; [exact H|]. exact (base64Encode_url_safe (js "a?>") H).
Defined.

Lemma createMimeMessage_decodes_witness :
  well_formed (mime_text (example_mime (js "Hi"))) = true
  ∧ ∃ raw, createMimeMessage (example_mime (js "Hi")) = Ok raw
           ∧ base64Decode raw = Ok (mime_text (example_mime (js "Hi"))).
Proof.
  assert (well_formed (mime_text (example_mime (js "Hi"))) = true) as H
    by by vm_compute.
  split; [exact H|]. exact (createMimeMessage_decodes (example_mime (js "Hi")) H).
Defined.

Lemma mime_text_blank_line_witness :
  no_CR (js "Hi")
  ∧ split_blank_line (mime_text (example_mime (js "Hi")))
    = Some (join [13; 10] (mime_headers (example_mime (js "Hi"))), js "Hello").
Proof.
  split; [apply (bool_decide_unpack _); by vm_compute|].
  apply (mime_text_blank_line (example_mime (js "Hi")));
    apply (bool_decide_unpack _); by vm_compute.
Defined.

(** ** Which part wins in [extractEmailBody] *)

Lemma default_last_cons {A} (d x : A) l :
  default d (last (x :: l)) = default x (last l).
Proof.
  revert d x. induction l as [|y l IH]; intros d x; [done|].
  change (last (x :: y :: l)) with (last (y :: l)). by rewrite !IH.
Qed.

Lemma html_plain_distinct : js "text/plain" ≠ js "text/html".
Proof. by vm_compute. Qed.

Lemma process_own_step p r :
  undecodable p = false →
  process_own p r =
  Ok {| html := if sets_html p then decoded_text p else html r;
        plain := if sets_plain p then decoded_text p else plain r |}.
Proof.
  intros Hp. pose proof (process_own_cases p r) as Hown.
  unfold undecodable in Hp. unfold sets_html, sets_plain, decoded_text.
  destruct (decoded_data p) as [d|]; [|by destruct r].
  destruct (base64Decode d) as [decoded|e]; [|done]. rewrite Hown.
  destruct (decide (mimeType p = Some (js "text/html"))) as [Hh|Hh].
  - rewrite (bool_decide_eq_true_2 _ Hh).
    rewrite bool_decide_eq_false_2; [done|].
    rewrite Hh. intros H. apply html_plain_distinct. congruence.
  - rewrite (bool_decide_eq_false_2 _ Hh).
    clear Hown.
    destruct (bool_decide (mimeType p = Some (js "text/plain")));
      [done|by destruct r].
Qed.

Lemma process_all_last l r :
  existsb undecodable l = false →
  process_all l r =
  Ok {| html := default (html r)
                  (last (decoded_text <$> filter (λ p, sets_html p = true) l));
        plain := default (plain r)
                   (last (decoded_text <$> filter (λ p, sets_plain p = true) l))
     |}.
Proof.
  revert r. induction l as [|p l IH]; intros r Hl.
  - by destruct r.
  - cbn [existsb] in Hl. apply orb_false_iff in Hl as [Hp Hl].
    cbn [process_all]. rewrite process_own_step by done.
    unfold mbind, Result_bind. rewrite IH by done. cbn [html plain].
    rewrite !filter_cons.
    destruct (sets_html p), (sets_plain p).
    all: repeat (destruct (decide _) as [?|?]; try done).
    all: cbn [fmap list_fmap]; by rewrite ?default_last_cons.
Qed.

(** X4.  Parts are visited depth first, a part before its subparts, and the
    last part of each kind wins: [plain] is the text of the last
    [text/plain] part that has data, [html] that of the last [text/html]
    part, or the escaped plain text when that is empty. *)
Theorem extractEmailBody_last_part_wins payload :
  existsb undecodable (walk payload) = false →
  extractEmailBody payload =
  Ok (let p := last_text sets_plain (walk payload) in
      let h := last_text sets_html (walk payload) in
      {| html := if negb (truthy h) && truthy p then plain_to_html p else h;
         plain := p |}).
Proof.
  intros Hok. unfold extractEmailBody. rewrite processPayload_walk.
  rewrite process_all_last by done. cbn [html plain]. unfold last_text.
  cbv zeta. unfold mbind, Result_bind, mret, Result_ret. cbn [html plain].
  by destruct (negb _ && _).
Qed.

Example extractEmailBody_last_part_wins_example :
  extractEmailBody example_multipart
  = Ok {| html := js "<b>1</b>"; plain := js "two" |}.
Proof. by vm_compute. Qed.

Lemma extractEmailBody_last_part_wins_witness :
  existsb undecodable (walk example_multipart) = false
  ∧ extractEmailBody example_multipart =
    Ok (let p := last_text sets_plain (walk example_multipart) in
        let h := last_text sets_html (walk example_multipart) in
        {| html := if negb (truthy h) && truthy p then plain_to_html p else h;
           plain := p |}).
Proof.
  assert (existsb undecodable (walk example_multipart) = false) as H
    by by vm_compute.
  split; [exact H|]. exact (extractEmailBody_last_part_wins example_multipart H).
Defined.

(** ** More on the API client *)


Lemma with_http_log_same w : with_http_log (http_log w ++ []) w = w.
Proof. rewrite app_nil_r. by destruct w. Qed.

Lemma issues_requests_pure {A} (m : M A) :
  (∀ w, (m w).2 = w) → issues_requests m.
Proof.
  intros H w. exists []. by rewrite H, with_http_log_same.
Qed.

Lemma issues_requests_bind {A B} (m : M A) (f : A → M B) :
  issues_requests m → (∀ a, issues_requests (f a)) → issues_requests (m ≫= f).
Proof.
  intros Hm Hf w. unfold mbind, M_bind. destruct (Hm w) as (l1 & H1 & Ha1).
  destruct (m w) as [[a|e] w1]; cbn [snd] in H1; [|by exists l1].
  destruct (Hf a w1) as (l2 & H2 & Ha2). exists (l1 ++ l2). subst w1.
  cbn in H2, Ha2. rewrite H2, (assoc_L (++)). split; [done|].
  by apply Forall_app.
Qed.

Lemma issues_requests_fmap {A B} (g : A → B) (m : M A) :
  issues_requests m → issues_requests (g <$> m).
Proof.
  intros Hm w. unfold fmap, M_fmap. destruct (Hm w) as (l & H & Ha).
  exists l. by destruct (m w) as [[a|e] w1].
Qed.

Lemma issues_requests_settle {A} (m : M A) :
  issues_requests m → issues_requests (settle m).
Proof.
  intros Hm w. unfold settle. destruct (Hm w) as (l & H & Ha). exists l.
  by destruct (m w).
Qed.

Lemma issues_requests_settle_all {A} (ms : list (M A)) :
  Forall issues_requests ms → issues_requests (settle_all ms).
Proof.
  induction 1 as [|m ms Hm _ IH]; [by apply issues_requests_pure|].
  cbn. apply issues_requests_bind; [by apply issues_requests_settle|].
  intros r. apply issues_requests_bind; [done|]. intros rs.
  by apply issues_requests_pure.
Qed.

Lemma startsWith_app p s : startsWith p (p ++ s) = true.
Proof. induction p as [|a p IH]; [done|]. cbn. by rewrite N.eqb_refl. Qed.

Lemma authorized_api_request token endpoint options :
  authorized token (api_request token endpoint options).
Proof. split; [apply startsWith_app|done]. Qed.

Section ClientExtras.

Variable server : list Request → Request → FetchOutcome.
Variable race : list Exn → nat.
Variable parseSender : option jsstring → Sender.

Lemma bind_throw {A B} (m : M A) (f : A → M B) w e :
  m w = (Throw e, w) → (m ≫= f) w = (Throw e, w).
Proof. intros H. unfold mbind, M_bind. by rewrite H. Qed.

Lemma fmap_throw {A B} (m : M A) (f : A → B) w e :
  m w = (Throw e, w) → (f <$> m) w = (Throw e, w).
Proof. intros H. unfold fmap, M_fmap. by rewrite H. Qed.

Lemma request_no_token endpoint options w :
  truthy_opt (accessToken w) = false →
  request server endpoint options w = (Throw NO_TOKEN, w).
Proof. intros H. by rewrite request_run, H. Qed.

(** X5.  Without a token no operation reaches the network: each one throws
    the sign-in error and leaves the state, the request log included, as it
    was. *)
Theorem no_token_no_request op w :
  truthy_opt (accessToken w) = false → sendable op →
  perform server race parseSender op w = (Throw NO_TOKEN, w).
Proof.
  intros Htok Hop.
  pose proof (λ endpoint options, request_no_token endpoint options w Htok)
    as Hreq.
  assert (∀ id format,
            getMessage server parseSender id format w = (Throw NO_TOKEN, w))
    as Hget by (intros; apply bind_throw, Hreq).
  destruct op; cbn [perform]; apply fmap_throw; try apply Hreq.
  - apply bind_throw, Hreq.
  - apply Hget.
  - unfold sendMessage. cbn in Hop.
    destruct (base64Encode_total _ Hop) as [raw Hraw].
    unfold createMimeMessage. rewrite Hraw. apply Hreq.
  - apply bind_throw, Hget.
  - apply bind_throw, Hget.
  - destruct isCurrentlyStarred; apply Hreq.
Qed.

(** X6.  A message that [getMessage] returns carries a body exactly when the
    format is [full] and the provider sent a payload; the body is then what
    [extractEmailBody] makes of that payload, and the other fields are read
    off the response. *)
Theorem getMessage_body_presence id format w m w1 :
  getMessage server parseSender id format w = (Ok m, w1) →
  ∃ response,
    request server (message_endpoint id (default (js "full") format))
      no_options w = (Ok (JObject response), w1)
    ∧ msg_id m = api_id response
    ∧ msg_headers m
      = parseEmailHeaders (default empty_part (api_payload response))
    ∧ match msg_body m with
      | Some b =>
          default (js "full") format = js "full"
          ∧ ∃ payload, api_payload response = Some payload
                       ∧ extractEmailBody payload = Ok b
      | None =>
          default (js "full") format ≠ js "full"
          ∨ api_payload response = None
      end.
Proof.
  rewrite getMessage_run. cbv zeta.
  destruct (request _ _ _ w) as [[[|response]|e] w1']; [done| |done].
  intros Hm. exists response.
  destruct (api_payload response) as [payload|] eqn:Hp.
  - case_bool_decide as Hf.
    + destruct (extractEmailBody payload) as [b|e] eqn:Hb; [|done].
      cbn in Hm. injection Hm as <- <-. cbn. rewrite ?Hp.
      repeat split; eauto.
    + injection Hm as <- <-. cbn. rewrite ?Hp. repeat split; eauto.
  - injection Hm as <- <-. cbn. rewrite ?Hp. repeat split; eauto.
Qed.

Lemma extractEmailBody_undecodable payload :
  existsb undecodable (walk payload) = true →
  extractEmailBody payload = Throw InvalidCharacterError.
Proof.
  intros Hbad. unfold extractEmailBody. rewrite processPayload_walk.
  pose proof (process_all_outcome (walk payload) {| html := []; plain := [] |})
    as H.
  destruct (process_all _ _) as [r|e]; [congruence|]. by destruct H as [-> _].
Qed.

(** X7.  A part with malformed body data makes the fetch in [full] format
    throw the decoder's error although the HTTP request succeeded; a fetch in
    another format does not decode bodies and returns the message. *)
Theorem getMessage_decode_failure id format w response payload w1 :
  request server (message_endpoint id format) no_options w
    = (Ok (JObject response), w1) →
  api_payload response = Some payload →
  existsb undecodable (walk payload) = true →
  getMessage server parseSender id (Some format) w =
    if bool_decide (format = js "full")
    then (Throw InvalidCharacterError, w1)
    else (Ok (parse_message parseSender response), w1).
Proof.
  intros Hreq Hp Hbad. rewrite getMessage_run. cbn [default from_option Datatypes.id].
  cbv zeta. rewrite Hreq, Hp. case_bool_decide; [|done].
  by rewrite extractEmailBody_undecodable.
Qed.

(** X8.  When the list call returns no [messages] (the key is absent or the
    list is empty), [listMessages] returns an empty list and issues no
    detail request. *)
Theorem listMessages_empty o w response w1 :
  request server (js "/messages?" ++ params_toString (list_params o))
          no_options w = (Ok (JObject response), w1) →
  default [] (api_messages response) = [] →
  listMessages server race parseSender o w =
    (Ok {| messages := []; nextPageToken := api_nextPageToken response;
           resultSizeEstimate := api_resultSizeEstimate response |}, w1).
Proof.
  intros Hreq Hnone. unfold listMessages, mbind at 1, M_bind at 1.
  rewrite Hreq. unfold mbind at 1, M_bind at 1, lift at 1. cbn [as_object].
  cbv zeta. by rewrite Hnone.
Qed.


Lemma issues_requests_request endpoint options :
  issues_requests (request server endpoint options).
Proof.
  intros w. rewrite request_run. destruct (truthy_opt (accessToken w)).
  - eexists [_]. split; [done|].
    constructor; [apply authorized_api_request|constructor].
  - exists []. by rewrite with_http_log_same.
Qed.

Lemma issues_requests_getMessage id format :
  issues_requests (getMessage server parseSender id format).
Proof.
  unfold getMessage. cbv zeta.
  apply issues_requests_bind; [apply issues_requests_request|].
  intros response. apply issues_requests_bind; [by apply issues_requests_pure|].
  clear response. intros response.
  destruct (api_payload response) as [payload|];
    [|by apply issues_requests_pure].
  case_bool_decide; [|by apply issues_requests_pure].
  apply issues_requests_bind; by (intros; apply issues_requests_pure).
Qed.

Lemma issues_requests_listMessages o :
  issues_requests (listMessages server race parseSender o).
Proof.
  unfold listMessages.
  apply issues_requests_bind; [apply issues_requests_request|].
  intros response. apply issues_requests_bind; [by apply issues_requests_pure|].
  clear response. intros response. cbv zeta. apply issues_requests_bind.
  { apply issues_requests_settle_all, Forall_fmap, Forall_forall.
    intros msg _. apply issues_requests_getMessage. }
  intros settled. apply issues_requests_bind; by (intros; apply issues_requests_pure).
Qed.

Lemma issues_requests_sendMessage o :
  issues_requests (sendMessage server o).
Proof.
  unfold sendMessage.
  apply issues_requests_bind; [by apply issues_requests_pure|].
  intros raw. apply issues_requests_request.
Qed.

(** X9.  The only effect of a client operation on the state is to issue
    requests: it appends them to the request log and leaves the token, the
    known ids, the settings and the notifications as they were.  Each
    request goes to the API base URL and carries the bearer token of the
    state and the JSON content type. *)
Theorem perform_issues_requests op w :
  ∃ reqs,
    (perform server race parseSender op w).2
      = with_http_log (http_log w ++ reqs) w
    ∧ Forall (authorized (accessToken w)) reqs.
Proof.
  revert w. change (issues_requests (perform server race parseSender op)).
  destruct op; cbn [perform]; apply issues_requests_fmap;
    try apply issues_requests_request.
  - apply issues_requests_listMessages.
  - apply issues_requests_getMessage.
  - apply issues_requests_sendMessage.
  - apply issues_requests_bind; [apply issues_requests_getMessage|].
    intros original. apply issues_requests_sendMessage.
  - apply issues_requests_bind; [apply issues_requests_getMessage|].
    intros original. apply issues_requests_sendMessage.
  - destruct isCurrentlyStarred; apply issues_requests_request.
Qed.



(** X11.  [toggleStar] issues one post to the [modify] endpoint of the
    message: it removes the [STARRED] label when the message is starred and
    adds it otherwise, and it never does both. *)
Theorem toggleStar_request id isCurrentlyStarred w :
  truthy_opt (accessToken w) = true →
  http_log (toggleStar server id isCurrentlyStarred w).2 =
  http_log w
    ++ [api_request (accessToken w) (js "/messages/" ++ tpl id ++ js "/modify")
          {| opt_method := Some (js "POST");
             opt_body :=
               Some (if isCurrentlyStarred
                     then ModifyBody [] [js "STARRED"]
                     else ModifyBody [js "STARRED"] []) |}].
Proof.
  intros Htok. unfold toggleStar, unstarMessage, starMessage, modifyLabels.
  destruct isCurrentlyStarred; by rewrite request_run, Htok.
Qed.

End ClientExtras.

Lemma no_token_no_request_witness :
  perform example_server example_race example_parseSender OpGetProfile
    (with_accessToken None example_world)
  = (Throw NO_TOKEN, with_accessToken None example_world).
Proof.
  exact (no_token_no_request example_server example_race example_parseSender
           OpGetProfile (with_accessToken None example_world) eq_refl I).
Defined.

Lemma getMessage_body_presence_witness :
  ∃ m w1,
    getMessage example_server example_parseSender (Some (js "a"))
      (Some (js "full")) example_world = (Ok m, w1)
    ∧ ∃ response,
        request example_server
          (message_endpoint (Some (js "a"))
             (default (js "full") (Some (js "full"))))
          no_options example_world = (Ok (JObject response), w1)
        ∧ msg_id m = api_id response
        ∧ msg_headers m
          = parseEmailHeaders (default empty_part (api_payload response))
        ∧ match msg_body m with
          | Some b =>
              default (js "full") (Some (js "full")) = js "full"
              ∧ ∃ payload, api_payload response = Some payload
                           ∧ extractEmailBody payload = Ok b
          | None =>
              default (js "full") (Some (js "full")) ≠ js "full"
              ∨ api_payload response = None
          end.
Proof.
  destruct (getMessage example_server example_parseSender (Some (js "a"))
              (Some (js "full")) example_world) as [[m|e] w1] eqn:E;
    [|by vm_compute in E].
  exists m, w1. split; [reflexivity|].
  exact (getMessage_body_presence example_server example_parseSender
           (Some (js "a")) (Some (js "full")) example_world m w1 E).
Defined.

Lemma getMessage_decode_failure_witness :
  ∃ w1,
    request malformed_server (message_endpoint (Some (js "x")) (js "full"))
      no_options example_world = (Ok (JObject example_malformed), w1)
    ∧ existsb undecodable (walk example_malformed_payload) = true
    ∧ getMessage malformed_server example_parseSender (Some (js "x"))
        (Some (js "full")) example_world
      = if bool_decide (js "full" = js "full")
        then (Throw InvalidCharacterError, w1)
        else (Ok (parse_message example_parseSender example_malformed), w1).
Proof.
  destruct (request malformed_server
              (message_endpoint (Some (js "x")) (js "full")) no_options
              example_world) as [[response|e] w1] eqn:E;
    [|by vm_compute in E].
  assert (response = JObject example_malformed) as ->.
  { rewrite request_run in E. by injection E as <- _. }
  exists w1. split; [reflexivity|]. split; [reflexivity|].
  exact (getMessage_decode_failure malformed_server example_parseSender
           (Some (js "x")) (js "full") example_world example_malformed
           example_malformed_payload w1 E eq_refl eq_refl).
Defined.

Lemma listMessages_empty_witness :
  ∃ w1,
    request empty_server
      (js "/messages?" ++ params_toString (list_params default_options))
      no_options example_world = (Ok (JObject empty_object), w1)
    ∧ listMessages empty_server example_race example_parseSender
        default_options example_world
      = (Ok {| messages := [];
               nextPageToken := api_nextPageToken empty_object;
               resultSizeEstimate := api_resultSizeEstimate empty_object |},
         w1).
Proof.
  destruct (request empty_server
              (js "/messages?" ++ params_toString (list_params default_options))
              no_options example_world) as [[response|e] w1] eqn:E;
    [|by vm_compute in E].
  assert (response = JObject empty_object) as ->.
  { rewrite request_run in E. by injection E as <- _. }
  exists w1. split; [reflexivity|].
  exact (listMessages_empty empty_server example_race example_parseSender
           default_options example_world empty_object w1 E eq_refl).
Defined.


(** The forward of the example message, as the text that is sent. *)
Example forwardMessage_example :
  match
    last (http_log (forwardMessage example_server example_parseSender
                      (Some (js "a")) (Some (js "bob@x.com"))
                      (Some (js "FYI")) example_world).2)
  with
  | Some {| req_body := Some (SendBody raw None) |} =>
      base64Decode raw
      = Ok (js "To: bob@x.com" ++ [13; 10]
            ++ js "Subject: Fwd: Lunch" ++ [13; 10]
            ++ js "MIME-Version: 1.0" ++ [13; 10]
            ++ js "Content-Type: text/plain; charset=UTF-8" ++ [13; 10; 13; 10]
            ++ js "FYI" ++ [10; 10]
            ++ js "---------- Forwarded message ---------" ++ [10]
            ++ js "From: jane@x.com" ++ [10]
            ++ js "Date: undefined" ++ [10]
            ++ js "Subject: Lunch" ++ [10]
            ++ js "To: undefined" ++ [10; 10]
            ++ js "See you at noon")
  | _ => False
  end.
Proof. by vm_compute. Qed.

Lemma toggleStar_request_witness :
  http_log (toggleStar example_server (Some (js "a")) true example_world).2 =
  http_log example_world
    ++ [api_request (accessToken example_world)
          (js "/messages/" ++ tpl (Some (js "a")) ++ js "/modify")
          {| opt_method := Some (js "POST");
             opt_body := Some (ModifyBody [] [js "STARRED"]) |}].
Proof.
  exact (toggleStar_request example_server (Some (js "a")) true example_world
           eq_refl).
Defined.

(** ** The query of listMessages *)








(** ** More on the notification poller *)

Lemma filter_none {A} (P : A → Prop) `{!∀ x, Decision (P x)} (l : list A) :
  Forall (λ x, ¬ P x) l → filter P l = [].
Proof.
  induction 1 as [|x l Hx _ IH]; [done|]. by rewrite filter_cons_False.
Qed.

Section PollerExtras.

Variable server : list Request → Request → FetchOutcome.
Variable race : list Exn → nat.
Variable parseSender : option jsstring → Sender.

Lemma checkForNewEmails_keeps w :
  ∃ w', checkForNewEmails server race parseSender w = (Ok tt, w')
        ∧ identity_cache w' = identity_cache w
        ∧ storage w' = storage w
        ∧ notifications w `prefix_of` notifications w'
        ∧ accessToken w' = if truthy_opt (identity_cache w)
                           then identity_cache w else accessToken w.
Proof.
  unfold checkForNewEmails, try_catch.
  unfold mbind at 1, M_bind at 1. rewrite authenticateSilently_run.
  destruct (truthy_opt (identity_cache w)) eqn:Hc; cbn [negb].
  2:{ by eexists. }
  rewrite Hc. cbn [negb]. unfold mbind at 1, M_bind at 1, gets at 1.
  cbn [storage with_accessToken].
  destruct (bool_decide (notificationsEnabled (storage w) = Some false)).
  { by eexists. }
  fold (polling_state w). unfold mbind at 1, M_bind at 1.
  pose proof (listMessages_frame server race parseSender unread_options
                (polling_state w)) as (Ht & Hk & Hi & Hs & Hn).
  cbv zeta in Ht, Hk, Hi, Hs, Hn.
  destruct (listMessages _ _ _ _ _) as [[r|e] w1]; cbn [snd] in *.
  2:{ eexists. split; [done|]. by rewrite Hi, Hs, Hn, Ht. }
  unfold mbind at 1, M_bind at 1, gets at 1.
  unfold mbind at 1, M_bind at 1.
  destruct (0 <? size (lastKnownMessageIds w1))%nat.
  - rewrite notify_new_run. unfold modify. eexists. split; [done|].
    cbn. rewrite Hi, Hs, Hn, Ht. repeat split; try done.
    by apply prefix_app_r.
  - unfold modify. eexists. split; [done|]. cbn.
    by rewrite Hi, Hs, Hn, Ht.
Qed.

(** X13.  A poll cycle never throws, whatever the provider answers.  It
    leaves the identity cache and the settings as they were, it only adds
    notifications, and the client's token afterwards is the cached one when
    there is one and the token it had otherwise. *)
Theorem checkForNewEmails_safe w :
  ∃ w', checkForNewEmails server race parseSender w = (Ok tt, w')
        ∧ identity_cache w' = identity_cache w
        ∧ storage w' = storage w
        ∧ notifications w `prefix_of` notifications w'
        ∧ accessToken w' = if truthy_opt (identity_cache w)
                           then identity_cache w else accessToken w.
Proof. apply checkForNewEmails_keeps. Qed.

(** X14.  What a poll cycle announces is decided by the fetch of the cycle
    before it.  After a cycle that fetched the unread messages [r], the next
    cycle, which fetches [r2], raises a notification for exactly the
    messages of [r2] whose id is not among those of [r], in their order, and
    for none when [r] is empty.  So it raises none when every message of
    [r2] was among those of [r]; a message that was not among them is
    announced, also when an earlier cycle has announced it before. *)
Theorem checkForNewEmails_repeat w r w1 r2 w2 :
  truthy_opt (identity_cache w) = true →
  notificationsEnabled (storage w) ≠ Some false →
  listMessages server race parseSender unread_options (polling_state w)
    = (Ok r, w1) →
  let w' := (checkForNewEmails server race parseSender w).2 in
  listMessages server race parseSender unread_options (polling_state w')
    = (Ok r2, w2) →
  let announced :=
    match messages r with
    | [] => []
    | _ => notification_for
             <$> filter (λ m, msg_id m ∉ msg_id <$> messages r) (messages r2)
    end in
  notifications (checkForNewEmails server race parseSender w').2
    = notifications w' ++ announced
  ∧ ((∀ m, m ∈ messages r2 → msg_id m ∈ msg_id <$> messages r) →
     notifications (checkForNewEmails server race parseSender w').2
       = notifications w').
Proof.
  intros Hc Hs Hlist w' Hlist2 announced.
  destruct (checkForNewEmails_fetched server race parseSender w r w1 Hc Hs Hlist)
    as (w'' & Hrun & Hk & _).
  destruct (checkForNewEmails_keeps w) as (w''' & Hrun' & Hi & Hst & _).
  assert (w' = w'') as Hw' by (subst w'; by rewrite Hrun).
  assert (w''' = w'') as -> by congruence.
  rewrite <- Hw' in *. clear Hrun Hrun' w'' Hw'.
  assert (truthy_opt (identity_cache w') = true) as Hc' by by rewrite Hi.
  assert (notificationsEnabled (storage w') ≠ Some false) as Hs'
    by by rewrite Hst.
  destruct (checkForNewEmails_fetched server race parseSender w' r2 w2
              Hc' Hs' Hlist2) as (w3 & -> & _ & Hn).
  cbn [snd]. rewrite Hn.
  assert ((if decide (lastKnownMessageIds w' = ∅) then []
           else notification_for
                  <$> filter (λ m, msg_id m ∉ lastKnownMessageIds w')
                             (messages r2)) = announced) as ->.
  { subst announced. rewrite Hk. destruct (messages r) as [|m0 ms] eqn:Hms.
    - by rewrite decide_True.
    - rewrite decide_False.
      + f_equal. apply list_filter_iff. intros m.
        by rewrite elem_of_list_to_set.
      + intros Hempty.
        assert (msg_id m0 ∈ (∅ : gset (option jsstring))) as Hin
          by (rewrite <- Hempty; apply elem_of_list_to_set; cbn; left).
        by apply not_elem_of_empty in Hin. }
  split; [done|]. intros Hsub. subst announced.
  destruct (messages r) as [|m0 ms]; [by rewrite app_nil_r|].
  rewrite filter_none; [by rewrite app_nil_r|].
  apply Forall_forall. intros m Hm Hnew. apply Hnew. by apply Hsub.
Qed.

(** X15.  With a credential in the identity cache, [signOut] sends one
    request, to the revocation URL of that credential, with no
    authorization header; whatever the answer, and also when the request
    fails, it returns normally with the credential removed from the cache,
    the client's token cleared and the known ids emptied. *)
Theorem signOut_revokes w token :
  identity_cache w = Some token → truthy token = true →
  signOut server w =
    (Ok tt,
     {| accessToken := None; lastKnownMessageIds := ∅;
        identity_cache := None; storage := storage w;
        http_log := http_log w ++ [revoke_request token];
        notifications := notifications w |}).
Proof.
  intros Hcache Htoken.
  unfold signOut, getAuthToken_silent, mbind at 1, M_bind at 1, gets.
  rewrite Hcache. cbn [truthy_opt tpl]. rewrite Htoken.
  unfold mbind, M_bind, try_catch, fetch, modify, mret, M_ret,
    removeCachedAuthToken, setAccessToken, modify.
  destruct (server _ _); cbn; by rewrite Hcache, bool_decide_true.
Qed.

End PollerExtras.

Lemma checkForNewEmails_repeat_witness :
  let w' := (checkForNewEmails example_server example_race example_parseSender
               example_world_seen).2 in
  notifications (checkForNewEmails example_server example_race
                   example_parseSender w').2
  = notifications w'.
Proof.
  destruct (listMessages example_server example_race example_parseSender
              unread_options (polling_state example_world_seen))
    as [[r|e] w1] eqn:E; [|by vm_compute in E].
  destruct (listMessages example_server example_race example_parseSender
              unread_options
              (polling_state
                 (checkForNewEmails example_server example_race
                    example_parseSender example_world_seen).2))
    as [[r2|e2] w2] eqn:E2; [|by vm_compute in E2].
  apply (checkForNewEmails_repeat example_server example_race
           example_parseSender example_world_seen r w1 r2 w2
           eq_refl ltac:(discriminate) E E2).
  apply Forall_forall. vm_compute in E. vm_compute in E2.
  injection E as <- _. injection E2 as <- _.
  apply (bool_decide_unpack _). by vm_compute.
Defined.

(** The unread list is [a], then [c], then [a] and [c]: with [z] known
    before, the three cycles announce [a], [c] and [a] again. *)
Example checkForNewEmails_again :
  let cycle w :=
    (checkForNewEmails changing_server example_race example_parseSender w).2 in
  notificationId
    <$> notifications
          (cycle (cycle (cycle (with_lastKnownMessageIds {[ Some (js "z") ]}
                                  example_world))))
  = [js "exmail-new-a"; js "exmail-new-c"; js "exmail-new-a"].
Proof. by vm_compute. Qed.

Lemma signOut_revokes_witness :
  signOut example_server example_world_seen =
    (Ok tt,
     {| accessToken := None; lastKnownMessageIds := ∅;
        identity_cache := None; storage := storage example_world_seen;
        http_log := http_log example_world_seen
                      ++ [revoke_request (js "token-1")];
        notifications := notifications example_world_seen |}).
Proof.
  exact (signOut_revokes example_server example_world_seen (js "token-1")
           eq_refl eq_refl).
Defined.

(** ** Display helpers *)

Lemma trimStart_spec s :
  ∃ l, s = l ++ trimStart s
       ∧ Forall (λ c, is_white_space c = true) l
       ∧ ∀ c, head (trimStart s) = Some c → is_white_space c = false.
Proof.
  induction s as [|u s (l & Hs & Hl & Hh)].
  - exists []. by repeat split.
  - cbn [trimStart]. destruct (is_white_space u) eqn:Hu.
    + exists (u :: l). split; [by rewrite Hs at 1|]. split; [by constructor|done].
    + exists []. repeat split; [done|]. intros c [= <-]. done.
Qed.

Lemma last_rev {A} (l : list A) : last (rev l) = head l.
Proof. destruct l as [|a l]; [done|]. cbn. apply last_snoc. Qed.

Lemma trimEnd_spec s :
  ∃ r, s = trimEnd s ++ r
       ∧ Forall (λ c, is_white_space c = true) r
       ∧ ∀ c, last (trimEnd s) = Some c → is_white_space c = false.
Proof.
  destruct (trimStart_spec (rev s)) as (l & Hs & Hl & Hh).
  exists (rev l). unfold trimEnd. split; [|split].
  - by rewrite <- rev_app_distr, <- Hs, rev_involutive.
  - by apply Forall_rev.
  - intros c. rewrite last_rev. apply Hh.
Qed.

Lemma trim_spec s :
  ∃ l r, s = l ++ trim s ++ r
         ∧ Forall (λ c, is_white_space c = true) l
         ∧ Forall (λ c, is_white_space c = true) r
         ∧ trimmed (trim s).
Proof.
  destruct (trimStart_spec s) as (l & Hs & Hl & Hh).
  destruct (trimEnd_spec (trimStart s)) as (r & Ht & Hr & Hlast).
  change (trimEnd (trimStart s)) with (trim s) in *.
  exists l, r. split; [by rewrite <- Ht|]. split; [done|]. split; [done|].
  split; [|done]. intros c Hc. apply Hh. rewrite Ht.
  by destruct (trim s).
Qed.

Lemma trim_length s : (length (trim s) ≤ length s)%nat.
Proof.
  destruct (trim_spec s) as (l & r & Hs & _). rewrite Hs at 2.
  rewrite !length_app. lia.
Qed.

(** X16.  [truncateText] returns a short text as it is.  A text longer than
    [maxLength] is cut to its first [maxLength] code units, white space is
    dropped at both ends of that, and three dots are added: the result is at
    most [maxLength + 3] code units long, which can be more than the text. *)
Theorem truncateText_cut text maxLength :
  let n := N.to_nat (default 100 maxLength) in
  (length (truncateText (Some text) maxLength) ≤ n + 3)%nat
  ∧ ((length text ≤ n)%nat → truncateText (Some text) maxLength = text)
  ∧ ((n < length text)%nat →
     ∃ l kept r,
       take n text = l ++ kept ++ r
       ∧ Forall (λ c, is_white_space c = true) l
       ∧ Forall (λ c, is_white_space c = true) r
       ∧ trimmed kept
       ∧ truncateText (Some text) maxLength = kept ++ js "...").
Proof.
  cbv zeta. unfold truncateText. cbv zeta.
  set (m := default 100 maxLength).
  destruct text as [|u text].
  { cbn [truthy negb length]. split; [lia|]. split; [done|]. lia. }
  cbn [truthy negb].
  destruct (N.leb_spec (N.of_nat (length (u :: text))) m) as [Hle|Hlt].
  - split; [lia|]. split; [done|]. lia.
  - split; [|split; [lia|]].
    + rewrite length_app.
      pose proof (trim_length (take (N.to_nat m) (u :: text))) as Hlen.
      rewrite length_take in Hlen. change (length (js "...")) with 3%nat. lia.
    + intros _.
      destruct (trim_spec (take (N.to_nat m) (u :: text)))
        as (l & r & Hs & Hl & Hr & Ht).
      by exists l, (trim (take (N.to_nat m) (u :: text))), r.
Qed.

Example truncateText_example :
  truncateText (Some (js "Hello, world")) (Some 6) = js "Hello,..."
  ∧ truncateText (Some (js "Hello")) (Some 4) = js "Hell..."
  ∧ truncateText (Some (js "Hello")) (Some 5) = js "Hello"
  ∧ truncateText (Some (js "a    b")) (Some 4) = js "a..."
  ∧ truncateText None None = [].
Proof. by vm_compute. Qed.

Lemma to_int32_range z : (- 2 ^ 31 ≤ to_int32 z < 2 ^ 31)%Z.
Proof. unfold to_int32. pose proof (Z.mod_pos_bound (z + 2 ^ 31) (2 ^ 32)). lia. Qed.

Lemma hash_step_bound h c :
  c < 65536 → (Z.abs (hash_step h c) ≤ Z.abs h + 2 ^ 31 + 2 ^ 16)%Z.
Proof.
  intros Hc. unfold hash_step.
  pose proof (to_int32_range (Z.shiftl (to_int32 h) 5)). lia.
Qed.

Lemma foldl_hash_bound s h :
  code_units s →
  (Z.abs (foldl hash_step h s)
   ≤ Z.abs h + Z.of_nat (length s) * (2 ^ 31 + 2 ^ 16))%Z.
Proof.
  intros Hs. revert h. induction Hs as [|c s Hc _ IH]; intros h; cbn [foldl].
  - cbn. lia.
  - specialize (IH (hash_step h c)). pose proof (hash_step_bound h c Hc).
    cbn [length]. lia.
Qed.

(** X17.  The arithmetic of the hash of [stringToColor] is exact: on a
    string of at most 2^21 code units the running hash stays below 2^53 in
    absolute value, the range in which numbers represent integers exactly. *)
Theorem string_hash_exact s prefix rest :
  code_units s → N.of_nat (length s) ≤ 2 ^ 21 → s = prefix ++ rest →
  (Z.abs (string_hash prefix) < 2 ^ 53)%Z.
Proof.
  intros Hs Hlen ->. apply Forall_app in Hs as [Hp _].
  rewrite length_app in Hlen. unfold string_hash.
  pose proof (foldl_hash_bound prefix 0%Z Hp) as H.
  change (Z.abs 0) with 0%Z in H. nia.
Qed.

(** X18.  The color of a non-empty string is [hsl(h, 65%, 55%)] for a whole
    hue [h] below 360. *)
Theorem stringToColor_hue str :
  truthy_opt str = true →
  ∃ hue, hue < 360
         ∧ stringToColor str
           = js "hsl(" ++ number_toString hue ++ js ", 65%, 55%)".
Proof.
  intros Hstr. unfold stringToColor. rewrite Hstr. cbn [negb]. cbv zeta.
  eexists. split; [|done].
  pose proof (Z.rem_bound_abs (string_hash (default [] str)) 360).
  pose proof (Z.abs_nonneg (Z.rem (string_hash (default [] str)) 360)).
  assert (Z.abs (Z.rem (string_hash (default [] str)) 360) < 360)%Z
    by (apply Z.rem_bound_abs; lia).
  lia.
Qed.

Example stringToColor_example :
  stringToColor (Some (js "Jane")) = js "hsl(142, 65%, 55%)"
  ∧ stringToColor (Some (js "jane@x.com")) = js "hsl(249, 65%, 55%)"
  ∧ string_hash (js "aaaaaaaaaa") = (-5094314848)%Z
  ∧ stringToColor (Some (js "aaaaaaaaaa")) = js "hsl(208, 65%, 55%)"
  ∧ stringToColor None = js "hsl(0, 0%, 50%)".
Proof. by vm_compute. Qed.

Lemma string_hash_exact_witness :
  (Z.abs (string_hash (js "Ja")) < 2 ^ 53)%Z.
Proof.
  apply (string_hash_exact (js "Jane") (js "Ja") (js "ne")).
  - apply (bool_decide_unpack _). by vm_compute.
  - by vm_compute.
  - reflexivity.
Defined.

Lemma stringToColor_hue_witness :
  ∃ hue, hue < 360
         ∧ stringToColor (Some (js "Jane"))
           = js "hsl(" ++ number_toString hue ++ js ", 65%, 55%)".
Proof. exact (stringToColor_hue (Some (js "Jane")) eq_refl). Defined.

(** ** The From header *)

Section RegexProofs.

Context {R : Type}.
Implicit Types (k : jsstring → jsstring → option R) (cls : N → bool).

Lemma re_star_sound cls s k x :
  re_star cls s k = Some x →
  ∃ m rest, s = m ++ rest ∧ Forall (λ c, cls c = true) m
            ∧ k m rest = Some x.
Proof.
  revert k. induction s as [|c s IH]; intros k; cbn [re_star].
  - intros H. by exists [], [].
  - destruct (cls c) eqn:Hc; [|intros H; by exists [], (c :: s)].
    destruct (re_star cls s _) as [y|] eqn:Hs.
    + intros [= ->]. destruct (IH _ Hs) as (m & rest & -> & Hm & Hk).
      exists (c :: m), rest. by repeat split; [constructor|].
    + intros H. by exists [], (c :: s).
Qed.

Lemma re_star_none cls s k :
  (∀ m rest, s = m ++ rest → k m rest = None) → re_star cls s k = None.
Proof.
  revert k. induction s as [|c s IH]; intros k Hk; cbn [re_star].
  - by apply Hk.
  - destruct (cls c); [|by apply Hk].
    rewrite IH; [by apply Hk|]. intros m rest ->. by apply Hk.
Qed.

Lemma re_star_back cls s k :
  (∀ r1 r2, s = r1 ++ r2 → r1 ≠ [] → Forall (λ c, cls c = true) r1 →
            k r1 r2 = None) →
  re_star cls s k = k [] s.
Proof.
  revert k. induction s as [|c s IH]; intros k Hk; cbn [re_star]; [done|].
  destruct (cls c) eqn:Hc; [|done]. rewrite IH.
  - rewrite (Hk [c] s); [done..|]. by repeat constructor.
  - intros r1 r2 -> Hr1 Hcls. apply Hk; [done..|]. by constructor.
Qed.

Lemma re_star_first cls m rest k x :
  Forall (λ c, cls c = true) m →
  k m rest = Some x →
  (∀ r1 r2, rest = r1 ++ r2 → r1 ≠ [] → Forall (λ c, cls c = true) r1 →
            k (m ++ r1) r2 = None) →
  re_star cls (m ++ rest) k = Some x.
Proof.
  intros Hm. revert k. induction Hm as [|c m Hc _ IH]; intros k Hx Hback.
  - cbn [app]. by rewrite re_star_back.
  - cbn [app re_star]. rewrite Hc. by rewrite (IH (λ m0, k (c :: m0))).
Qed.

Lemma re_opt_sound c s (k : jsstring → option R) x :
  re_opt c s k = Some x → (∃ r, s = c :: r ∧ k r = Some x) ∨ k s = Some x.
Proof.
  destruct s as [|d r]; cbn; [by right|].
  destruct (N.eqb_spec d c) as [->|]; [|by right].
  destruct (k r) eqn:Hr; [|by right]. intros [= ->]. left. by exists r.
Qed.

Lemma re_opt_skip c s (k : jsstring → option R) :
  head s ≠ Some c → re_opt c s k = k s.
Proof.
  destruct s as [|d r]; [done|]. cbn. intros Hd.
  destruct (N.eqb_spec d c) as [->|]; done.
Qed.

End RegexProofs.

Lemma sender_tail_bare name addr :
  addr ≠ [] → Forall (λ c, c ≠ 62) addr → head addr ≠ Some 60 →
  sender_tail name addr = Some (name, addr).
Proof.
  intros Hne Hgt Hlt. unfold sender_tail. rewrite re_opt_skip by done.
  destruct addr as [|c addr]; [done|]. apply Forall_cons in Hgt as [Hc Hgt].
  unfold re_plus, not_gt. rewrite (proj2 (N.eqb_neq c 62) Hc). cbn [negb].
  rewrite <- (app_nil_r addr) at 1. apply re_star_first.
  - eapply Forall_impl; [exact Hgt|]. intros d Hd. cbn.
    by rewrite (proj2 (N.eqb_neq d 62) Hd).
  - done.
  - intros r1 r2 Hr. symmetry in Hr. by apply app_eq_nil in Hr as [-> _].
Qed.

Lemma sender_tail_bracket name addr :
  addr ≠ [] → Forall (λ c, c ≠ 62) addr →
  sender_tail name (60 :: addr ++ [62]) = Some (name, addr).
Proof.
  intros Hne Hgt. unfold sender_tail. cbn [re_opt N.eqb Pos.eqb].
  destruct addr as [|c addr]; [done|]. apply Forall_cons in Hgt as [Hc Hgt].
  cbn [app]. unfold re_plus at 1, not_gt at 1.
  rewrite (proj2 (N.eqb_neq c 62) Hc). cbn [negb].
  rewrite (re_star_first _ addr [62] _ (name, c :: addr)); [done|..].
  - eapply Forall_impl; [exact Hgt|]. intros d Hd. cbn.
    unfold not_gt. by rewrite (proj2 (N.eqb_neq d 62) Hd).
  - done.
  - intros [|d r1] r2 Hr Hr1 Hcls; [done|]. injection Hr as <- _.
    by apply Forall_cons in Hcls as [? _].
Qed.

Lemma sender_tail_sound name s groups :
  sender_tail name s = Some groups →
  groups.1 = name ∧ groups.2 ≠ [] ∧ Forall (λ c, c ≠ 62) groups.2
  ∧ ∃ a b, s = a ++ groups.2 ++ b.
Proof.
  unfold sender_tail. intros H.
  assert (∀ s', re_plus not_gt s'
                  (λ email s0,
                     re_opt 62 s0
                       (λ s1, match s1 with
                              | [] => Some (name, email)
                              | _ :: _ => None
                              end)) = Some groups →
                groups.1 = name ∧ groups.2 ≠ []
                ∧ Forall (λ c, c ≠ 62) groups.2
                ∧ ∃ b, s' = groups.2 ++ b) as Hplus.
  { intros [|c s']; [done|]. cbn [re_plus].
    destruct (not_gt c) eqn:Hc; [|done]. intros Hs.
    apply re_star_sound in Hs as (m & rest & -> & Hm & Hk).
    assert (groups = (name, c :: m)) as ->.
    { apply re_opt_sound in Hk as [(r & -> & Hk)|Hk];
        [by destruct r; [injection Hk|]|by destruct rest; [injection Hk|]]. }
    cbn. split; [done|]. split; [done|]. split; [|by exists rest].
    constructor.
    - intros ->. done.
    - eapply Forall_impl; [exact Hm|]. by intros d Hd ->. }
  apply re_opt_sound in H as [(r & -> & H)|H];
    apply Hplus in H as (? & ? & ? & b & ->).
  - repeat split; try done. by exists [60], b.
  - repeat split; try done. by exists [], b.
Qed.

Lemma sender_match_sound from groups :
  sender_match from = Some groups →
  groups.2 ≠ [] ∧ Forall (λ c, c ≠ 62) groups.2
  ∧ ∃ a b, from = a ++ groups.2 ++ b.
Proof.
  unfold sender_match.
  destruct (re_opt 34 from _) as [g|] eqn:Hgroup.
  - intros [= ->].
    assert (∀ s, re_star not_quote s
                   (λ name s0,
                      re_opt 34 s0
                        (λ s1, match s1 with
                               | c :: r => if is_white_space c
                                           then sender_tail (Some name) r
                                           else None
                               | [] => None
                               end)) = Some groups →
                 groups.2 ≠ [] ∧ Forall (λ c, c ≠ 62) groups.2
                 ∧ ∃ a b, s = a ++ groups.2 ++ b) as Hstar.
    { intros s Hs. apply re_star_sound in Hs as (m & rest & -> & _ & Hk).
      assert (∃ pre r name, rest = pre ++ r
                            ∧ sender_tail name r = Some groups)
        as (pre & r & name & -> & Ht).
      { apply re_opt_sound in Hk as [(r & -> & Hk)|Hk].
        - destruct r as [|c r]; [done|]. destruct (is_white_space c); [|done].
          by exists [34; c], r, (Some m).
        - destruct rest as [|c r]; [done|]. destruct (is_white_space c); [|done].
          by exists [c], r, (Some m). }
      apply sender_tail_sound in Ht as (_ & ? & ? & a & b & ->).
      repeat split; try done. exists (m ++ pre ++ a), b.
      by rewrite <- !(assoc_L (++)). }
    apply re_opt_sound in Hgroup as [(r & -> & H)|H];
      apply Hstar in H as (? & ? & a & b & ->); repeat split; try done.
    + by exists (34 :: a), b.
    + by exists a, b.
  - intros Ht. by apply sender_tail_sound in Ht as (_ & ? & ? & ?).
Qed.

(** X19.  For a non-empty [From] header, the address that [parseSender]
    returns is never empty and is a part of the header; for a header that
    is missing or empty the sender is "Unknown" with an empty address. *)
Theorem parseSender_email from :
  truthy from = true →
  sender_email (parseSender (Some from)) ≠ []
  ∧ ∃ a b, from = a ++ sender_email (parseSender (Some from)) ++ b.
Proof.
  intros Hfrom. unfold parseSender. cbn [truthy_opt]. rewrite Hfrom.
  cbn [negb default from_option Datatypes.id]. cbv zeta.
  destruct (sender_match from) as [[name email]|] eqn:Hm.
  - apply sender_match_sound in Hm as (? & _ & ?). done.
  - cbn. split; [by destruct from|]. exists [], []. by rewrite app_nil_r.
Qed.

(** X20.  A header of the form [QnameQ <address>], with [Q] the double
    quote, where the name has no
    double quote and the address is not empty and has no [>], gives that
    name and that address; an empty name is replaced by the part of the
    address before its first [@]. *)
Theorem parseSender_quoted name addr :
  Forall (λ c, c ≠ 34) name → addr ≠ [] → Forall (λ c, c ≠ 62) addr →
  parseSender (Some ([34] ++ name ++ [34; 32; 60] ++ addr ++ [62]))
  = {| sender_name := if truthy name then name else before_at addr;
       sender_email := addr |}.
Proof.
  intros Hname Hne Haddr. unfold parseSender. cbn [truthy_opt app truthy negb].
  cbn [default from_option Datatypes.id]. cbv zeta.
  assert (sender_match (34 :: name ++ 34 :: 32 :: 60 :: addr ++ [62])
          = Some (Some name, addr)) as ->; [|done].
  unfold sender_match. cbn [re_opt N.eqb Pos.eqb].
  rewrite (re_star_first _ name _ _ (Some name, addr)); [done|..].
  - eapply Forall_impl; [exact Hname|]. intros c Hc. cbn.
    unfold not_quote. by rewrite (proj2 (N.eqb_neq c 34) Hc).
  - cbn [re_opt N.eqb Pos.eqb]. change (is_white_space 32) with true.
    cbv iota. by rewrite sender_tail_bracket.
  - intros [|d r1] r2 Hr Hr1 Hcls; [done|]. injection Hr as <- _.
    by apply Forall_cons in Hcls as [? _].
Qed.

Lemma suffix_group_fails (name : jsstring) (s : jsstring) :
  (∀ c, head s = Some c → c ≠ 34 ∧ is_white_space c = false) →
  re_opt 34 s
    (λ s1, match s1 with
           | c :: r => if is_white_space c then sender_tail (Some name) r
                       else None
           | [] => None
           end) = None.
Proof.
  intros Hs. destruct s as [|c r]; [done|].
  destruct (Hs c eq_refl) as [Hq Hw]. rewrite re_opt_skip; [|by intros [= ->]].
  by rewrite Hw.
Qed.

(** X21.  A header of the form [name <address>], where the name has no
    double quote and the address is not empty and has no double quote, no
    angle bracket and no white space, gives that name and that address; an
    empty name is replaced by the part of the address before its first
    [@]. *)
Theorem parseSender_display name addr :
  Forall (λ c, c ≠ 34) name → addr ≠ [] → Forall address_unit addr →
  parseSender (Some (name ++ [32; 60] ++ addr ++ [62]))
  = {| sender_name := if truthy name then name else before_at addr;
       sender_email := addr |}.
Proof.
  intros Hname Hne Haddr. unfold parseSender.
  assert (truthy (name ++ [32; 60] ++ addr ++ [62]) = true) as Htr
    by by destruct name.
  cbn [truthy_opt]. rewrite Htr. cbn [negb default from_option Datatypes.id].
  cbv zeta.
  assert (sender_match (name ++ [32; 60] ++ addr ++ [62])
          = Some (Some name, addr)) as ->; [|done].
  unfold sender_match. rewrite re_opt_skip.
  2:{ destruct name as [|c name]; [done|]. apply Forall_cons in Hname as [? _].
      by intros [= ->]. }
  rewrite (re_star_first _ name _ _ (Some name, addr)); [done|..].
  - eapply Forall_impl; [exact Hname|]. intros c Hc. cbn.
    unfold not_quote. by rewrite (proj2 (N.eqb_neq c 34) Hc).
  - cbn [app re_opt N.eqb Pos.eqb]. change (is_white_space 32) with true.
    cbv iota. apply sender_tail_bracket; [done|].
    eapply Forall_impl; [exact Haddr|]. by intros c (_ & _ & ? & _).
  - intros [|d r1] r2 Hr Hr1 _; [done|]. cbn in Hr. injection Hr as _ Hr.
    apply suffix_group_fails. intros c Hc.
    assert (c ∈ 60 :: addr ++ [62]) as Hin.
    { rewrite Hr. apply elem_of_app. right. destruct r2; [done|].
      injection Hc as ->. by left. }
    apply elem_of_cons in Hin as [->|Hin]; [done|].
    apply elem_of_app in Hin as [Hin|Hin].
    + rewrite Forall_forall in Haddr. by destruct (Haddr c Hin) as (? & _ & _ & ?).
    + apply list_elem_of_singleton in Hin as ->. done.
Qed.

(** X22.  An address given alone, with or without angle brackets, that is
    not empty and has no double quote, no angle bracket and no white space
    is returned as the address, and the name is the part of it before its
    first [@]. *)
Theorem parseSender_bare addr :
  addr ≠ [] → Forall address_unit addr →
  parseSender (Some addr)
  = {| sender_name := before_at addr; sender_email := addr |}
  ∧ parseSender (Some ([60] ++ addr ++ [62]))
    = {| sender_name := before_at addr; sender_email := addr |}.
Proof.
  intros Hne Haddr.
  assert (∀ s, Forall (λ c, c ≠ 34 ∧ is_white_space c = false) s →
               re_opt 34 s (λ s,
                 re_star not_quote s (λ name s,
                   re_opt 34 s (λ s,
                     match s with
                     | c :: r => if is_white_space c
                                 then sender_tail (Some name) r
                                 else None
                     | [] => None
                     end))) = None) as Hgroup.
  { intros s Hs. rewrite re_opt_skip.
    2:{ destruct s as [|c s]; [done|]. apply Forall_cons in Hs as [[? _] _].
        by intros [= ->]. }
    apply re_star_none. intros m rest ->. apply suffix_group_fails.
    apply Forall_app in Hs as [_ Hs]. intros c Hc.
    destruct rest; [done|]. injection Hc as ->.
    by apply Forall_cons in Hs as [? _]. }
  assert (Forall (λ c, c ≠ 34 ∧ is_white_space c = false) addr) as Hplain.
  { eapply Forall_impl; [exact Haddr|]. by intros c (? & _ & _ & ?). }
  assert (Forall (λ c, c ≠ 62) addr) as Hgt.
  { eapply Forall_impl; [exact Haddr|]. by intros c (_ & _ & ? & _). }
  split; unfold parseSender.
  - assert (truthy addr = true) as Htr by by destruct addr.
    cbn [truthy_opt]. rewrite Htr.
    cbn [negb default from_option Datatypes.id]. cbv zeta.
    unfold sender_match. rewrite Hgroup by done.
    rewrite sender_tail_bare; [done..|].
    destruct addr as [|c addr]; [done|].
    apply Forall_cons in Haddr as [(_ & ? & _) _]. by intros [= ->].
  - cbn [truthy_opt app truthy negb default from_option Datatypes.id].
    cbv zeta. unfold sender_match. rewrite Hgroup.
    + by rewrite sender_tail_bracket.
    + constructor; [done|]. apply Forall_app. split; [done|].
      by repeat constructor.
Qed.

Example parseSender_example :
  parseSender (Some (js "Jane Doe <jane@x.com>"))
  = {| sender_name := js "Jane Doe"; sender_email := js "jane@x.com" |}
  ∧ parseSender (Some ([34] ++ js "Doe, Jane" ++ [34] ++ js " <jane@x.com>"))
    = {| sender_name := js "Doe, Jane"; sender_email := js "jane@x.com" |}
  ∧ parseSender (Some (js "jane@x.com"))
    = {| sender_name := js "jane"; sender_email := js "jane@x.com" |}
  ∧ parseSender (Some (js "jane@x.com (Jane Doe)"))
    = {| sender_name := js "jane@x.com (Jane"; sender_email := js "Doe)" |}
  ∧ parseSender (Some (js "a>b"))
    = {| sender_name := js "a>b"; sender_email := js "a>b" |}
  ∧ parseSender None
    = {| sender_name := js "Unknown"; sender_email := [] |}.
Proof. by vm_compute. Qed.

Lemma parseSender_email_witness :
  sender_email (parseSender (Some (js "a>b"))) ≠ []
  ∧ ∃ a b, js "a>b" = a ++ sender_email (parseSender (Some (js "a>b"))) ++ b.
Proof. exact (parseSender_email (js "a>b") eq_refl). Defined.

Lemma parseSender_quoted_witness :
  parseSender
    (Some ([34] ++ js "Doe, Jane" ++ [34; 32; 60] ++ js "jane@x.com" ++ [62]))
  = {| sender_name := js "Doe, Jane"; sender_email := js "jane@x.com" |}.
Proof.
  apply (parseSender_quoted (js "Doe, Jane") (js "jane@x.com")).
  - apply (bool_decide_unpack _). by vm_compute.
  - discriminate.
  - apply (bool_decide_unpack _). by vm_compute.
Defined.

Lemma parseSender_display_witness :
  parseSender (Some (js "Jane Doe" ++ [32; 60] ++ js "jane@x.com" ++ [62]))
  = {| sender_name := js "Jane Doe"; sender_email := js "jane@x.com" |}.
Proof.
  apply (parseSender_display (js "Jane Doe") (js "jane@x.com")).
  - apply (bool_decide_unpack _). by vm_compute.
  - discriminate.
  - apply (bool_decide_unpack _). by vm_compute.
Defined.

Lemma parseSender_bare_witness :
  parseSender (Some (js "jane@x.com"))
  = {| sender_name := before_at (js "jane@x.com");
       sender_email := js "jane@x.com" |}
  ∧ parseSender (Some ([60] ++ js "jane@x.com" ++ [62]))
    = {| sender_name := before_at (js "jane@x.com");
         sender_email := js "jane@x.com" |}.
Proof.
  apply (parseSender_bare (js "jane@x.com")).
  - discriminate.
  - apply (bool_decide_unpack _). by vm_compute.
Defined.

(** ** The message bridge *)

Lemma keeps_alarm_in_world {A} (m : M A) : keeps_alarm (in_world m).
Proof. intros b. unfold in_world. by destruct (m (world b)). Qed.

Lemma keeps_alarm_ret {A} (a : A) : keeps_alarm (mret a : Worker A).
Proof. by intros b. Qed.

Lemma keeps_alarm_bind {A A'} (m : Worker A) (f : A → Worker A') :
  keeps_alarm m → (∀ a, keeps_alarm (f a)) → keeps_alarm (m ≫= f).
Proof.
  intros Hm Hf b. unfold mbind, Worker_bind. destruct (Hm b) as [Ha Hi].
  destruct (m b) as [[a|e] b1]; [|done]. destruct (Hf a b1) as [Ha' Hi'].
  cbn in Ha, Hi. by rewrite Ha', Hi'.
Qed.

Lemma keeps_alarm_fmap {A A'} (g : A → A') (m : Worker A) :
  keeps_alarm m → keeps_alarm (g <$> m).
Proof.
  intros Hm b. unfold fmap, Worker_fmap. specialize (Hm b).
  by destruct (m b) as [[a|e] b1].
Qed.

Ltac keeps_alarm :=
  repeat first
    [ apply keeps_alarm_in_world
    | apply keeps_alarm_ret
    | apply keeps_alarm_fmap
    | apply keeps_alarm_bind; [|intros ?]
    | match goal with
      | |- keeps_alarm (if ?c then _ else _) => destruct c
      end ].

Section BridgeProofs.

Variable server : list Request → Request → FetchOutcome.
Variable race : list Exn → nat.
Variable consent : AuthOutcome.



(** X24.  [checkAuth] without a credential in the identity cache answers
    that the user is not authenticated and issues no request, also when the
    client still holds a token.  With a credential it hands that credential
    to the client and issues one request, for the profile, which carries
    it; the answer is the profile, or the error of that request. *)
Theorem checkAuth_answer data b :
  let w := world b in
  let req := api_request (identity_cache w) (js "/profile") no_options in
  handleMessage server race consent
    {| br_action := Some (js "checkAuth"); br_data := data |} b =
  if truthy_opt (identity_cache w) then
    (match fetch_outcome (server (http_log w) req) with
     | Ok profile => Ok (RAuthenticated profile)
     | Throw e => Throw e
     end,
     {| world := with_http_log (http_log w ++ [req]) (polling_state w);
        isInitialized := isInitialized b; alarm := alarm b |})
  else (Ok RNotAuthenticated, b).
Proof.
  cbv zeta. unfold handleMessage. cbv zeta. cbn [br_action br_data].
  repeat match goal with
         | |- context [is_action ?a ?n] =>
             let v := eval vm_compute in (is_action a n) in
             change (is_action a n) with v
         end.
  cbv iota. unfold mbind at 1, Worker_bind at 1, in_world at 1.
  rewrite authenticateSilently_run.
  destruct (truthy_opt (identity_cache (world b))) eqn:Hc.
  - rewrite Hc. unfold mbind, Worker_bind, in_world, getProfile. cbn [world].
    rewrite request_run. cbn [accessToken with_accessToken http_log].
    rewrite Hc. cbv zeta. fold (polling_state (world b)).
    by destruct (fetch_outcome _).
  - cbn. by destruct b.
Qed.

Lemma in_world_requests {A A'} (g : A → A') (m : M A) b :
  issues_requests m →
  ∃ reqs,
    ((g <$> in_world m) b).2
    = {| world := with_http_log (http_log (world b) ++ reqs) (world b);
         isInitialized := isInitialized b; alarm := alarm b |}
    ∧ Forall (authorized (accessToken (world b))) reqs.
Proof.
  intros Hm. destruct (Hm (world b)) as (reqs & Hw & Ha). exists reqs.
  split; [|done]. unfold fmap, Worker_fmap, in_world.
  destruct (m (world b)) as [[a|e] w']; cbn in *; by rewrite Hw.
Qed.

(** X25.  The requests that call the API client change nothing in the worker
    but the log of requests: the token, the known ids, the settings, the
    notifications, the alarm and the initialisation flag stay, and each
    request issued goes to the API with the client's token. *)
Theorem handleMessage_api_actions action data b :
  action ∈ api_actions →
  ∃ reqs,
    (handleMessage server race consent
       {| br_action := Some action; br_data := data |} b).2
    = {| world := with_http_log (http_log (world b) ++ reqs) (world b);
         isInitialized := isInitialized b; alarm := alarm b |}
    ∧ Forall (authorized (accessToken (world b))) reqs.
Proof.
  intros Hin. unfold api_actions in Hin. unfold handleMessage. cbv zeta.
  cbn [br_action br_data].
  repeat (apply elem_of_cons in Hin as [->|Hin]);
    [..|by apply elem_of_nil in Hin];
    repeat match goal with
           | |- context [is_action ?a ?n] =>
               let v := eval vm_compute in (is_action a n) in
               change (is_action a n) with v
           end;
    cbv iota; apply in_world_requests.
  - apply issues_requests_request.
  - apply issues_requests_listMessages.
  - apply issues_requests_getMessage.
  - apply issues_requests_sendMessage.
  - apply issues_requests_bind; [apply issues_requests_getMessage|].
    intros original. apply issues_requests_sendMessage.
  - apply issues_requests_bind; [apply issues_requests_getMessage|].
    intros original. apply issues_requests_sendMessage.
  - apply issues_requests_request.
  - apply issues_requests_request.
  - unfold toggleStar. destruct (default false _); apply issues_requests_request.
  - apply issues_requests_request.
  - apply issues_requests_request.
Qed.

Lemma initialize_run platform b :
  initialize platform b =
    (Ok tt,
     if isInitialized b then b
     else
       match storage_get platform, alarms_clear platform,
             alarms_create platform with
       | Answers, Answers, Answers =>
           {| world := if truthy_opt (identity_cache (world b))
                       then polling_state (world b) else world b;
              isInitialized := true;
              alarm := Some (number_or (refreshInterval (storage (world b)))
                                       DEFAULT_REFRESH_INTERVAL) |}
       | Answers, Answers, Rejects _ =>
           {| world := world b; isInitialized := false; alarm := None |}
       | _, _, _ => b
       end).
Proof.
  unfold initialize. destruct (isInitialized b) eqn:Hi; [done|].
  unfold worker_try_catch, setupRefreshAlarm, mbind, Worker_bind, platform_call,
    in_world, gets, set_alarm, set_isInitialized.
  destruct (storage_get platform); [|done]. cbn.
  destruct (alarms_clear platform); [|by destruct b; cbn in *; subst].
  destruct (alarms_create platform); cbn; [|by rewrite Hi].
  rewrite authenticateSilently_run.
  by destruct (truthy_opt (identity_cache (world b))).
Qed.

(** X26.  The period of the refresh alarm is never set to zero, neither at
    start-up nor by a request: a stored interval of zero is read as five
    minutes at start-up, and saving it leaves the alarm as it is. *)
Theorem refresh_alarm_positive request platform b :
  alarm b ≠ Some 0 →
  alarm (handleMessage server race consent request b).2 ≠ Some 0
  ∧ alarm (initialize platform b).2 ≠ Some 0.
Proof.
  intros Hb. split.
  - unfold handleMessage. cbv zeta.
    repeat match goal with
           | |- context [if is_action ?a ?n then _ else _] =>
               destruct (is_action a n);
               [first [ by match goal with
                           | |- alarm (?m b).2 ≠ _ =>
                               assert (keeps_alarm m) as Hk by keeps_alarm;
                               destruct (Hk b) as [-> _]
                           end
                      | idtac ]|]
           end.
    + unfold mbind, Worker_bind, in_world, modify, setupRefreshAlarm,
        platform_call, set_alarm. cbn.
      destruct (N.eqb_spec (default 0 (d_refreshInterval (br_data request))) 0)
        as [?|Hn]; cbn; [done|]. by intros [= ?].
    + by match goal with
         | |- alarm (?m b).2 ≠ _ =>
             assert (keeps_alarm m) as Hk by keeps_alarm;
             destruct (Hk b) as [-> _]
         end.
  - rewrite initialize_run. destruct (isInitialized b); [done|].
    destruct (storage_get platform); [|done].
    destruct (alarms_clear platform); [|done].
    destruct (alarms_create platform); [|done]. cbn.
    unfold number_or, DEFAULT_REFRESH_INTERVAL.
    destruct (refreshInterval (storage (world b))) as [n|]; [|done].
    destruct (N.eqb_spec n 0); [done|]. by intros [= ?].
Qed.

(** X27.  Start-up never throws, and with the flag set it changes nothing.
    With the flag unset, when the read of the settings and the two alarm
    calls answer, it sets the alarm to the stored interval, or to five
    minutes when none or zero is stored, hands the cached credential, when
    there is one, to the client, and sets the flag.  When one of the calls
    rejects, the flag stays unset, so that the next call starts over, and no
    credential is handed over; the alarm is as it was, or cleared when it is
    the creation that rejects. *)
Theorem initialize_once platform b :
  let b1 := (initialize platform b).2 in
  initialize platform b = (Ok tt, b1)
  ∧ (isInitialized b = true → b1 = b)
  ∧ (isInitialized b = false →
     match storage_get platform, alarms_clear platform,
           alarms_create platform with
     | Answers, Answers, Answers =>
         isInitialized b1 = true
         ∧ alarm b1 = Some (number_or (refreshInterval (storage (world b))) 5)
         ∧ world b1 = (if truthy_opt (identity_cache (world b))
                       then polling_state (world b) else world b)
     | Answers, Answers, Rejects _ =>
         isInitialized b1 = false ∧ alarm b1 = None ∧ world b1 = world b
     | _, _, _ => b1 = b
     end).
Proof.
  cbv zeta. rewrite (initialize_run platform b). cbn [snd].
  split; [done|]. split; intros Hi; rewrite Hi; [done|].
  by destruct (storage_get platform), (alarms_clear platform),
       (alarms_create platform).
Qed.

End BridgeProofs.

Example handleMessage_unknown_action :
  ∀ server race consent data b,
    respond server race consent
      {| br_action := Some (js "archive"); br_data := data |} b
    = (RError (JsError (js "Unknown action: archive")), b).
Proof.
  intros. unfold respond, handleMessage. cbv zeta. cbn [br_action br_data].
  repeat match goal with
         | |- context [is_action ?a ?n] =>
             let v := eval vm_compute in (is_action a n) in
             change (is_action a n) with v
         end.
  cbv iota. unfold in_world, throw. by destruct b.
Qed.


Lemma handleMessage_api_actions_witness :
  ∃ reqs,
    (handleMessage example_server example_race example_consent
       {| br_action := Some (js "listMessages"); br_data := example_data |}
       example_background).2
    = {| world := with_http_log (http_log (world example_background) ++ reqs)
                    (world example_background);
         isInitialized := isInitialized example_background;
         alarm := alarm example_background |}
    ∧ Forall (authorized (accessToken (world example_background))) reqs.
Proof.
  apply (handleMessage_api_actions example_server example_race
           example_consent (js "listMessages") example_data
           example_background).
  apply (bool_decide_unpack _). by vm_compute.
Defined.

Lemma refresh_alarm_positive_witness :
  alarm (handleMessage example_server example_race example_consent
           {| br_action := Some (js "saveSettings");
              br_data := example_data |} example_background).2 ≠ Some 0
  ∧ alarm (initialize example_startup example_background).2 ≠ Some 0.
Proof.
  apply (refresh_alarm_positive example_server example_race example_consent
           {| br_action := Some (js "saveSettings");
              br_data := example_data |} example_startup example_background).
  discriminate.
Defined.

(** On the example: the list request through the bridge issues four
    requests; saving an interval of zero stores it and leaves the alarm that
    start-up has set to five minutes. *)
Example handleMessage_example :
  let zero :=
    {| d_id := None; d_format := None; d_messageId := None; d_to := None;
       d_subject := None; d_body := None; d_threadId := None;
       d_inReplyTo := None; d_references := None; d_isStarred := None;
       d_filter := None; d_maxResults := None; d_pageToken := None;
       d_q := None; d_theme := None; d_refreshInterval := Some 0;
       d_notificationsEnabled := None |} in
  let started := (initialize example_startup example_background).2 in
  let saved :=
    (handleMessage example_server example_race example_consent
       {| br_action := Some (js "saveSettings"); br_data := zero |}
       started).2 in
  length (http_log (world
    (handleMessage example_server example_race example_consent
       {| br_action := Some (js "listMessages"); br_data := example_data |}
       example_background).2)) = 4%nat
  ∧ alarm started = Some 5
  ∧ alarm saved = Some 5
  ∧ refreshInterval (storage (world saved)) = Some 0.
Proof. by vm_compute. Qed.
